(** * The Backup Engine of shopify-theme-sniffer, embedded and verified

    The development follows [types.ts] (records), [db.ts] (the IndexedDB
    adapter) and the backup module ([transformProduct], [BackupEngine],
    [startBackup] and its siblings), and, of the code around them, the
    pagination, escaping and relative times of the products page and the
    alarm names of [lifecycle.ts].  Stateful code is written in a small
    state-and-exception monad over the [World]: the four object stores, the
    effects that leave the store (requests, sleeps, notifications, progress
    callbacks), the number of clock readings and the number of storage
    requests made.

    Field names are those of the source; where two records share a name
    ([id], [title], [created_at], ...) the field carries a prefix for its
    record: [sf_] storefront, [p_] product, [pv_] product variant, [bc_]
    backup cursor, [log_] log entry, [gp_], [gv_], [gi_] GraphQL product,
    variant and image node. *)

From Stdlib Require Import ZArith Ascii String List.
From stdpp Require Import gmap strings list fin_maps pretty.

Local Open Scope string_scope.
Local Open Scope Z_scope.
Local Open Scope list_scope.

(* ===================================================================== *)
(** * Records of [src/types.ts] *)
(* ===================================================================== *)

Inductive BackupStatus := Complete | Partial | InProgress | Paused | Never.

(** A JSON number that the engine only copies (pixel sizes, weights) is kept
    as the decimal literal it arrives as; numbers the engine counts with are
    integers. *)
Definition JsonNumber := string.

Record Storefront := {
  sf_id : string;
  sf_domain : string;
  last_backup_at : option string;
  backup_status : BackupStatus;
  product_count : Z;
  size_bytes : Z;
  sf_created_at : string;
}.

Record ProductImage := {
  url : string;
  alt : option string;
  width : JsonNumber;
  height : JsonNumber;
}.

Record ProductVariant := {
  pv_id : string;
  pv_title : string;
  pv_sku : string;
  pv_price : string;
  compare_at_price : option string;
  inventory_policy : option string;
  pv_weight : option JsonNumber;
  weight_unit : option string;
  option1 : option string;
  option2 : option string;
  option3 : option string;
}.

Record Product := {
  p_id : string;                  (* `{storefront_id}::{shopify_product_id}` *)
  p_storefront_id : string;
  shopify_id : string;
  p_title : string;
  p_handle : string;
  description_html : string;
  p_vendor : string;
  product_type : string;
  p_tags : list string;
  p_images : list ProductImage;
  p_variants : list ProductVariant;
  p_created_at : string;
  p_updated_at : string;
  sniffer_updated_at : string;
  removed_at : option string;
}.

Record BackupCursor := {
  bc_storefront_id : string;      (* primary key *)
  bc_cursor : option string;
  started_at : string;
  products_fetched : Z;
  total_products : option Z;
}.

(** A thrown JavaScript value: [name] and [message] of the error object. *)
Record JsError := { err_name : string; err_message : string }.

Inductive Completion (A : Type) :=
  | Normal (a : A)
  | Thrown (e : JsError).
Arguments Normal {A} a.
Arguments Thrown {A} e.

Definition TypeError (msg : string) : JsError :=
  {| err_name := "TypeError"; err_message := msg |}.

(* ===================================================================== *)
(** * GraphQL payload, as decoded from the response body *)
(* ===================================================================== *)

Record GqlMoney := { amount : string; currencyCode : string }.

Record GqlSelectedOption := { so_name : string; so_value : string }.

(** [GqlVariantNode] and [GqlProductNode] declare their collections
    required, but the body is only cast ([as GqlResponse]), never validated:
    [None] stands for a collection ([selectedOptions], [images.nodes],
    [variants.nodes]) that the decoded record does not carry. *)
Record GqlVariantNode := {
  gv_id : string;
  gv_title : string;
  gv_sku : string;
  gv_price : GqlMoney;
  compareAtPrice : option GqlMoney;
  gv_weight : option JsonNumber;
  weightUnit : option string;
  selectedOptions : option (list GqlSelectedOption);
}.

Record GqlImageNode := {
  gi_url : string;
  altText : option string;
  gi_width : JsonNumber;
  gi_height : JsonNumber;
}.

Record GqlProductNode := {
  gp_id : string;
  gp_title : string;
  gp_handle : string;
  descriptionHtml : string;
  gp_vendor : string;
  productType : string;
  gp_tags : list string;
  createdAt : string;
  updatedAt : string;
  gp_images : option (list GqlImageNode);
  gp_variants : option (list GqlVariantNode);
}.

Record GqlPageInfo := { hasNextPage : bool; endCursor : option string }.

Record GqlProductsData := {
  pageInfo : GqlPageInfo;
  nodes : list GqlProductNode;
}.

Record GqlError := {
  ge_message : string;
  ge_code : option string;        (* extensions?.code *)
}.

Record GqlResponse := {
  data : option GqlProductsData;
  errors : option (list GqlError);
}.

Inductive LogLevel := info | warn | error.

(** The [detail] payloads the engine writes. *)
Inductive LogDetail :=
  | DetailResume (cursor : string) (fetched : Z)
  | DetailBody (body : GqlResponse)
  | DetailErrors (errors : option (list GqlError))
  | DetailFetched (fetched : Z)
  | DetailComplete (count size : Z).

(** The [id] of a log entry is its position in [logs]: the store assigns
    increasing keys. *)
Record LogEntry := {
  log_storefront_id : string;
  log_timestamp : string;
  log_level : LogLevel;
  log_message : string;
  log_detail : option LogDetail;
}.

(* ===================================================================== *)
(** * Numbers *)
(* ===================================================================== *)

(** A JavaScript number, as far as this code gets one: a double of
    integral value, or an infinity.  [NaN] is the [None] of an
    [option Num]; [-0] is [Finite 0], from which nothing here tells it
    apart. *)
Inductive Num :=
  | Finite (z : Z)
  | Infinity (negative : bool).

Coercion Finite : Z >-> Num.

(** The double nearest to an integer, ties to the even significand; an
    integer that rounds to 2^1024 or beyond gives an infinity. *)
Definition to_double (z : Z) : Num :=
  let a := Z.abs z in
  let e := Z.log2 a in
  if bool_decide (e < 53) then Finite z
  else
    let ulp := 2 ^ (e - 52) in
    let q := a / ulp in
    let r := a mod ulp in
    let q' := if bool_decide (2 * r < ulp) then q
              else if bool_decide (2 * r = ulp) && Z.even q then q
              else q + 1 in
    if bool_decide (2 ^ 1024 ≤ q' * ulp) then Infinity (bool_decide (z < 0))
    else Finite (Z.sgn z * (q' * ulp)).

(** Whether [v] reads back as the double [m]: it lies in the interval of
    the reals that round to [m], whose ends count when the significand of
    [m] is even.  [m] is a double of at least 2^53. *)
Definition reads_as (m v : Z) : bool :=
  let e := Z.log2 m in
  let ulp := 2 ^ (e - 52) in
  let q := m / ulp in
  let below := if bool_decide (q = 2 ^ 52) then ulp else 2 * ulp in
  let above := 2 * ulp in
  if Z.even q
  then bool_decide (4 * m - below ≤ 4 * v ≤ 4 * m + above)
  else bool_decide (4 * m - below < 4 * v < 4 * m + above).

(** The decimal with the fewest significant digits that reads back as
    [m], and among those the nearest to [m]: the multiples of [10^p] next
    to [m], for the largest [p] that has one in the interval. *)
Fixpoint shortest (p : nat) (m : Z) : Z :=
  match p with
  | O => m
  | S p' =>
      let step := 10 ^ Z.of_nat p in
      let lo := m / step * step in
      let hi := lo + step in
      let lo_ok := bool_decide (0 < lo) && reads_as m lo in
      let hi_ok := reads_as m hi in
      if lo_ok && hi_ok then
        if bool_decide (m - lo < hi - m) then lo
        else if bool_decide (hi - m < m - lo) then hi
        else if Z.even (lo / step) then lo else hi
      else if lo_ok then lo
      else if hi_ok then hi
      else shortest p' m
  end.

Fixpoint strip_zeros (fuel : nat) (v : Z) : Z :=
  match fuel with
  | O => v
  | S fuel' => if bool_decide (v mod 10 = 0) then strip_zeros fuel' (v / 10)
               else v
  end.

(** [String(x)] for a number, [Number::toString] with radix 10: the
    digits in full up to 21 of them, exponent notation beyond. *)
Definition show_positive (m : Z) : string :=
  if bool_decide (m < 2 ^ 53) then pretty m
  else
    let v := shortest (Z.to_nat (Z.log2 m)) m in
    let digits := pretty v in
    let n := Z.of_nat (String.length digits) in
    if bool_decide (n ≤ 21) then digits
    else
      match pretty (strip_zeros (String.length digits) v) with
      | String d EmptyString =>
          String d EmptyString +:+ "e+" +:+ pretty (n - 1)
      | String d rest =>
          String d EmptyString +:+ "." +:+ rest +:+ "e+" +:+ pretty (n - 1)
      | EmptyString => EmptyString
      end.

Definition show_number (x : Num) : string :=
  match x with
  | Finite z =>
      if bool_decide (z < 0) then "-" +:+ show_positive (- z)
      else show_positive z
  | Infinity negative => if negative then "-Infinity" else "Infinity"
  end.

(* ===================================================================== *)
(** * The world the engine runs in *)
(* ===================================================================== *)

(** Effects that leave the store, in the order they happen. *)
Inductive Event :=
  | EFetch (endpoint : string) (cursor : option string)
  | ESleep (ms : Num)
  | ENotify (title message : string)
  | EProgress (fetched estimated : Z).

Record World := {
  storefronts : gmap string Storefront;
  products : gmap string Product;
  backup_cursors : gmap string BackupCursor;
  logs : list LogEntry;
  events : list Event;
  ticks : nat;                    (* clock readings made so far *)
  requests : nat;                 (* storage requests made so far *)
}.

Definition empty_world : World :=
  {| storefronts := ∅; products := ∅; backup_cursors := ∅; logs := [];
     events := []; ticks := 0%nat; requests := 0%nat |}.

Definition M (A : Type) : Type := World → Completion A * World.

Definition ret {A} (a : A) : M A := λ w, (Normal a, w).

Definition bind {A B} (m : M A) (k : A → M B) : M B :=
  λ w, match m w with
       | (Normal a, w') => k a w'
       | (Thrown e, w') => (Thrown e, w')
       end.

Definition throw {A} (e : JsError) : M A := λ w, (Thrown e, w).

(** [try { m } catch (error) { h error }] *)
Definition try_catch {A} (m : M A) (h : JsError → M A) : M A :=
  λ w, match m w with
       | (Normal a, w') => (Normal a, w')
       | (Thrown e, w') => h e w'
       end.

Notation "'let!' x ':=' m 'in' k" := (bind m (λ x, k))
  (at level 10, x name, m at level 100, k at level 200).
Notation "'do!' m 'in' k" := (bind m (λ _, k))
  (at level 10, m at level 100, k at level 200).

(** [for (const x of xs) { ... }] / [xs.map(f)] with an effectful body. *)
Fixpoint mapM {A B} (f : A → M B) (xs : list A) : M (list B) :=
  match xs with
  | [] => ret []
  | x :: rest => let! y := f x in let! ys := mapM f rest in ret (y :: ys)
  end.

Definition emit (ev : Event) : M unit :=
  λ w, (Normal tt,
        {| storefronts := storefronts w; products := products w;
           backup_cursors := backup_cursors w; logs := logs w;
           events := events w ++ [ev]; ticks := ticks w;
           requests := requests w |}).

(** [delay(ms)] *)
Definition delay (ms : Num) : M unit := emit (ESleep ms).

(** [notify(title, message)] *)
Definition notify (title message : string) : M unit :=
  emit (ENotify title message).

Definition tick (w : World) : World :=
  {| storefronts := storefronts w; products := products w;
     backup_cursors := backup_cursors w; logs := logs w;
     events := events w; ticks := S (ticks w); requests := requests w |}.

Definition count_request (w : World) : World :=
  {| storefronts := storefronts w; products := products w;
     backup_cursors := backup_cursors w; logs := logs w;
     events := events w; ticks := ticks w; requests := S (requests w) |}.

Definition set_storefronts (m : gmap string Storefront) (w : World) : World :=
  {| storefronts := m; products := products w;
     backup_cursors := backup_cursors w; logs := logs w;
     events := events w; ticks := ticks w; requests := requests w |}.

Definition set_products (m : gmap string Product) (w : World) : World :=
  {| storefronts := storefronts w; products := m;
     backup_cursors := backup_cursors w; logs := logs w;
     events := events w; ticks := ticks w; requests := requests w |}.

Definition set_backup_cursors (m : gmap string BackupCursor) (w : World) : World :=
  {| storefronts := storefronts w; products := products w;
     backup_cursors := m; logs := logs w;
     events := events w; ticks := ticks w; requests := requests w |}.

Definition set_logs (l : list LogEntry) (w : World) : World :=
  {| storefronts := storefronts w; products := products w;
     backup_cursors := backup_cursors w; logs := l;
     events := events w; ticks := ticks w; requests := requests w |}.

(* ===================================================================== *)
(** * Helpers standing for JavaScript built-ins *)
(* ===================================================================== *)

(** [s.split(sep)] for a one-character separator. *)
Fixpoint split_on (sep : ascii) (s : string) : list string :=
  match s with
  | EmptyString => [EmptyString]
  | String c rest =>
      if decide (c = sep) then EmptyString :: split_on sep rest
      else match split_on sep rest with
           | [] => [String c EmptyString]
           | part :: parts => String c part :: parts
           end
  end.

Definition is_js_space (c : ascii) : bool :=
  let n := nat_of_ascii c in
  bool_decide (n = 9 ∨ n = 10 ∨ n = 11 ∨ n = 12 ∨ n = 13 ∨ n = 32 ∨ n = 160)%nat.

Definition digit_value (c : ascii) : option Z :=
  let n := Z.of_nat (nat_of_ascii c) in
  if bool_decide (48 ≤ n ≤ 57) then Some (n - 48) else None.

Fixpoint skip_spaces (s : string) : string :=
  match s with
  | String c rest => if is_js_space c then skip_spaces rest else s
  | EmptyString => s
  end.

(** Value of the longest prefix of decimal digits, [None] when it is empty. *)
Fixpoint leading_digits (acc : option Z) (s : string) : option Z :=
  match s with
  | String c rest =>
      match digit_value c with
      | Some d => leading_digits (Some (10 * default 0 acc + d)) rest
      | None => acc
      end
  | EmptyString => acc
  end.

(** [parseInt(s, 10)]; [None] is [NaN].  The result is the double nearest
    to the integer that the sign and the digits denote. *)
Definition parseInt (s : string) : option Num :=
  to_double <$>
    match skip_spaces s with
    | String "-" rest => Z.opp <$> leading_digits None rest
    | String "+" rest => leading_digits None rest
    | t => leading_digits None t
    end.

(* ===================================================================== *)
(** * Engine inputs that come from outside *)
(* ===================================================================== *)

(** What one [fetch] does: settle with a transport status, a body
    ([None] when [resp.json()] fails) and the [Retry-After] header, or
    reject (no network). *)
Inductive FetchResult :=
  | Settled (status : Z) (json : option GqlResponse) (retryAfter : option string)
  | Rejected (e : JsError).

(** [pause()] and [cancel()] arriving from the message handler while a run is
    suspended at an [await]. *)
Inductive Control := CPause | CCancel.

(** One loop iteration as the outside world drives it: the outcome of the
    page request, of its retry (consulted only after a throttled first
    attempt), and the control calls that arrive while the iteration is
    suspended, which the loop can only notice at its next flag check. *)
Record Round := {
  attempt1 : FetchResult;
  attempt2 : FetchResult;
  signals : list Control;
}.

Record Response := {
  status : Z;
  body : GqlResponse;
  headers : option string;        (* headers.get('Retry-After') *)
}.

(** The fields of a [BackupEngine] instance; [onProgress] is observed
    through [EProgress]. *)
Record Engine := {
  storefrontId : string;
  paused : bool;
  cancelled : bool;
}.

(** Where a call of [run] stands when it stops being followed: the [return]
    it reached, the [catch] block it left through, or the request it is
    still awaiting when the script of rounds is used up. *)
Inductive Outcome :=
  | RunComplete (seenIds : gset string) (completedAt : string)
  | RunPaused
  | RunCancelled
  | StoppedThrottled
  | StoppedHttp (status : Z)
  | StoppedNoData
  | Absorbed (e : JsError)
  | InFlight.

Definition pause (e : Engine) : Engine :=
  {| storefrontId := storefrontId e; paused := true; cancelled := cancelled e |}.

Definition cancel (e : Engine) : Engine :=
  {| storefrontId := storefrontId e; paused := paused e; cancelled := true |}.

Definition deliver (cs : list Control) (e : Engine) : Engine :=
  foldl (λ e c, match c with CPause => pause e | CCancel => cancel e end) e cs.

Definition set_status (st : BackupStatus) (s : Storefront) : Storefront :=
  {| sf_id := sf_id s; sf_domain := sf_domain s;
     last_backup_at := last_backup_at s; backup_status := st;
     product_count := product_count s; size_bytes := size_bytes s;
     sf_created_at := sf_created_at s |}.

Definition set_removed_at (r : option string) (p : Product) : Product :=
  {| p_id := p_id p; p_storefront_id := p_storefront_id p;
     shopify_id := shopify_id p; p_title := p_title p; p_handle := p_handle p;
     description_html := description_html p; p_vendor := p_vendor p;
     product_type := product_type p; p_tags := p_tags p;
     p_images := p_images p; p_variants := p_variants p;
     p_created_at := p_created_at p; p_updated_at := p_updated_at p;
     sniffer_updated_at := sniffer_updated_at p; removed_at := r |}.

Definition set_sniffer_updated_at (t : string) (p : Product) : Product :=
  {| p_id := p_id p; p_storefront_id := p_storefront_id p;
     shopify_id := shopify_id p; p_title := p_title p; p_handle := p_handle p;
     description_html := description_html p; p_vendor := p_vendor p;
     product_type := product_type p; p_tags := p_tags p;
     p_images := p_images p; p_variants := p_variants p;
     p_created_at := p_created_at p; p_updated_at := p_updated_at p;
     sniffer_updated_at := t; removed_at := removed_at p |}.

(** [extractShopifyId] *)
Definition extractShopifyId (gid : string) : string :=
  List.last (split_on "/" gid) "".

(** The composite key [`${storefrontId}::${node.id}`]. *)
Definition product_key (sid source_id : string) : string :=
  sid +:+ "::" +:+ source_id.

Definition transformImage (img : GqlImageNode) : ProductImage :=
  {| url := gi_url img; alt := altText img;
     width := gi_width img; height := gi_height img |}.

(** What [fetchPage] returns for a settled request: [{ status, body,
    headers }], with [body = {}] when the body did not parse. *)
Definition response_of (st : Z) (json : option GqlResponse)
    (retryAfter : option string) : Response :=
  {| status := st;
     body := default {| data := None; errors := None |} json;
     headers := retryAfter |}.

(** [isThrottled] *)
Definition isThrottled (b : GqlResponse) : bool :=
  match errors b with
  | Some es => existsb (λ e, bool_decide (ge_code e = Some "THROTTLED")) es
  | None => false
  end.

Definition throttled (r : Response) : bool :=
  bool_decide (status r = 429) || isThrottled (body r).

(** [waitMs]: [Number.isFinite(retryAfter) ? retryAfter * 1000 : 2000] with
    [retryAfter = parseInt(response.headers.get('Retry-After') ?? '', 10)]. *)
Definition waitMs (r : Response) : Num :=
  match parseInt (default "" (headers r)) with
  | Some (Finite retryAfter) => to_double (retryAfter * 1000)
  | _ => Finite 2000
  end.

Definition endpoint (sid : string) : string :=
  "https://" +:+ sid +:+ "/api/2026-01/graphql.json".

Definition mark_removed (sid : string) (activeIds : gset string)
    (timestamp : string) (p : Product) : Product :=
  if bool_decide (p_storefront_id p = sid)
     && bool_decide (p_id p ∉ activeIds)
     && bool_decide (removed_at p = None)
  then set_removed_at (Some timestamp) p
  else p.

(** [countFromIndex] / [getAllFromIndex] on the [storefront_id] index. *)
Definition of_storefront (sid : string) (ps : gmap string Product)
    : gmap string Product :=
  filter (λ kv, p_storefront_id kv.2 = sid) ps.

Section Engine.

(** The reading of the system clock at its k-th consultation. *)
Variable time : nat → string.

(** Whether the k-th storage request fails, and with what. *)
Variable fault : nat → option JsError.

(** [new Blob([JSON.stringify(products)]).size] *)
Variable blob_size : gmap string Product → Z.

(** [new Date().toISOString()] *)
Definition now : M string := λ w, (Normal (time (ticks w)), tick w).

(** One request to the object stores.  A failing request changes nothing:
    every adapter function opens one transaction. *)
Definition request {A} (f : World → A * World) : M A :=
  λ w, match fault (requests w) with
       | Some e => (Thrown e, count_request w)
       | None => (Normal (f w).1, count_request (f w).2)
       end.

(** ** [src/db.ts] *)

Definition getStorefront (id : string) : M (option Storefront) :=
  request (λ w, (storefronts w !! id, w)).

Definition putStorefront (s : Storefront) : M unit :=
  request (λ w, (tt, set_storefronts (<[sf_id s := s]> (storefronts w)) w)).

Definition putProducts (ps : list Product) : M unit :=
  request (λ w, (tt, set_products
                       (foldl (λ m p, <[p_id p := p]> m) (products w) ps) w)).

Definition getProductCount (sid : string) : M Z :=
  request (λ w, (Z.of_nat (size (of_storefront sid (products w))), w)).

Definition markProductsRemoved (sid : string) (activeIds : gset string)
    (timestamp : string) : M unit :=
  request (λ w, (tt, set_products
                       (mark_removed sid activeIds timestamp <$> products w) w)).

Definition getBackupCursor (sid : string) : M (option BackupCursor) :=
  request (λ w, (backup_cursors w !! sid, w)).

Definition putBackupCursor (c : BackupCursor) : M unit :=
  request (λ w, (tt, set_backup_cursors
                       (<[bc_storefront_id c := c]> (backup_cursors w)) w)).

Definition deleteBackupCursor (sid : string) : M unit :=
  request (λ w, (tt, set_backup_cursors (delete sid (backup_cursors w)) w)).

Definition addLog (entry : LogEntry) : M unit :=
  request (λ w, (tt, set_logs (logs w ++ [entry]) w)).

Definition estimateStorefrontSize (sid : string) : M Z :=
  let! ps := request (λ w, (of_storefront sid (products w), w)) in
  ret (blob_size ps).

(** ** [transformProduct] *)

Definition transformVariant (v : GqlVariantNode) : M ProductVariant :=
  match selectedOptions v with
  | None => throw (TypeError "Cannot read properties of undefined (reading '0')")
  | Some opts =>
      ret {| pv_id := gv_id v; pv_title := gv_title v; pv_sku := gv_sku v;
             pv_price := amount (gv_price v);
             compare_at_price := amount <$> compareAtPrice v;
             inventory_policy := None;
             pv_weight := gv_weight v; weight_unit := weightUnit v;
             option1 := so_value <$> opts !! 0%nat;
             option2 := so_value <$> opts !! 1%nat;
             option3 := so_value <$> opts !! 2%nat |}
  end.

Definition transformProduct (sid : string) (node : GqlProductNode) : M Product :=
  let shopifyId := extractShopifyId (gp_id node) in
  let! images :=
    match gp_images node with
    | None => throw (TypeError "Cannot read properties of undefined (reading 'nodes')")
    | Some imgs => ret (map transformImage imgs)
    end in
  let! variants :=
    match gp_variants node with
    | None => throw (TypeError "Cannot read properties of undefined (reading 'nodes')")
    | Some vs => mapM transformVariant vs
    end in
  let! stamp := now in
  ret {| p_id := product_key sid (gp_id node);
         p_storefront_id := sid;
         shopify_id := shopifyId;
         p_title := gp_title node;
         p_handle := gp_handle node;
         description_html := descriptionHtml node;
         p_vendor := gp_vendor node;
         product_type := productType node;
         p_tags := gp_tags node;
         p_images := images;
         p_variants := variants;
         p_created_at := createdAt node;
         p_updated_at := updatedAt node;
         sniffer_updated_at := stamp;
         removed_at := None |}.

(** ** [BackupEngine] *)

(** [fetchPage]: the request leaves, then settles or rejects; a body that
    does not parse becomes [{}]. *)
Definition fetchPage (sid : string) (cursor : option string)
    (o : FetchResult) : M Response :=
  do! emit (EFetch (endpoint sid) cursor) in
  match o with
  | Rejected e => throw e
  | Settled st json retryAfter => ret (response_of st json retryAfter)
  end.

(** [markPartial] *)
Definition markPartial (sid : string) : M unit :=
  let! storefront := getStorefront sid in
  match storefront with
  | Some s => putStorefront (set_status Partial s)
  | None => ret tt
  end.

(** The recurring
    [await addLog({ storefront_id: sid, timestamp: new Date().toISOString(),
    level, message, detail })]. *)
Definition log (sid : string) (level : LogLevel) (message : string)
    (detail : option LogDetail) : M unit :=
  let! stamp := now in
  addLog {| log_storefront_id := sid; log_timestamp := stamp;
            log_level := level; log_message := message;
            log_detail := detail |}.

(** Steps 3b and 3c: the page request and, when it is throttled, the wait
    and the single retry.  [inl] is a [return] out of [run]. *)
Definition fetch_with_retry (sid : string) (cursor : BackupCursor)
    (r : Round) : M (Outcome + Response) :=
  let! response := fetchPage sid (bc_cursor cursor) (attempt1 r) in
  if throttled response then
    do! log sid warn
          ("Rate limited, retrying after " +:+ show_number (waitMs response)
             +:+ "ms")
          None in
    do! delay (waitMs response) in
    let! retry := fetchPage sid (bc_cursor cursor) (attempt2 r) in
    if throttled retry then
      do! log sid error "Rate limited on retry, stopping backup" None in
      do! markPartial sid in
      ret (inl StoppedThrottled)
    else ret (inr retry)
  else ret (inr response).

(** Steps 3d to 3j: status check, payload check, transform, upsert, seen
    ids, checkpoint, progress callback.  The result carries the advanced
    cursor, the grown set of seen ids and [hasNextPage]. *)
Definition apply_page (sid : string) (cursor : BackupCursor)
    (seenIds : gset string) (response : Response)
    : M (Outcome + BackupCursor * gset string * bool) :=
  if bool_decide (status response ≠ 200) then
    do! log sid error ("HTTP " +:+ pretty (status response) +:+ " from GraphQL API")
          (Some (DetailBody (body response))) in
    do! markPartial sid in
    do! notify "Backup failed"
          ("Backup stopped for " +:+ sid +:+ ": HTTP " +:+ pretty (status response)) in
    ret (inl (StoppedHttp (status response)))
  else
    match data (body response) with
    | None =>
        do! log sid error "GraphQL response missing data"
              (Some (DetailErrors (errors (body response)))) in
        do! markPartial sid in
        ret (inl StoppedNoData)
    | Some productsData =>
        let! ps := mapM (transformProduct sid) (nodes productsData) in
        do! putProducts ps in
        let seenIds' := seenIds ∪ list_to_set (map p_id ps) in
        let cursor' :=
          {| bc_storefront_id := bc_storefront_id cursor;
             bc_cursor := endCursor (pageInfo productsData);
             started_at := started_at cursor;
             products_fetched :=
               products_fetched cursor + Z.of_nat (length (nodes productsData));
             total_products := total_products cursor |} in
        do! putBackupCursor cursor' in
        do! emit (EProgress (products_fetched cursor')
                            (default 0 (total_products cursor'))) in
        ret (inr (cursor', seenIds', hasNextPage (pageInfo productsData)))
    end.

(** Step 4, after the loop.  The separator in the text of the completion
    notification is the three characters that the source has there. *)
Definition post_loop (storefront : Storefront) (e : Engine)
    (cursor : BackupCursor) (seenIds : gset string) : M Outcome :=
  let sid := storefrontId e in
  if cancelled e then
    do! markPartial sid in
    do! deleteBackupCursor sid in
    do! log sid info "Backup cancelled by user" None in
    ret RunCancelled
  else if paused e then
    do! putStorefront (set_status Paused storefront) in
    do! log sid info "Backup paused"
          (Some (DetailFetched (products_fetched cursor))) in
    ret RunPaused
  else
    let! completedAt := now in
    do! markProductsRemoved sid seenIds completedAt in
    let! productCount := getProductCount sid in
    let! sizeBytes := estimateStorefrontSize sid in
    do! putStorefront
          {| sf_id := sf_id storefront; sf_domain := sf_domain storefront;
             last_backup_at := Some completedAt; backup_status := Complete;
             product_count := productCount; size_bytes := sizeBytes;
             sf_created_at := sf_created_at storefront |} in
    do! deleteBackupCursor sid in
    do! addLog {| log_storefront_id := sid; log_timestamp := completedAt;
                  log_level := info; log_message := "Backup complete";
                  log_detail := Some (DetailComplete productCount sizeBytes) |} in
    do! notify "Backup complete"
          ("Backup complete: " +:+ sid +:+ " â€” " +:+ pretty productCount
             +:+ " products backed up.") in
    ret (RunComplete seenIds completedAt).

(** Step 3, [while (true)].  The flags are read at the top of an iteration;
    the control calls of a round take effect on the flags while the
    iteration is suspended and are seen at the next read: the top of the
    next iteration, or step 4 when the page was the last one.  When the
    rounds are used up the request is out and has not settled. *)
Fixpoint loop (storefront : Storefront) (e : Engine) (cursor : BackupCursor)
    (seenIds : gset string) (script : list Round) : M Outcome :=
  let sid := storefrontId e in
  if paused e || cancelled e then post_loop storefront e cursor seenIds
  else
    match script with
    | [] =>
        do! emit (EFetch (endpoint sid) (bc_cursor cursor)) in ret InFlight
    | r :: rest =>
        let! fetched := fetch_with_retry sid cursor r in
        match fetched with
        | inl out => ret out
        | inr response =>
            let! applied := apply_page sid cursor seenIds response in
            match applied with
            | inl out => ret out
            | inr (cursor', seenIds', more) =>
                let e' := deliver (signals r) e in
                if more : bool then
                  do! delay 500 in
                  loop storefront e' cursor' seenIds' rest
                else post_loop storefront e' cursor' seenIds'
            end
        end
    end.

(** Steps 1 and 2, then the loop: the [try] block of [run].  [pre] are the
    control calls that arrive before the first flag check. *)
Definition run_body (e : Engine) (pre : list Control) (script : list Round)
    : M Outcome :=
  let sid := storefrontId e in
  let! found := getStorefront sid in
  let! created := now in
  let storefront :=
    match found with
    | None =>
        {| sf_id := sid; sf_domain := sid; last_backup_at := None;
           backup_status := InProgress; product_count := 0; size_bytes := 0;
           sf_created_at := created |}
    | Some s => set_status InProgress s
    end in
  do! putStorefront storefront in
  let! stored := getBackupCursor sid in
  do! match stored with
      | Some c =>
          match bc_cursor c with
          | Some tok =>
              log sid info "Resuming backup from cursor"
                (Some (DetailResume tok (products_fetched c)))
          | None => ret tt
          end
      | None => ret tt
      end in
  let! cursor :=
    match stored with
    | Some c => ret c
    | None =>
        let! started := now in
        let c := {| bc_storefront_id := sid; bc_cursor := None;
                    started_at := started; products_fetched := 0;
                    total_products := None |} in
        do! putBackupCursor c in
        ret c
    end in
  loop storefront (deliver pre e) cursor ∅ script.

(** The [catch] block of [run]. *)
Definition on_error (sid : string) (err : JsError) : M Outcome :=
  if bool_decide (err_name err = "QuotaExceededError") then
    do! markPartial sid in
    do! notify "Backup stopped"
          ("Backup stopped: Storage quota exceeded for " +:+ sid
             +:+ ". Open the extension to review.") in
    do! log sid error "Storage quota exceeded" None in
    ret (Absorbed err)
  else
    do! markPartial sid in
    do! log sid error ("Unexpected error during backup: " +:+ err_message err) None in
    ret (Absorbed err).

(** [BackupEngine.run].  A [Thrown] result is a rejection of the promise
    that [run] returns. *)
Definition run (e : Engine) (pre : list Control) (script : list Round)
    : M Outcome :=
  try_catch (run_body e pre script) (on_error (storefrontId e)).

End Engine.

(* ===================================================================== *)
(** * Active backup tracking *)
(* ===================================================================== *)

(** A call of [run] that has been started and whose promise has not
    settled.  [releases] records whether the call site chained
    [.finally(() => activeBackups.delete(storefrontId))] to it. *)
Record Task := {
  task_engine : nat;
  task_storefront : string;
  releases : bool;
}.

(** The service worker's heap of [BackupEngine] instances (by address), the
    [activeBackups] map and the started calls of [run]. *)
Record Runtime := {
  engines : gmap nat Engine;
  next_engine : nat;
  activeBackups : gmap string nat;
  tasks : list Task;
}.

Definition empty_runtime : Runtime :=
  {| engines := ∅; next_engine := 0%nat; activeBackups := ∅; tasks := [] |}.

Definition unpause (e : Engine) : Engine :=
  {| storefrontId := storefrontId e; paused := false; cancelled := cancelled e |}.

Definition update_engine (f : Engine → Engine) (a : nat) (rt : Runtime) : Runtime :=
  {| engines := alter f a (engines rt); next_engine := next_engine rt;
     activeBackups := activeBackups rt; tasks := tasks rt |}.

Definition spawn (t : Task) (rt : Runtime) : Runtime :=
  {| engines := engines rt; next_engine := next_engine rt;
     activeBackups := activeBackups rt; tasks := tasks rt ++ [t] |}.

(** [engine.pause()] *)
Definition engine_pause (a : nat) (rt : Runtime) : Runtime :=
  update_engine pause a rt.

(** [engine.cancel()] *)
Definition engine_cancel (a : nat) (rt : Runtime) : Runtime :=
  update_engine cancel a rt.

(** [engine.resume()]: [this.paused = false; void this.run();] *)
Definition engine_resume (a : nat) (rt : Runtime) : Runtime :=
  match engines rt !! a with
  | Some e =>
      spawn {| task_engine := a; task_storefront := storefrontId e;
               releases := false |}
            (update_engine unpause a rt)
  | None => rt
  end.

(** [new BackupEngine(storefrontId, onProgress)], [activeBackups.set], and
    [void engine.run().finally(...)]: the body shared by [startBackup] and
    the [else] branch of [resumeBackup]. *)
Definition launch (sid : string) (rt : Runtime) : Runtime :=
  let a := next_engine rt in
  {| engines := <[a := {| storefrontId := sid; paused := false;
                          cancelled := false |}]> (engines rt);
     next_engine := S a;
     activeBackups := <[sid := a]> (activeBackups rt);
     tasks := tasks rt ++ [{| task_engine := a; task_storefront := sid;
                              releases := true |}] |}.

Definition startBackup (sid : string) (rt : Runtime) : Runtime :=
  launch sid rt.

Definition pauseBackup (sid : string) (rt : Runtime) : Runtime :=
  match activeBackups rt !! sid with
  | Some a => engine_pause a rt
  | None => rt
  end.

Definition resumeBackup (sid : string) (rt : Runtime) : Runtime :=
  match activeBackups rt !! sid with
  | Some a => engine_resume a rt
  | None => launch sid rt
  end.

Definition cancelBackup (sid : string) (rt : Runtime) : Runtime :=
  match activeBackups rt !! sid with
  | Some a => engine_cancel a rt
  | None => rt
  end.

(** The promise of the i-th started call settles; its [finally] callback,
    if it has one, runs. *)
Definition settle (i : nat) (rt : Runtime) : Runtime :=
  match tasks rt !! i with
  | Some t =>
      {| engines := engines rt; next_engine := next_engine rt;
         activeBackups :=
           if releases t then delete (task_storefront t) (activeBackups rt)
           else activeBackups rt;
         tasks := take i (tasks rt) ++ drop (S i) (tasks rt) |}
  | None => rt
  end.

(** The started calls of [run] that work on a storefront. *)
Definition loops_of (sid : string) (rt : Runtime) : list Task :=
  filter (λ t, task_storefront t = sid) (tasks rt).

(* ===================================================================== *)
(** * The rest of [src/db.ts] *)
(* ===================================================================== *)

(** [getAllFromIndex] on the [storefront_id] index of the logs: the
    entries of one storefront, by ascending [id], which is the order they
    were added in. *)
Definition logs_of (sid : string) (ls : list LogEntry) : list LogEntry :=
  filter (λ l, log_storefront_id l = sid) ls.

Section Storage.

Variable fault : nat → option JsError.

(** [Date.now()] at the k-th consultation of the clock, and
    [new Date(ms).toISOString()]. *)
Variable date_now : nat → Z.
Variable toISOString : Z → string.

(** [deleteStorefront]: one transaction over the four stores; the products
    and the logs go by their [storefront_id] index. *)
Definition deleteStorefront (id : string) : M unit :=
  request fault
    (λ w, (tt, {| storefronts := delete id (storefronts w);
                  products :=
                    filter (λ kv, p_storefront_id kv.2 ≠ id) (products w);
                  backup_cursors := delete id (backup_cursors w);
                  logs := filter (λ l, log_storefront_id l ≠ id) (logs w);
                  events := events w; ticks := ticks w;
                  requests := requests w |})).

Definition putProduct (p : Product) : M unit :=
  request fault (λ w, (tt, set_products (<[p_id p := p]> (products w)) w)).

(** [getProductsByStorefront]: the records under one key of the
    [storefront_id] index. *)
Definition getProductsByStorefront (sid : string) : M (gmap string Product) :=
  request fault (λ w, (of_storefront sid (products w), w)).

Definition getLogsByStorefront (sid : string) : M (list LogEntry) :=
  request fault (λ w, (logs_of sid (logs w), w)).

Definition getAllLogs : M (list LogEntry) :=
  request fault (λ w, (logs w, w)).

(** [clearLogs(storefrontId?)] *)
Definition clearLogs (storefrontId : option string) : M unit :=
  match storefrontId with
  | None => request fault (λ w, (tt, set_logs [] w))
  | Some sid =>
      request fault
        (λ w, (tt, set_logs (filter (λ l, log_storefront_id l ≠ sid) (logs w))
                     w))
  end.

(** [pruneOldLogs]: the cursor runs over
    [IDBKeyRange.upperBound(cutoff, true)] of the [timestamp] index, the
    keys strictly below the cutoff.  Index keys that are strings compare by
    code unit; timestamps are ISO strings, on which that is the order of
    their bytes. *)
Definition now_ms : M Z := λ w, (Normal (date_now (ticks w)), tick w).

Definition pruneOldLogs (daysOld : Z) : M Z :=
  let! t := now_ms in
  let cutoff := toISOString (t - daysOld * 24 * 60 * 60 * 1000) in
  request fault
    (λ w, (Z.of_nat (length (filter (λ l, String.ltb (log_timestamp l) cutoff)
                               (logs w))),
           set_logs (filter (λ l, ¬ String.ltb (log_timestamp l) cutoff)
                       (logs w)) w)).

End Storage.

(* ===================================================================== *)
(** * The products page *)
(* ===================================================================== *)

(** [str.replace(/c/g, by)] for a pattern of one literal character and a
    replacement without [$]. *)
Fixpoint replace_char (c : ascii) (replacement : string) (str : string)
    : string :=
  match str with
  | EmptyString => EmptyString
  | String d rest =>
      if decide (d = c) then replacement +:+ replace_char c replacement rest
      else String d (replace_char c replacement rest)
  end.

(** The double quote, code 34. *)
Definition dquote : ascii := Ascii false true false false false true false false.

(** [escapeAttr] *)
Definition escapeAttr (str : string) : string :=
  replace_char ">" "&gt;"
    (replace_char "<" "&lt;"
       (replace_char "'" "&#39;"
          (replace_char dquote "&quot;"
             (replace_char "&" "&amp;" str)))).

(** [formatRelativeTime], from the point where [diffMs] is known.  [None]
    is an [isoString] that is [null] or empty; [Some diffMs] is
    [Date.now() - new Date(isoString).getTime()] for a string that parses
    as a date.  [Math.floor(x / n)] of integers is their floor division. *)
Definition ago (n : Z) (unit : string) : string :=
  pretty n +:+ " " +:+ unit +:+ (if bool_decide (n = 1) then "" else "s")
    +:+ " ago".

Definition formatRelativeTime (diff : option Z) : string :=
  match diff with
  | None => "Never"
  | Some diffMs =>
      let diffSec := diffMs / 1000 in
      let diffMin := diffSec / 60 in
      let diffHour := diffMin / 60 in
      let diffDay := diffHour / 24 in
      if bool_decide (diffSec < 60) then "just now"
      else if bool_decide (diffMin < 60) then ago diffMin "minute"
      else if bool_decide (diffHour < 24) then ago diffHour "hour"
      else if bool_decide (diffDay < 30) then ago diffDay "day"
      else
        let diffMonth := diffDay / 30 in
        if bool_decide (diffMonth < 12) then ago diffMonth "month"
        else
          let diffYear := diffMonth / 12 in
          ago diffYear "year"
  end.

(** What [renderTable] computes for the pagination controls when the
    filtered list is not empty: the record is the part of the page that
    depends on [currentPage] and [pageSize]. *)
Record PageView (A : Type) := {
  view_currentPage : Z;            (* [currentPage], as it is left *)
  view_totalPages : Z;
  view_start : Z;
  view_end : Z;
  view_pageItems : list A;
  view_prev_disabled : bool;
  view_next_disabled : bool;
}.
Arguments view_currentPage {A} _.
Arguments view_totalPages {A} _.
Arguments view_start {A} _.
Arguments view_end {A} _.
Arguments view_pageItems {A} _.
Arguments view_prev_disabled {A} _.
Arguments view_next_disabled {A} _.

(** [Math.ceil(a / b)] for integers and a positive [b]. *)
Definition ceil_div (a b : Z) : Z := - ((- a) / b).

(** [xs.slice(from, to)] for [0 <= from]. *)
Definition slice {A} (from to : Z) (xs : list A) : list A :=
  take (Z.to_nat (to - from)) (drop (Z.to_nat from) xs).

(** [renderTable], from [sorted] on. *)
Definition renderTable {A} (sorted : list A) (pageSize currentPage : Z)
    : PageView A :=
  let len := Z.of_nat (length sorted) in
  let totalPages := ceil_div len pageSize in
  let currentPage :=
    if bool_decide (currentPage > totalPages) then totalPages
    else currentPage in
  let currentPage :=
    if bool_decide (currentPage < 1) then 1 else currentPage in
  let start := (currentPage - 1) * pageSize in
  {| view_currentPage := currentPage;
     view_totalPages := totalPages;
     view_start := start;
     view_end := Z.min (start + pageSize) len;
     view_pageItems := slice start (start + pageSize) sorted;
     view_prev_disabled := bool_decide (currentPage ≤ 1);
     view_next_disabled := bool_decide (currentPage >= totalPages) |}.

(* ===================================================================== *)
(** * Offline recovery, [src/lifecycle.ts] *)
(* ===================================================================== *)

Definition OFFLINE_ALARM_PREFIX : string := "offline-retry-".

(** The name of the alarm that [scheduleOfflineRetry] creates. *)
Definition scheduleOfflineRetry (storefrontId : string) : string :=
  OFFLINE_ALARM_PREFIX +:+ storefrontId.

(** [name.slice(n)] *)
Fixpoint slice_from (n : nat) (s : string) : string :=
  match n, s with
  | S n', String _ rest => slice_from n' rest
  | _, _ => s
  end.

(** The storefront an alarm is for, as the listener of
    [setupAlarmListener] reads it off the name; [None] when the listener
    returns at once. *)
Definition alarm_storefront (name : string) : option string :=
  if String.prefix OFFLINE_ALARM_PREFIX name
  then Some (slice_from (String.length OFFLINE_ALARM_PREFIX) name)
  else None.

(* ===================================================================== *)
(** * Notions used in the statements *)
(* ===================================================================== *)

(** Weakest precondition of a computation for a postcondition on normal
    return and one on a throw. *)
Definition wp {A} (m : M A) (Q : A → World → Prop)
    (E : JsError → World → Prop) (w : World) : Prop :=
  match m w with
  | (Normal a, w') => Q a w'
  | (Thrown e, w') => E e w'
  end.

Definition anything : JsError → World → Prop := λ _ _, True.

Definition nothing : JsError → World → Prop := λ _ _, False.

(** [E] holds wherever a storage request can fail. *)
Definition faults_meet (fault : nat → option JsError)
    (E : JsError → World → Prop) : Prop :=
  ∀ w e, fault (requests w) = Some e → E e (count_request w).

(** Every object store is keyed by its [keyPath]. *)
Definition keyed (w : World) : Prop :=
  map_Forall (λ k s, sf_id s = k) (storefronts w)
  ∧ map_Forall (λ k p, p_id p = k) (products w)
  ∧ map_Forall (λ k c, bc_storefront_id c = k) (backup_cursors w).

(** [cur] results from [before] by upserts of transformed records of
    storefront [sid], at exactly the keys in [seen]. *)
Definition upserted (sid : string) (before : gmap string Product)
    (seen : gset string) (cur : gmap string Product) : Prop :=
  ∀ k,
    (k ∈ seen →
       ∃ p, cur !! k = Some p ∧ p_id p = k ∧ p_storefront_id p = sid
            ∧ removed_at p = None)
    ∧ (k ∉ seen → cur !! k = before !! k).

(** [w'] differs from [w] at most in the number of clock readings. *)
Definition same_but_clock (w w' : World) : Prop :=
  storefronts w' = storefronts w ∧ products w' = products w
  ∧ backup_cursors w' = backup_cursors w ∧ logs w' = logs w
  ∧ events w' = events w ∧ requests w' = requests w.

(** What the transform fixes in the record it makes of [node]. *)
Definition transformed (sid : string) (node : GqlProductNode) (p : Product) : Prop :=
  p_id p = product_key sid (gp_id node) ∧ p_storefront_id p = sid
  ∧ removed_at p = None.

(** The [storefronts] store after [markPartial]. *)
Definition mark_partial_in (sid : string) (m : gmap string Storefront)
    : gmap string Storefront :=
  match m !! sid with
  | Some s => <[sf_id s := set_status Partial s]> m
  | None => m
  end.

(** The three stores that the statements about a run speak of. *)
Definition stores (w : World) :=
  (storefronts w, products w, backup_cursors w).

(** No position is stored for the storefront: a call of [run] begins the
    traversal at the first page instead of resuming one. *)
Definition starts_at_first_page (sid : string) (w : World) : Prop :=
  ∀ c, backup_cursors w !! sid = Some c → bc_cursor c = None.

(** The response an iteration goes on with, read off its round: the first
    attempt, or the retry after a throttled first attempt; none when a
    request rejects or both attempts are throttled. *)
Definition used_response (r : Round) : option Response :=
  match attempt1 r with
  | Rejected _ => None
  | Settled st1 json1 hint1 =>
      if throttled (response_of st1 json1 hint1) then
        match attempt2 r with
        | Rejected _ => None
        | Settled st2 json2 hint2 =>
            if throttled (response_of st2 json2 hint2) then None
            else Some (response_of st2 json2 hint2)
        end
      else Some (response_of st1 json1 hint1)
  end.

(** The page a response carries, if it is a success with a data payload. *)
Definition response_page (response : Response) : option GqlProductsData :=
  if bool_decide (status response = 200) then data (body response) else None.

(** The records of the pages of one traversal, read off the rounds: page
    after page while the flags are clear, the responses carry pages and the
    pages announce a next one. *)
Fixpoint traversed (e : Engine) (script : list Round) : list GqlProductNode :=
  if paused e || cancelled e then []
  else
    match script with
    | [] => []
    | r :: rest =>
        match used_response r ≫= response_page with
        | Some pd =>
            nodes pd ++
            (if hasNextPage (pageInfo pd)
             then traversed (deliver (signals r) e) rest
             else [])
        | None => []
        end
    end.

(** The call of [run] did not reach natural completion. *)
Definition stopped (out : Outcome) : Prop :=
  match out with
  | RunComplete _ _ => False
  | _ => True
  end.

(** The composite keys of a list of records. *)
Definition keys_of (sid : string) (ns : list GqlProductNode) : gset string :=
  list_to_set ((λ n, product_key sid (gp_id n)) <$> ns).

(** The ids of the entities of a storefront that are not soft-deleted. *)
Definition active_ids (sid : string) (ps : gmap string Product) : gset string :=
  dom (filter (λ kv, p_storefront_id kv.2 = sid ∧ removed_at kv.2 = None) ps).

Definition status_of (sid : string) (w : World) : option BackupStatus :=
  backup_status <$> storefronts w !! sid.

(** The consistency that the data model asks of [backup_status] and the
    presence of a cursor; a storefront without a record has never been
    backed up. *)
Definition status_matches_cursor (sid : string) (w : World) : Prop :=
  match status_of sid w with
  | Some InProgress | Some Paused => is_Some (backup_cursors w !! sid)
  | Some Complete | Some Partial | Some Never | None =>
      backup_cursors w !! sid = None
  end.

(** The product store [cur] that a failure leaves behind it in a call of
    [run] whose pages carry the keys [pages], [before] being the store when
    [run] was called: the upserts of some of the pages have been made and
    nothing else, or those of all of them and then the reconciliation (step
    4b). *)
Definition interrupted (sid : string) (before : gmap string Product)
    (pages : gset string) (cur : gmap string Product) : Prop :=
  (∃ seen, seen ⊆ pages ∧ upserted sid before seen cur)
  ∨ (∃ completedAt mid,
       upserted sid before pages mid
       ∧ cur = mark_removed sid pages completedAt <$> mid).

(** What holds of the stores when the [try] block of [run] returns, by the
    [return] it took; [before] is the product store when [run] was called. *)
Definition run_post (sid : string) (before : gmap string Product)
    (out : Outcome) (w' : World) : Prop :=
  match out with
  | RunComplete seen completedAt =>
      (∃ mid, upserted sid before seen mid
              ∧ products w' = mark_removed sid seen completedAt <$> mid)
      ∧ (∃ s, storefronts w' !! sid = Some s ∧ backup_status s = Complete
              ∧ last_backup_at s = Some completedAt)
      ∧ backup_cursors w' !! sid = None
  | RunPaused =>
      (∃ seen, upserted sid before seen (products w'))
      ∧ status_of sid w' = Some Paused
      ∧ is_Some (backup_cursors w' !! sid)
  | RunCancelled =>
      (∃ seen, upserted sid before seen (products w'))
      ∧ status_of sid w' = Some Partial
      ∧ backup_cursors w' !! sid = None
  | StoppedThrottled | StoppedHttp _ | StoppedNoData =>
      (∃ seen, upserted sid before seen (products w'))
      ∧ status_of sid w' = Some Partial
      ∧ is_Some (backup_cursors w' !! sid)
  | InFlight =>
      (∃ seen, upserted sid before seen (products w'))
      ∧ status_of sid w' = Some InProgress
      ∧ is_Some (backup_cursors w' !! sid)
  | Absorbed _ => False
  end.

(** What the loop relies on: the local copies carry the storefront id, the
    storefront is recorded [in-progress] and a cursor is stored. *)
Definition loop_pre (sid : string) (storefront : Storefront)
    (cursor : BackupCursor) (w : World) : Prop :=
  sf_id storefront = sid ∧ bc_storefront_id cursor = sid
  ∧ (∃ s, storefronts w !! sid = Some s ∧ sf_id s = sid
          ∧ backup_status s = InProgress)
  ∧ is_Some (backup_cursors w !! sid).

(** The log grows by entries of storefront [sid] only. *)
Definition logs_grow (sid : string) (w w' : World) : Prop :=
  ∃ new, logs w' = logs w ++ new
         ∧ Forall (λ l, log_storefront_id l = sid) new.

(** A page request goes to the endpoint of storefront [sid]. *)
Definition own_event (sid : string) (ev : Event) : Prop :=
  match ev with
  | EFetch url _ => url = endpoint sid
  | _ => True
  end.

(** The effects grow by effects of a run on [sid] only. *)
Definition events_grow (sid : string) (w w' : World) : Prop :=
  ∃ new, events w' = events w ++ new ∧ Forall (own_event sid) new.

(** How a computation on storefront [sid] may change the world: the stores
    stay keyed, no product is dropped, logs and effects are only appended,
    the entries appended to the log are entries of [sid] and the page
    requests made go to the endpoint of [sid], the records of other
    storefronts and their cursors stay as they are, and so do the products
    of other storefronts stored under keys that are not composite keys of
    [sid]. *)
Definition evolves (sid : string) (w w' : World) : Prop :=
  keyed w'
  ∧ dom (products w) ⊆ dom (products w')
  ∧ logs_grow sid w w'
  ∧ events_grow sid w w'
  ∧ (∀ other, other ≠ sid →
       storefronts w' !! other = storefronts w !! other
       ∧ backup_cursors w' !! other = backup_cursors w !! other)
  ∧ (∀ k p, products w !! k = Some p → p_storefront_id p ≠ sid →
            (∀ x, k ≠ product_key sid x) → products w' !! k = Some p).

(** [m], started in [w], ends in a world related to [w] by [R] whether it
    returns or throws, and a returned value satisfies [P]. *)
Definition moves (R : World → World → Prop) {A} (m : M A)
    (P : A → World → Prop) (w : World) : Prop :=
  wp m (λ a w', R w w' ∧ P a w') (λ _ w', R w w') w.

(** The checkpoint after a page has been applied: the position moves to the
    end of the page and the count grows by its records (step 3i). *)
Definition advance (pd : GqlProductsData) (c : BackupCursor) : BackupCursor :=
  {| bc_storefront_id := bc_storefront_id c;
     bc_cursor := endCursor (pageInfo pd);
     started_at := started_at c;
     products_fetched := products_fetched c + Z.of_nat (length (nodes pd));
     total_products := total_products c |}.

(** The pages of one traversal, read off the rounds as [traversed] reads
    their records. *)
Fixpoint applied_pages (e : Engine) (script : list Round)
    : list GqlProductsData :=
  if paused e || cancelled e then []
  else
    match script with
    | [] => []
    | r :: rest =>
        match used_response r ≫= response_page with
        | Some pd =>
            pd :: (if hasNextPage (pageInfo pd)
                   then applied_pages (deliver (signals r) e) rest
                   else [])
        | None => []
        end
    end.

Definition checkpoint (c : BackupCursor) (pages : list GqlProductsData)
    : BackupCursor :=
  foldl (λ c pd, advance pd c) c pages.

(** The checkpoint a call of [run] starts from: the stored one, or a fresh
    one at the first page, stamped with the second clock reading of the
    call. *)
Definition start_cursor (time : nat → string) (sid : string) (w : World)
    : BackupCursor :=
  default {| bc_storefront_id := sid; bc_cursor := None;
             started_at := time (S (ticks w)); products_fetched := 0;
             total_products := None |}
          (backup_cursors w !! sid).

(** The call returned and left a checkpoint behind. *)
Definition resumable (out : Outcome) : Prop :=
  match out with
  | RunPaused | StoppedThrottled | StoppedHttp _ | StoppedNoData
  | InFlight => True
  | _ => False
  end.

(** Whether a character occurs in a string. *)
Fixpoint has_char (c : ascii) (s : string) : bool :=
  match s with
  | EmptyString => false
  | String d rest => bool_decide (d = c) || has_char c rest
  end.

(** One character of an attribute value, escaped. *)
Definition escape_char (c : ascii) : string :=
  if decide (c = "&"%char) then "&amp;"
  else if decide (c = dquote) then "&quot;"
  else if decide (c = "'"%char) then "&#39;"
  else if decide (c = "<"%char) then "&lt;"
  else if decide (c = ">"%char) then "&gt;"
  else String c EmptyString.

(** A string escaped character by character, in one pass. *)
Fixpoint escape_each (s : string) : string :=
  match s with
  | EmptyString => EmptyString
  | String c rest => escape_char c +:+ escape_each rest
  end.

(** The checkpoints that a traversal stores, page after page. *)
Fixpoint checkpoints (c : BackupCursor) (pages : list GqlProductsData)
    : list BackupCursor :=
  match pages with
  | [] => []
  | pd :: rest => advance pd c :: checkpoints (advance pd c) rest
  end.

(** The arguments of the progress callback for a checkpoint (step 3j). *)
Definition reported (c : BackupCursor) : Z * Z :=
  (products_fetched c, default 0 (total_products c)).

(** The notifications among the effects, in order. *)
Definition notifications (evs : list Event) : list (string * string) :=
  omap (λ ev, match ev with
              | ENotify title message => Some (title, message)
              | _ => None
              end) evs.

(** What a call that returns [out] from its [try] block has added to the
    notifications: one on completion, one on an HTTP error, none
    otherwise. *)
Definition notified (out : Outcome) (before after : list Event) : Prop :=
  match out with
  | RunComplete _ _ =>
      ∃ message, notifications after
                 = notifications before ++ [("Backup complete", message)]
  | StoppedHttp _ =>
      ∃ message, notifications after
                 = notifications before ++ [("Backup failed", message)]
  | _ => notifications after = notifications before
  end.

(* ===================================================================== *)
(** * Concrete inputs *)
(* ===================================================================== *)

Definition clock0 (k : nat) : string := "T" +:+ pretty k.

Definition no_fault (k : nat) : option JsError := None.

Definition fault_at (n : nat) (e : JsError) (k : nat) : option JsError :=
  if bool_decide (k = n) then Some e else None.

Definition size0 (ps : gmap string Product) : Z := 100 * Z.of_nat (size ps).

Definition QuotaExceeded : JsError :=
  {| err_name := "QuotaExceededError"; err_message := "The quota has been exceeded." |}.

Definition shop : string := "shop.myshopify.com".

Definition shop_engine : Engine :=
  {| storefrontId := shop; paused := false; cancelled := false |}.

Definition sample_variant : GqlVariantNode :=
  {| gv_id := "gid://shopify/ProductVariant/7"; gv_title := "Default";
     gv_sku := "SKU-7"; gv_price := {| amount := "19.99"; currencyCode := "USD" |};
     compareAtPrice := None; gv_weight := None; weightUnit := None;
     selectedOptions := Some [{| so_name := "Size"; so_value := "M" |}] |}.

Definition sample_image : GqlImageNode :=
  {| gi_url := "https://cdn.example/p.png"; altText := None;
     gi_width := "640"; gi_height := "480" |}.

Definition sample_node (n : string) : GqlProductNode :=
  {| gp_id := "gid://shopify/Product/" +:+ n; gp_title := "Product " +:+ n;
     gp_handle := "product-" +:+ n; descriptionHtml := ""; gp_vendor := "Acme";
     productType := "Thing"; gp_tags := []; createdAt := "2025-01-01";
     updatedAt := "2025-01-02";
     gp_images := Some [sample_image]; gp_variants := Some [sample_variant] |}.

(** A record whose [images] collection is absent. *)
Definition node_without_images : GqlProductNode :=
  {| gp_id := "gid://shopify/Product/1"; gp_title := "Product 1";
     gp_handle := "product-1"; descriptionHtml := ""; gp_vendor := "Acme";
     productType := "Thing"; gp_tags := []; createdAt := "2025-01-01";
     updatedAt := "2025-01-02";
     gp_images := None; gp_variants := Some [sample_variant] |}.

Definition page_of (ns : list string) (more : bool) (token : option string)
    : GqlResponse :=
  {| data := Some {| pageInfo := {| hasNextPage := more; endCursor := token |};
                     nodes := map sample_node ns |};
     errors := None |}.

Definition ok_round (ns : list string) (more : bool) (token : option string)
    (cs : list Control) : Round :=
  {| attempt1 := Settled 200 (Some (page_of ns more token)) None;
     attempt2 := Rejected (TypeError "Failed to fetch");
     signals := cs |}.

Definition throttled_body : GqlResponse :=
  {| data := None;
     errors := Some [{| ge_message := "Throttled"; ge_code := Some "THROTTLED" |}] |}.

(** A product as an earlier backup stored it. *)
Definition stored_product (n : string) (removed : option string) : Product :=
  {| p_id := product_key shop ("gid://shopify/Product/" +:+ n);
     p_storefront_id := shop; shopify_id := n; p_title := "Product " +:+ n;
     p_handle := "product-" +:+ n; description_html := ""; p_vendor := "Acme";
     product_type := "Thing"; p_tags := []; p_images := []; p_variants := [];
     p_created_at := "2025-01-01"; p_updated_at := "2025-01-02";
     sniffer_updated_at := "2025-02-01"; removed_at := removed |}.

Definition with_products (ps : list Product) : World :=
  set_products (foldl (λ m p, <[p_id p := p]> m) ∅ ps) empty_world.

Definition key_of (n : string) : string :=
  product_key shop ("gid://shopify/Product/" +:+ n).

(** The store after an earlier backup of three products. *)
Definition catalog_abc : World :=
  with_products [stored_product "A" None; stored_product "B" None;
                 stored_product "C" None].

(** The catalog now has one page, with A and B only. *)
Definition incremental_rounds : list Round :=
  [ok_round ["A"; "B"] false (Some "c1") []].

(** The store holds A, soft-deleted by an earlier backup. *)
Definition removed_before : World :=
  with_products [stored_product "A" (Some "2025-03-01")].

(** A first page with A on it and more to come; [pause()] is called while
    the page is being applied. *)
Definition paused_rounds : list Round :=
  [ok_round ["A"] true (Some "c1") [CPause]].

(** The first page request is answered with status 500. *)
Definition failing_rounds : list Round :=
  [{| attempt1 := Settled 500 None None;
      attempt2 := Rejected (TypeError "Failed to fetch");
      signals := [] |}].

(** Status 429 with [Retry-After: 3], then a [THROTTLED] payload. *)
Definition throttled_round : Round :=
  {| attempt1 := Settled 429 None (Some "3");
     attempt2 := Settled 200 (Some throttled_body) None;
     signals := [] |}.

(** The same with a hint of 2^53 + 1 seconds. *)
Definition long_hint_round : Round :=
  {| attempt1 := Settled 429 None (Some "9007199254740993");
     attempt2 := Settled 200 (Some throttled_body) None;
     signals := [] |}.

(** Three pages of two records each. *)
Definition three_pages : list Round :=
  [ok_round ["1"; "2"] true (Some "c1") [];
   ok_round ["3"; "4"] true (Some "c2") [];
   ok_round ["5"; "6"] false (Some "c3") []].

Definition shop_record : Storefront :=
  {| sf_id := shop; sf_domain := shop; last_backup_at := None;
     backup_status := InProgress; product_count := 0; size_bytes := 0;
     sf_created_at := "T0" |}.

Definition fresh_cursor : BackupCursor :=
  {| bc_storefront_id := shop; bc_cursor := None; started_at := "T1";
     products_fetched := 0; total_products := None |}.

(** The store as steps 1 and 2 of a fresh run leave it. *)
Definition started_world : World :=
  set_backup_cursors {[shop := fresh_cursor]}
    (set_storefronts {[shop := shop_record]} empty_world).

(** A catalog of two pages, A then B; [pause()] arrives while the first
    page is applied, and a second call of [run] resumes at the second. *)
Definition first_page_then_pause : list Round :=
  [ok_round ["A"] true (Some "c1") [CPause]].

Definition second_page : list Round :=
  [ok_round ["B"] false (Some "c2") []].

(** The arguments of the progress callback, call by call. *)
Definition progress_calls (evs : list Event) : list (Z * Z) :=
  omap (λ ev, match ev with
              | EProgress fetched estimated => Some (fetched, estimated)
              | _ => None
              end) evs.

(** A second storefront with a record, a checkpoint and a product of its
    own, next to the catalog of [shop]. *)
Definition other_shop : string := "other.myshopify.com".

Definition other_product : Product :=
  {| p_id := product_key other_shop "gid://shopify/Product/Z";
     p_storefront_id := other_shop; shopify_id := "Z"; p_title := "Product Z";
     p_handle := "product-z"; description_html := ""; p_vendor := "Acme";
     product_type := "Thing"; p_tags := []; p_images := []; p_variants := [];
     p_created_at := "2025-01-01"; p_updated_at := "2025-01-02";
     sniffer_updated_at := "2025-02-01"; removed_at := None |}.

Definition two_shops : World :=
  set_backup_cursors
    {[other_shop := {| bc_storefront_id := other_shop; bc_cursor := Some "z1";
                       started_at := "2025-02-01"; products_fetched := 1;
                       total_products := None |}]}
    (set_storefronts
       {[other_shop := {| sf_id := other_shop; sf_domain := other_shop;
                          last_backup_at := None; backup_status := Paused;
                          product_count := 0; size_bytes := 0;
                          sf_created_at := "2025-02-01" |}]}
       (set_products (<[p_id other_product := other_product]>
                        (products catalog_abc))
          empty_world)).

(** The store after the first call of [first_page_then_pause]: the
    checkpoint is at [c1]. *)
Definition paused_world : World :=
  (run clock0 no_fault size0 shop_engine [] first_page_then_pause
     empty_world).2.

(** A clock in milliseconds that agrees with [clock0]: its k-th reading is
    k, printed as [Tk]. *)
Definition ms_clock (k : nat) : Z := Z.of_nat k.

Definition stamp (ms : Z) : string := "T" +:+ pretty ms.

(** The store after a fresh run that was stopped by status 500: one log
    entry, stamped [T2]. *)
Definition failed_world : World :=
  (run clock0 no_fault size0 shop_engine [] failing_rounds empty_world).2.

(* ===================================================================== *)
(** * The monad and its specifications *)
(* ===================================================================== *)

Lemma wp_ret {A} (a : A) Q E w : Q a w → wp (ret a) Q E w.
Proof. done. Qed.

Lemma wp_throw {A} (e : JsError) (Q : A → World → Prop) E w :
  E e w → wp (throw e) Q E w.
Proof. done. Qed.

Lemma wp_bind {A B} (m : M A) (k : A → M B) Q E w :
  wp m (λ a w', wp (k a) Q E w') E w → wp (bind m k) Q E w.
Proof. unfold wp, bind. by destruct (m w) as [[a|e] w']. Qed.

Lemma wp_conseq {A} (m : M A) (Q Q' : A → World → Prop) E w :
  wp m Q E w → (∀ a w', Q a w' → Q' a w') → wp m Q' E w.
Proof. unfold wp. destruct (m w) as [[a|e] w']; auto. Qed.

Lemma wp_mono {A} (m : M A) (Q Q' : A → World → Prop)
    (E E' : JsError → World → Prop) w :
  wp m Q E w → (∀ a w', Q a w' → Q' a w') → (∀ e w', E e w' → E' e w') →
  wp m Q' E' w.
Proof. unfold wp. destruct (m w) as [[a|e] w']; auto. Qed.

Lemma wp_returns {A} (m : M A) Q E w a w' :
  wp m Q E w → m w = (Normal a, w') → Q a w'.
Proof. unfold wp. intros H Hm. by rewrite Hm in H. Qed.

Lemma wp_emit ev (Q : unit → World → Prop) E w :
  Q tt (emit ev w).2 → wp (emit ev) Q E w.
Proof. done. Qed.

Ltac wp_step :=
  lazymatch goal with
  | |- wp (bind _ _) _ _ _ => apply wp_bind
  | |- wp (ret _) _ _ _ => apply wp_ret; cbv beta match
  | |- wp (throw _) _ anything _ => apply wp_throw; exact I
  | |- wp (emit _) _ _ _ => apply wp_emit
  | |- wp (delay _) _ _ _ => apply wp_emit
  | |- wp (notify _ _) _ _ _ => apply wp_emit
  end.

Section Specs.

Variable time : nat → string.
Variable fault : nat → option JsError.
Variable blob_size : gmap string Product → Z.

Lemma wp_now (Q : string → World → Prop) E w :
  Q (time (ticks w)) (tick w) → wp (now time) Q E w.
Proof. done. Qed.

Lemma wp_request {A} (f : World → A * World) Q E w :
  (∀ e, fault (requests w) = Some e → E e (count_request w)) →
  (fault (requests w) = None → Q (f w).1 (count_request (f w).2)) →
  wp (request fault f) Q E w.
Proof.
  unfold wp, request. intros Hthrow Hok.
  destruct (fault (requests w)) as [e|]; auto.
Qed.

(** ** The transform *)

Lemma transformVariant_world v w r w' :
  transformVariant v w = (r, w') → w' = w.
Proof.
  unfold transformVariant. destruct (selectedOptions v); cbv [ret throw];
    congruence.
Qed.

Lemma transformVariant_pure v w1 w2 :
  (transformVariant v w1).1 = (transformVariant v w2).1.
Proof. unfold transformVariant. by destruct (selectedOptions v). Qed.

Lemma mapM_transformVariant_world vs : ∀ w r w',
  mapM transformVariant vs w = (r, w') → w' = w.
Proof.
  induction vs as [|v vs IH]; intros w r w'; simpl.
  - cbv [ret]. congruence.
  - unfold bind at 1. destruct (transformVariant v w) as [[pv|e] w1] eqn:Hv.
    + apply transformVariant_world in Hv as ->.
      unfold bind. destruct (mapM transformVariant vs w) as [[pvs|e] w2] eqn:Hvs.
      * apply IH in Hvs as ->. cbv [ret]. congruence.
      * apply IH in Hvs as ->. congruence.
    + apply transformVariant_world in Hv as ->. congruence.
Qed.

Lemma mapM_transformVariant_pure vs w1 w2 :
  (mapM transformVariant vs w1).1 = (mapM transformVariant vs w2).1.
Proof.
  revert w1 w2. induction vs as [|v vs IH]; intros w1 w2; simpl; [done|].
  unfold bind at 1 3.
  pose proof (transformVariant_pure v w1 w2) as Hv.
  destruct (transformVariant v w1) as [r1 u1] eqn:H1.
  destruct (transformVariant v w2) as [r2 u2] eqn:H2.
  apply transformVariant_world in H1 as ->.
  apply transformVariant_world in H2 as ->.
  simpl in Hv. subst r2. destruct r1 as [pv|e]; [|done].
  unfold bind. specialize (IH w1 w2).
  destruct (mapM transformVariant vs w1) as [q1 u1] eqn:H1.
  destruct (mapM transformVariant vs w2) as [q2 u2] eqn:H2.
  simpl in IH. subst q2. by destruct q1.
Qed.

(** What [transformProduct] returns is fixed by its arguments and one
    reading of the clock, and reading the clock is all it does. *)
Lemma transformProduct_shape sid node w :
  (∃ p, transformProduct time sid node w = (Normal p, tick w)
        ∧ sniffer_updated_at p = time (ticks w)
        ∧ transformed sid node p)
  ∨ (∃ e, transformProduct time sid node w = (Thrown e, w)).
Proof.
  unfold transformProduct.
  destruct (gp_images node) as [imgs|]; [|right; by eexists].
  destruct (gp_variants node) as [vs|]; [|right; by eexists].
  cbv [bind ret now].
  destruct (mapM transformVariant vs w) as [[pvs|e] w1] eqn:Hvs;
    apply mapM_transformVariant_world in Hvs as Hw; subst w1.
  - left. eexists. split; [reflexivity|]. done.
  - right. by eexists.
Qed.

Lemma same_but_clock_refl w : same_but_clock w w.
Proof. by repeat split. Qed.

Lemma mapM_transformProduct_spec sid ns : ∀ w,
  wp (mapM (transformProduct time sid) ns)
     (λ ps w', Forall2 (transformed sid) ns ps ∧ same_but_clock w w')
     anything w.
Proof.
  induction ns as [|n ns IH]; intros w; simpl.
  - apply wp_ret. split; [constructor | apply same_but_clock_refl].
  - apply wp_bind. unfold wp at 1.
    destruct (transformProduct_shape sid n w) as [(p & -> & _ & Hp)|[e ->]];
      [|done].
    apply wp_bind. eapply wp_conseq; [apply IH|].
    intros ps w' [Hps Hw']. apply wp_ret. split; [by constructor|].
    destruct Hw' as (?&?&?&?&?&?). by repeat split.
Qed.

(** ** The upsert of a page *)

Lemma lookup_put_all (ps : list Product) : ∀ (m : gmap string Product) k,
  (k ∉ map p_id ps → foldl (λ m p, <[p_id p := p]> m) m ps !! k = m !! k)
  ∧ (k ∈ map p_id ps →
       ∃ p, p ∈ ps ∧ p_id p = k
            ∧ foldl (λ m p, <[p_id p := p]> m) m ps !! k = Some p).
Proof.
  induction ps as [|p ps IH]; intros m k; simpl.
  - split; [done|]. by intros ?%elem_of_nil.
  - destruct (IH (<[p_id p := p]> m) k) as [IHout IHin]. split.
    + intros Hk. apply not_elem_of_cons in Hk as [Hne Hk].
      rewrite IHout by done. by apply lookup_insert_ne.
    + intros Hk. destruct (decide (k ∈ map p_id ps)) as [Hin|Hout].
      * destruct (IHin Hin) as (q & Hq & Hid & Hlk).
        exists q. split; [by right|done].
      * apply elem_of_cons in Hk as [->|Hk]; [|done].
        exists p. split; [by left|]. split; [done|].
        rewrite IHout by done. apply lookup_insert_eq.
Qed.

Lemma Forall2_transformed_ids sid ns ps :
  Forall2 (transformed sid) ns ps →
  map p_id ps = map (λ n, product_key sid (gp_id n)) ns
  ∧ Forall (λ p, p_storefront_id p = sid ∧ removed_at p = None) ps.
Proof.
  induction 1 as [|n p ns ps (Hid & Hsid & Hrem) _ [IHid IHall]]; simpl.
  - by split.
  - split; [by rewrite Hid, IHid | by constructor].
Qed.

(** After the upsert of a transformed page every record of the page is in
    the store under its composite key, not soft-deleted. *)
Lemma put_transformed_lookup sid ns ps (m : gmap string Product) node :
  Forall2 (transformed sid) ns ps → node ∈ ns →
  ∃ p, foldl (λ m p, <[p_id p := p]> m) m ps
         !! product_key sid (gp_id node) = Some p
       ∧ p_id p = product_key sid (gp_id node)
       ∧ p_storefront_id p = sid ∧ removed_at p = None.
Proof.
  intros Hps Hnode.
  destruct (Forall2_transformed_ids _ _ _ Hps) as [Hids Hall].
  destruct (lookup_put_all ps m (product_key sid (gp_id node))) as [_ Hin].
  destruct Hin as (p & Hp & Hid & Hlk).
  - rewrite Hids. apply list_elem_of_fmap. by exists node.
  - exists p. rewrite Forall_forall in Hall. destruct (Hall p Hp). done.
Qed.

(** ** Specifications of the adapter and of the engine's steps *)

Lemma faults_meet_anything : faults_meet fault anything.
Proof. by intros w e _. Qed.

Lemma faults_meet_nothing : (∀ k, fault k = None) → faults_meet fault nothing.
Proof. intros Hok w e He. by rewrite Hok in He. Qed.

Lemma wp_total {A} (m : M A) Q w :
  wp m Q nothing w → ∃ a w', m w = (Normal a, w') ∧ Q a w'.
Proof. unfold wp. destruct (m w) as [[a|e] w']; [by eauto | done]. Qed.

Lemma wp_total_value {A} (m : M A) (x : A) (P : World → Prop) w :
  wp m (λ a w', a = x ∧ P w') nothing w →
  ∃ w', m w = (Normal x, w') ∧ P w'.
Proof. intros (a & w' & -> & -> & HP)%wp_total. by exists w'. Qed.

Ltac wp_io :=
  first
    [ wp_step
    | lazymatch goal with
      | |- wp (request _ _) _ anything _ =>
          apply wp_request; [intros; exact I | intros _]
      | H : faults_meet _ ?E |- wp (request _ _) _ ?E _ =>
          apply wp_request; [intros; by apply H | intros _]
      | |- wp (now _) _ _ _ => apply wp_now
      end ].

Lemma markPartial_effect E sid w :
  faults_meet fault E →
  wp (markPartial fault sid)
     (λ _ w', storefronts w' = mark_partial_in sid (storefronts w)
              ∧ products w' = products w
              ∧ backup_cursors w' = backup_cursors w
              ∧ events w' = events w ∧ logs w' = logs w)
     E w.
Proof.
  intros HE.
  unfold markPartial, getStorefront, putStorefront, mark_partial_in.
  wp_io. wp_io. simpl.
  destruct (storefronts w !! sid) as [s|]; repeat wp_io; done.
Qed.

Lemma log_effect E sid level message detail w :
  faults_meet fault E →
  wp (log time fault sid level message detail)
     (λ _ w',
        stores w' = stores w ∧ events w' = events w
        ∧ logs w' = logs w ++ [{| log_storefront_id := sid;
                                  log_timestamp := time (ticks w);
                                  log_level := level;
                                  log_message := message;
                                  log_detail := detail |}])
     E w.
Proof. intros HE. unfold log, addLog. repeat wp_io. done. Qed.

Lemma fetchPage_settled E sid cursor st json hint w :
  wp (fetchPage sid cursor (Settled st json hint))
     (λ response w',
        response = response_of st json hint ∧ stores w' = stores w
        ∧ events w' = events w ++ [EFetch (endpoint sid) cursor]
        ∧ logs w' = logs w)
     E w.
Proof. unfold fetchPage. repeat wp_io. done. Qed.

Lemma markPartial_spec sid w :
  wp (markPartial fault sid)
     (λ _ w', storefronts w' = mark_partial_in sid (storefronts w)
              ∧ products w' = products w
              ∧ backup_cursors w' = backup_cursors w)
     anything w.
Proof.
  eapply wp_conseq; [apply markPartial_effect, faults_meet_anything|].
  by intros _ w' (?&?&?&_).
Qed.

Lemma log_spec sid level message detail w :
  wp (log time fault sid level message detail)
     (λ _ w', stores w' = stores w) anything w.
Proof.
  eapply wp_conseq; [apply log_effect, faults_meet_anything|].
  by intros _ w' (?&_).
Qed.

Lemma fetchPage_spec sid cursor o w :
  wp (fetchPage sid cursor o) (λ _ w', stores w' = stores w) anything w.
Proof. unfold fetchPage. wp_io. wp_io. destruct o; wp_io. done. Qed.

Ltac wp_apply lem :=
  repeat (lazymatch goal with |- wp (bind _ _) _ _ _ => apply wp_bind end);
  eapply wp_conseq; [apply lem | cbv beta].

Lemma stores_eq w w' :
  stores w' = stores w ↔
  storefronts w' = storefronts w ∧ products w' = products w
  ∧ backup_cursors w' = backup_cursors w.
Proof.
  unfold stores. split.
  - by intros [= -> -> ->].
  - by intros (-> & -> & ->).
Qed.

Lemma fetch_with_retry_spec sid cursor r w :
  wp (fetch_with_retry time fault sid cursor r)
     (λ res w',
        match res with
        | inl out =>
            out = StoppedThrottled
            ∧ storefronts w' = mark_partial_in sid (storefronts w)
            ∧ products w' = products w
            ∧ backup_cursors w' = backup_cursors w
        | inr _ => stores w' = stores w
        end)
     anything w.
Proof.
  unfold fetch_with_retry.
  wp_apply fetchPage_spec. intros response w1 H1.
  destruct (throttled response); [|by wp_io].
  wp_apply log_spec. intros _ w2 H2.
  wp_io. wp_io.
  wp_apply fetchPage_spec. intros retry w3 H3.
  destruct (throttled retry).
  - wp_apply log_spec. intros _ w4 H4.
    wp_apply markPartial_spec. intros _ w5 (H5s & H5p & H5c).
    wp_io.
    apply stores_eq in H1 as (?&?&?), H2 as (?&?&?), H3 as (?&?&?),
      H4 as (?&?&?).
    simpl in *. repeat split; congruence.
  - wp_io. rewrite H3. simpl. unfold stores in *. simpl. congruence.
Qed.

Lemma apply_page_spec sid cursor seenIds response w :
  wp (apply_page time fault sid cursor seenIds response)
     (λ res w',
        match res with
        | inl out =>
            (out = StoppedNoData ∨ ∃ st, out = StoppedHttp st)
            ∧ storefronts w' = mark_partial_in sid (storefronts w)
            ∧ products w' = products w
            ∧ backup_cursors w' = backup_cursors w
        | inr (cursor', seenIds', more) =>
            ∃ pd ps,
              data (body response) = Some pd
              ∧ Forall2 (transformed sid) (nodes pd) ps
              ∧ seenIds' = seenIds ∪ list_to_set (map p_id ps)
              ∧ more = hasNextPage (pageInfo pd)
              ∧ bc_storefront_id cursor' = bc_storefront_id cursor
              ∧ bc_cursor cursor' = endCursor (pageInfo pd)
              ∧ products_fetched cursor'
                = products_fetched cursor + Z.of_nat (length (nodes pd))
              ∧ total_products cursor' = total_products cursor
              ∧ storefronts w' = storefronts w
              ∧ products w' = foldl (λ m p, <[p_id p := p]> m) (products w) ps
              ∧ backup_cursors w'
                = <[bc_storefront_id cursor := cursor']> (backup_cursors w)
        end)
     anything w.
Proof.
  unfold apply_page.
  destruct (bool_decide (status response ≠ 200)).
  { wp_apply log_spec. intros _ w1 H1.
    wp_apply markPartial_spec. intros _ w2 (H2s & H2p & H2c).
    wp_io. wp_io. wp_io.
    apply stores_eq in H1 as (?&?&?). simpl.
    split; [right; by eexists|]. repeat split; congruence. }
  destruct (data (body response)) as [pd|].
  2: { wp_apply log_spec. intros _ w1 H1.
       wp_apply markPartial_spec. intros _ w2 (H2s & H2p & H2c).
       wp_io. apply stores_eq in H1 as (?&?&?).
       split; [by left|]. repeat split; congruence. }
  wp_apply mapM_transformProduct_spec. intros ps w1 [Hps (H1s&H1p&H1c&_)].
  unfold putProducts, putBackupCursor. repeat wp_io. simpl.
  exists pd, ps. rewrite H1s, H1p, H1c. done.
Qed.

Lemma wp_and {A} (m : M A) (Q1 Q2 : A → World → Prop) E w :
  wp m Q1 E w → wp m Q2 E w → wp m (λ a w', Q1 a w' ∧ Q2 a w') E w.
Proof. unfold wp. destruct (m w) as [[a|e] w']; auto. Qed.

Lemma fetch_with_retry_used sid cursor r w :
  wp (fetch_with_retry time fault sid cursor r)
     (λ res _, match res with
               | inr response => used_response r = Some response
               | inl out => stopped out
               end)
     anything w.
Proof.
  unfold fetch_with_retry, used_response.
  destruct (attempt1 r) as [st1 json1 hint1|err1];
    [|unfold fetchPage; by repeat wp_io].
  wp_apply fetchPage_settled. intros response w1 (-> & _).
  destruct (throttled (response_of st1 json1 hint1)); [|by wp_io].
  wp_apply log_spec. intros _ w2 _. wp_io. wp_io.
  destruct (attempt2 r) as [st2 json2 hint2|err2];
    [|unfold fetchPage; by repeat wp_io].
  wp_apply fetchPage_settled. intros retry w3 (-> & _).
  destruct (throttled (response_of st2 json2 hint2)); [|by wp_io].
  wp_apply log_spec. intros _ w4 _.
  wp_apply markPartial_spec. intros _ w5 _. by wp_io.
Qed.

Lemma apply_page_status sid cursor seenIds response w :
  wp (apply_page time fault sid cursor seenIds response)
     (λ res _, match res with
               | inr _ => status response = 200
               | inl _ => True
               end)
     anything w.
Proof.
  unfold apply_page. case_bool_decide as Hstatus.
  { wp_apply log_spec. intros _ w1 _.
    wp_apply markPartial_spec. intros _ w2 _. by repeat wp_io. }
  destruct (data (body response)) as [pd|].
  2: { wp_apply log_spec. intros _ w1 _.
       wp_apply markPartial_spec. intros _ w2 _. by wp_io. }
  wp_apply mapM_transformProduct_spec. intros ps w1 _.
  unfold putProducts, putBackupCursor. repeat wp_io.
  by destruct (decide (status response = 200)).
Qed.

(** What a page adds to the seen ids. *)
Lemma apply_page_seen sid cursor seenIds response w :
  wp (apply_page time fault sid cursor seenIds response)
     (λ res _, match res with
               | inr (_, seenIds', more) =>
                   ∃ pd, response_page response = Some pd
                         ∧ seenIds' = seenIds ∪ keys_of sid (nodes pd)
                         ∧ more = hasNextPage (pageInfo pd)
               | inl out => stopped out
               end)
     anything w.
Proof.
  eapply wp_conseq;
    [exact (wp_and _ _ _ _ _ (apply_page_spec sid cursor seenIds response w)
              (apply_page_status sid cursor seenIds response w))|].
  intros [out|[[cursor' seenIds'] more]] w' [Hspec Hstatus].
  { by destruct Hspec as [[->|[st ->]] _]. }
  destruct Hspec as (pd & ps & Hdata & Hps & -> & -> & _).
  exists pd. unfold response_page, keys_of.
  rewrite bool_decide_eq_true_2 by done.
  destruct (Forall2_transformed_ids _ _ _ Hps) as [-> _]. done.
Qed.

(** ** The loop and what follows it *)

Lemma upserted_start sid (ps : gmap string Product) : upserted sid ps ∅ ps.
Proof. intros k. split; [set_solver | done]. Qed.

Lemma upserted_put sid before seen cur ns ps :
  upserted sid before seen cur →
  Forall2 (transformed sid) ns ps →
  upserted sid before (seen ∪ list_to_set (map p_id ps))
           (foldl (λ m p, <[p_id p := p]> m) cur ps).
Proof.
  intros Hup Hps k.
  destruct (Forall2_transformed_ids _ _ _ Hps) as [_ Hall].
  rewrite Forall_forall in Hall.
  destruct (lookup_put_all ps cur k) as [Hout Hin].
  destruct (Hup k) as [Hseen Hunseen].
  destruct (decide (k ∈ map p_id ps)) as [Hk|Hk].
  - destruct (Hin Hk) as (p & Hp & Hid & Hlk). destruct (Hall p Hp).
    split; [intros _; by exists p|].
    intros []. apply elem_of_union. right. by apply elem_of_list_to_set.
  - rewrite (Hout Hk). split.
    + intros [?|?%elem_of_list_to_set]%elem_of_union; [auto|done].
    + intros Hnot. apply Hunseen. intros ?. apply Hnot, elem_of_union. by left.
Qed.

Lemma mark_partial_status sid (m : gmap string Storefront) s :
  m !! sid = Some s → sf_id s = sid →
  backup_status <$> mark_partial_in sid m !! sid = Some Partial.
Proof.
  intros Hs Hid. unfold mark_partial_in. rewrite Hs, Hid.
  by rewrite lookup_insert_eq.
Qed.

Lemma deliver_storefrontId cs : ∀ e,
  storefrontId (deliver cs e) = storefrontId e.
Proof.
  induction cs as [|c cs IH]; intros e; simpl; [done|].
  rewrite IH. by destruct c.
Qed.

Lemma post_loop_spec sid before storefront e cursor seenIds w :
  storefrontId e = sid →
  loop_pre sid storefront cursor w →
  upserted sid before seenIds (products w) →
  wp (post_loop time fault blob_size storefront e cursor seenIds)
     (run_post sid before) anything w.
Proof.
  intros <- (Hsf & Hcur & (s & Hs & Hsid & Hst) & Hstored) Hup.
  unfold post_loop. destruct (cancelled e).
  { wp_apply markPartial_spec. intros _ w1 (H1s & H1p & H1c).
    unfold deleteBackupCursor. wp_io. wp_io.
    wp_apply log_spec. intros _ w2 (H2s & H2p & H2c)%stores_eq.
    wp_io. simpl in *. unfold status_of. rewrite H2s, H2p, H2c, H1s, H1p.
    split; [by exists seenIds|]. split.
    - by eapply mark_partial_status.
    - apply lookup_delete_eq. }
  destruct (paused e).
  { unfold putStorefront. wp_io. wp_io.
    wp_apply log_spec. intros _ w2 (H2s & H2p & H2c)%stores_eq.
    wp_io. simpl in *. unfold status_of. rewrite H2s, H2p, H2c, Hsf.
    split; [by exists seenIds|]. by rewrite lookup_insert_eq. }
  unfold markProductsRemoved, getProductCount, estimateStorefrontSize,
    putStorefront, deleteBackupCursor, addLog.
  repeat wp_io. simpl. rewrite Hsf. split; [by exists (products w)|].
  split; [|apply lookup_delete_eq].
  eexists. rewrite lookup_insert_eq. done.
Qed.

Lemma loop_spec sid before script : ∀ storefront e cursor seenIds w,
  storefrontId e = sid →
  loop_pre sid storefront cursor w →
  upserted sid before seenIds (products w) →
  wp (loop time fault blob_size storefront e cursor seenIds script)
     (run_post sid before) anything w.
Proof.
  induction script as [|r rest IH]; intros storefront e cursor seenIds w He Hpre Hup.
  - simpl. destruct (paused e || cancelled e).
    + by apply post_loop_spec.
    + wp_io. wp_io. wp_io. simpl. subst sid.
      destruct Hpre as (_ & _ & (s & Hs & _ & Hst) & Hc).
      split; [by exists seenIds|]. unfold status_of. simpl.
      rewrite Hs. simpl. by rewrite Hst.
  - simpl. destruct (paused e || cancelled e); [by apply post_loop_spec|].
    rewrite He.
    wp_apply fetch_with_retry_spec. intros [out|response] w1 H1.
    { destruct H1 as (-> & H1s & H1p & H1c). wp_io.
      destruct Hpre as (_ & _ & (s & Hs & Hsid & _) & Hc). simpl.
      unfold status_of. rewrite H1s, H1p, H1c.
      split; [by exists seenIds|]. split; [|done].
      by eapply mark_partial_status. }
    apply stores_eq in H1 as (H1s & H1p & H1c).
    wp_apply apply_page_spec. intros [out|[[cursor' seenIds'] more]] w2 H2.
    { destruct H2 as (Hout & H2s & H2p & H2c). wp_io.
      destruct Hpre as (_ & _ & (s & Hs & Hsid & _) & Hc).
      assert (status_of sid w2 = Some Partial) as Hpartial.
      { unfold status_of. rewrite H2s, H1s. by eapply mark_partial_status. }
      assert (is_Some (backup_cursors w2 !! sid)) by (by rewrite H2c, H1c).
      assert (∃ seen, upserted sid before seen (products w2))
        by (exists seenIds; by rewrite H2p, H1p).
      destruct Hout as [->|[st ->]]; simpl; done. }
    destruct H2 as (pd & ps & Hdata & Hps & -> & -> & Hkey & _ & _ & _
                    & H2s & H2p & H2c).
    assert (loop_pre sid storefront cursor' w2) as Hpre2.
    { destruct Hpre as (Hsf & Hcur & (s & Hs & Hsid & Hst) & Hc).
      repeat split; [done|congruence| |].
      - exists s. by rewrite H2s, H1s.
      - rewrite H2c, Hcur. by rewrite lookup_insert_eq. }
    assert (upserted sid before (seenIds ∪ list_to_set (map p_id ps))
                     (products w2)) as Hup2.
    { rewrite H2p, H1p. by apply upserted_put with (nodes pd). }
    assert (storefrontId (deliver (signals r) e) = sid) as He2
      by (by rewrite deliver_storefrontId).
    destruct (hasNextPage (pageInfo pd)).
    + wp_io. wp_io. simpl. apply IH; done.
    + by apply post_loop_spec.
Qed.

(** The seen ids of a completed call are the keys of the records on the
    pages of its traversal. *)
(** ** [run] *)

Lemma run_body_spec e pre script w :
  keyed w →
  wp (run_body time fault blob_size e pre script)
     (run_post (storefrontId e) (products w)) anything w.
Proof.
  intros (Hsf & _ & Hbc). unfold run_body.
  set (sid := storefrontId e).
  unfold getStorefront, putStorefront, getBackupCursor.
  do 8 wp_io. simpl.
  set (storefront := match storefronts w !! sid with
                     | Some s => set_status InProgress s
                     | None => _
                     end).
  assert (sf_id storefront = sid ∧ backup_status storefront = InProgress)
    as [Hid Hst].
  { unfold storefront. destruct (storefronts w !! sid) as [s|] eqn:Hs; [|done].
    split; [|done]. simpl. by apply (Hsf sid s). }
  set (w1 := count_request (count_request (set_storefronts _ _))).
  assert (storefronts w1 !! sid = Some storefront) as Hs1
    by (simpl; rewrite Hid; apply lookup_insert_eq).
  assert (products w1 = products w) as Hp1 by done.
  assert (backup_cursors w1 = backup_cursors w) as Hc1 by done.
  clearbody w1.
  destruct (backup_cursors w !! sid) as [c|] eqn:Hc.
  - assert (bc_storefront_id c = sid) as Hcid by (by apply (Hbc sid c)).
    assert (∀ w2, stores w2 = stores w1 →
              wp (let! cursor := ret c in
                  loop time fault blob_size storefront (deliver pre e) cursor
                       ∅ script)
                 (run_post sid (products w)) anything w2) as Hloop.
    { intros w2 (H2s & H2p & H2c)%stores_eq. wp_io. wp_io.
      apply loop_spec.
      - apply deliver_storefrontId.
      - repeat split; [done|done| |].
        + exists storefront. by rewrite H2s.
        + rewrite H2c, Hc1, Hc. by eexists.
      - rewrite H2p, Hp1. apply upserted_start. }
    destruct (bc_cursor c).
    + wp_apply log_spec. intros _ w2 H2. by apply Hloop.
    + wp_io. wp_io. by apply Hloop.
  - wp_io. wp_io. unfold putBackupCursor. do 6 wp_io.
    apply loop_spec.
    + apply deliver_storefrontId.
    + repeat split; simpl; [done| |].
      * exists storefront. done.
      * rewrite lookup_insert_eq. by eexists.
    + simpl. rewrite Hp1. apply upserted_start.
Qed.

Lemma on_error_spec sid err w :
  wp (on_error time fault sid err) (λ out _, out = Absorbed err) anything w.
Proof.
  unfold on_error. destruct (bool_decide _).
  - wp_apply markPartial_spec. intros _ w1 _. wp_io. wp_io.
    wp_apply log_spec. intros _ w2 _. by wp_io.
  - wp_apply markPartial_spec. intros _ w1 _.
    wp_apply log_spec. intros _ w2 _. by wp_io.
Qed.

(** A call of [run] that returns through one of the [return]s of the [try]
    block is a normal return of that block. *)
Lemma run_returned e pre script w out w' :
  run time fault blob_size e pre script w = (Normal out, w') →
  (∀ err, out ≠ Absorbed err) →
  run_body time fault blob_size e pre script w = (Normal out, w').
Proof.
  unfold run, try_catch. intros Hrun Hout.
  destruct (run_body time fault blob_size e pre script w) as [[o|err] w1];
    [done|].
  pose proof (on_error_spec (storefrontId e) err w1) as Hwp.
  apply (wp_returns _ _ _ _ _ _ Hwp) in Hrun. by destruct (Hout err).
Qed.

Lemma loop_seen script : ∀ storefront e cursor seenIds w,
  wp (loop time fault blob_size storefront e cursor seenIds script)
     (λ out _, match out with
               | RunComplete seen _ =>
                   seen = seenIds ∪ keys_of (storefrontId e) (traversed e script)
               | _ => True
               end)
     anything w.
Proof.
  assert (∀ storefront e cursor seenIds w,
            paused e || cancelled e = true →
            wp (post_loop time fault blob_size storefront e cursor seenIds)
               (λ out _, stopped out) anything w) as Hstopped.
  { intros storefront e cursor seenIds w Hflags. unfold post_loop.
    destruct (cancelled e).
    - wp_apply markPartial_spec. intros _ w1 _.
      unfold deleteBackupCursor. wp_io. wp_io.
      wp_apply log_spec. intros _ w2 _. by wp_io.
    - destruct (paused e); [|done].
      unfold putStorefront. wp_io. wp_io.
      wp_apply log_spec. intros _ w2 _. by wp_io. }
  assert (∀ storefront e cursor seenIds w,
            wp (post_loop time fault blob_size storefront e cursor seenIds)
               (λ out _, match out with
                         | RunComplete seen _ => seen = seenIds
                         | _ => True
                         end) anything w) as Hpost.
  { intros storefront e cursor seenIds w.
    destruct (paused e || cancelled e) eqn:Hflags.
    - eapply wp_conseq; [by apply Hstopped|]. by intros [].
    - apply orb_false_elim in Hflags as [Hp Hc]. unfold post_loop.
      rewrite Hp, Hc.
      unfold markProductsRemoved, getProductCount, estimateStorefrontSize,
        putStorefront, deleteBackupCursor, addLog.
      by repeat wp_io. }
  induction script as [|r rest IH]; intros storefront e cursor seenIds w;
    simpl; destruct (paused e || cancelled e) eqn:Hflags.
  - eapply wp_conseq; [by apply Hstopped|]. by intros [].
  - by repeat wp_io.
  - eapply wp_conseq; [by apply Hstopped|]. by intros [].
  - wp_apply fetch_with_retry_used. intros [out|response] w1 Hused;
      [wp_io; by destruct out|].
    rewrite Hused. simpl.
    wp_apply apply_page_seen.
    intros [out|[[cursor' seenIds'] more]] w2 Hpage; [wp_io; by destruct out|].
    destruct Hpage as (pd & -> & -> & ->).
    destruct (hasNextPage (pageInfo pd)).
    + wp_io. wp_io. eapply wp_conseq; [apply IH|].
      intros [seen ?| | | | | | |] _; try done. intros ->.
      rewrite deliver_storefrontId. unfold keys_of.
      rewrite fmap_app, list_to_set_app_L. by rewrite (assoc_L (∪)).
    + eapply wp_conseq; [apply Hpost|].
      intros [seen ?| | | | | | |] _; try done. intros ->.
      by rewrite app_nil_r.
Qed.

Lemma run_seen e pre script w seen completedAt w' :
  run time fault blob_size e pre script w
    = (Normal (RunComplete seen completedAt), w') →
  seen = keys_of (storefrontId e) (traversed (deliver pre e) script).
Proof.
  intros Hrun%run_returned; [|done].
  assert (wp (run_body time fault blob_size e pre script)
             (λ out _, match out with
                       | RunComplete seen _ =>
                           seen = keys_of (storefrontId e)
                                    (traversed (deliver pre e) script)
                       | _ => True
                       end) anything w) as Hwp.
  { unfold run_body, getStorefront, putStorefront, getBackupCursor.
    do 8 wp_io.
    assert (∀ cursor w0,
              wp (loop time fault blob_size
                    match (storefronts w !! storefrontId e, w).1 with
                    | Some s => set_status InProgress s
                    | None =>
                        {| sf_id := storefrontId e; sf_domain := storefrontId e;
                           last_backup_at := None; backup_status := InProgress;
                           product_count := 0; size_bytes := 0;
                           sf_created_at := time (ticks (count_request w)) |}
                    end (deliver pre e) cursor ∅ script)
                 (λ out _, match out with
                           | RunComplete seen _ =>
                               seen = keys_of (storefrontId e)
                                        (traversed (deliver pre e) script)
                           | _ => True
                           end) anything w0) as Hloop.
    { intros cursor w0. eapply wp_conseq; [apply loop_seen|].
      intros [s ?| | | | | | |] _; try done. intros ->.
      rewrite deliver_storefrontId. by rewrite (left_id_L ∅ (∪)). }
    cbn [fst snd].
    destruct (backup_cursors _ !! storefrontId e) as [c|].
    - destruct (bc_cursor c).
      + wp_apply log_spec. intros _ w2 _. wp_io. wp_io. apply Hloop.
      + wp_io. wp_io. wp_io. wp_io. apply Hloop.
    - wp_io. wp_io. unfold putBackupCursor. do 6 wp_io. apply Hloop. }
  exact (wp_returns _ _ _ _ _ _ Hwp Hrun).
Qed.

Lemma run_spec e pre script w out w' :
  keyed w →
  run time fault blob_size e pre script w = (Normal out, w') →
  (∀ err, out ≠ Absorbed err) →
  run_post (storefrontId e) (products w) out w'.
Proof.
  intros Hkeyed Hrun Hout. apply run_returned in Hrun; [|done].
  exact (wp_returns _ _ _ _ _ _ (run_body_spec e pre script w Hkeyed) Hrun).
Qed.

(** ** What a call leaves in the product store, failures included *)

(** Steps through code with a postcondition for failures; [tac] shows it
    where a storage request can fail. *)
Ltac fr_io tac :=
  first
    [ wp_step
    | lazymatch goal with
      | |- wp (request _ _) _ _ _ =>
          apply wp_request; [intros ? _; simpl; tac | intros _]
      | |- wp (now _) _ _ _ => apply wp_now
      | |- wp (throw _) _ _ _ => apply wp_throw; simpl; tac
      end ].

Ltac fr := fr_io done.

Lemma keys_of_app sid ns1 ns2 :
  keys_of sid (ns1 ++ ns2) = keys_of sid ns1 ∪ keys_of sid ns2.
Proof. unfold keys_of. by rewrite fmap_app, list_to_set_app_L. Qed.

Lemma keys_of_nil sid (seen : gset string) : seen ∪ keys_of sid [] = seen.
Proof. unfold keys_of. simpl. apply (right_id_L ∅ (∪)). Qed.

Lemma fetch_with_retry_frame sid cursor r w :
  wp (fetch_with_retry time fault sid cursor r)
     (λ res w',
        products w' = products w
        ∧ match res with
          | inr response => used_response r = Some response
          | inl out => out = StoppedThrottled ∧ used_response r = None
          end)
     (λ _ w', products w' = products w) w.
Proof.
  unfold fetch_with_retry, used_response, fetchPage, log, addLog, markPartial,
    getStorefront, putStorefront.
  destruct (attempt1 r) as [st1 json1 hint1|err1]; repeat fr.
  destruct (throttled (response_of st1 json1 hint1)) eqn:Hfirst;
    rewrite ?Hfirst; [|fr; done].
  destruct (attempt2 r) as [st2 json2 hint2|err2]; repeat fr.
  destruct (throttled (response_of st2 json2 hint2)) eqn:Hretry;
    rewrite ?Hretry; [|fr; done].
  repeat fr. cbn [fst snd].
  match goal with
  | |- context [storefronts ?w0 !! sid] => destruct (storefronts w0 !! sid)
  end; repeat fr; done.
Qed.

Lemma mapM_transformProduct_frame sid ns : ∀ w,
  wp (mapM (transformProduct time sid) ns)
     (λ ps w', Forall2 (transformed sid) ns ps ∧ products w' = products w)
     (λ _ w', products w' = products w) w.
Proof.
  induction ns as [|n ns IH]; intros w; simpl.
  - apply wp_ret. split; [constructor | done].
  - apply wp_bind. unfold wp at 1.
    destruct (transformProduct_shape sid n w) as [(p & -> & _ & Hp)|[e ->]];
      [|done].
    apply wp_bind. eapply wp_mono; [apply IH| |done].
    intros ps w' [Hps Hw']. apply wp_ret. split; [by constructor|done].
Qed.

Lemma response_page_keys sid pd ps :
  Forall2 (transformed sid) (nodes pd) ps →
  list_to_set (map p_id ps) = keys_of sid (nodes pd).
Proof.
  intros Hps. unfold keys_of.
  by destruct (Forall2_transformed_ids _ _ _ Hps) as [-> _].
Qed.

Lemma apply_page_frame sid before cursor seenIds response w :
  upserted sid before seenIds (products w) →
  wp (apply_page time fault sid cursor seenIds response)
     (λ res w',
        match res with
        | inl out =>
            (out = StoppedNoData ∨ ∃ st, out = StoppedHttp st)
            ∧ response_page response = None
            ∧ products w' = products w
        | inr (_, seenIds', more) =>
            ∃ pd, response_page response = Some pd
                  ∧ seenIds' = seenIds ∪ keys_of sid (nodes pd)
                  ∧ more = hasNextPage (pageInfo pd)
                  ∧ upserted sid before seenIds' (products w')
        end)
     (λ _ w',
        products w' = products w
        ∨ ∃ pd, response_page response = Some pd
                ∧ upserted sid before (seenIds ∪ keys_of sid (nodes pd))
                    (products w'))
     w.
Proof.
  intros Hup.
  unfold apply_page, response_page, log, addLog, markPartial, getStorefront,
    putStorefront.
  case_bool_decide as Hstatus.
  { rewrite bool_decide_eq_false_2 by done.
    repeat fr_io ltac:(by left). cbn [fst snd]. simpl.
    match goal with
    | |- context [storefronts ?w0 !! sid] => destruct (storefronts w0 !! sid)
    end; repeat fr_io ltac:(by left); simpl; (split; [right; by eexists|done]). }
  rewrite bool_decide_eq_true_2 by (by destruct (decide (status response = 200))).
  destruct (data (body response)) as [pd|].
  2: { repeat fr_io ltac:(by left). cbn [fst snd]. simpl.
       match goal with
       | |- context [storefronts ?w0 !! sid] => destruct (storefronts w0 !! sid)
       end; repeat fr_io ltac:(by left); simpl; (split; [by left|done]). }
  apply wp_bind. eapply wp_mono; [apply mapM_transformProduct_frame| |by left].
  intros ps w1 [Hps H1]. cbv beta.
  assert (upserted sid before (seenIds ∪ keys_of sid (nodes pd))
            (foldl (λ m p, <[p_id p := p]> m) (products w1) ps)) as Hup'.
  { rewrite <- (response_page_keys sid pd ps Hps), H1. by apply (upserted_put _ _ _ _ (nodes pd)). }
  unfold putProducts, putBackupCursor.
  fr_io ltac:(by left). fr_io ltac:(by left).
  repeat fr_io ltac:(right; by exists pd).
  simpl. rewrite (response_page_keys sid pd ps Hps). by exists pd.
Qed.

Lemma post_loop_frame storefront e cursor seenIds w :
  wp (post_loop time fault blob_size storefront e cursor seenIds)
     (λ out w',
        match out with
        | RunComplete seen completedAt =>
            seen = seenIds
            ∧ products w'
              = mark_removed (storefrontId e) seenIds completedAt <$> products w
        | RunPaused | RunCancelled => products w' = products w
        | _ => False
        end)
     (λ _ w',
        products w' = products w
        ∨ ∃ completedAt,
            products w'
            = mark_removed (storefrontId e) seenIds completedAt <$> products w)
     w.
Proof.
  unfold post_loop, log, addLog, markPartial, getStorefront, putStorefront,
    deleteBackupCursor, markProductsRemoved, getProductCount,
    estimateStorefrontSize.
  destruct (cancelled e).
  { repeat fr_io ltac:(by left). cbn [fst snd]. simpl.
    match goal with
    | |- context [storefronts ?w0 !! ?s] => destruct (storefronts w0 !! s)
    end; repeat fr_io ltac:(by left); done. }
  destruct (paused e); [repeat fr_io ltac:(by left); done|].
  do 4 fr_io ltac:(by left).
  repeat fr_io ltac:(right; by eexists). done.
Qed.


Lemma loop_frame sid before script : ∀ storefront e cursor seenIds w,
  storefrontId e = sid →
  upserted sid before seenIds (products w) →
  wp (loop time fault blob_size storefront e cursor seenIds script)
     (λ out w',
        let pages := seenIds ∪ keys_of sid (traversed e script) in
        match out with
        | RunComplete seen completedAt =>
            seen = pages
            ∧ ∃ mid, upserted sid before pages mid
                     ∧ products w' = mark_removed sid pages completedAt <$> mid
        | Absorbed _ => False
        | _ => upserted sid before pages (products w')
        end)
     (λ _ w',
        interrupted sid before
          (seenIds ∪ keys_of sid (traversed e script)) (products w'))
     w.
Proof.
  assert (∀ storefront e cursor seenIds w,
            storefrontId e = sid →
            upserted sid before seenIds (products w) →
            wp (post_loop time fault blob_size storefront e cursor seenIds)
               (λ out w',
                  match out with
                  | RunComplete seen completedAt =>
                      seen = seenIds
                      ∧ ∃ mid, upserted sid before seenIds mid
                               ∧ products w'
                                 = mark_removed sid seenIds completedAt <$> mid
                  | Absorbed _ => False
                  | _ => upserted sid before seenIds (products w')
                  end)
               (λ _ w', interrupted sid before seenIds (products w')) w)
    as Hpost.
  { intros storefront e cursor seenIds w <- Hup.
    eapply wp_mono; [apply post_loop_frame| |].
    - intros [seen completedAt| | | | | | |] w'; simpl; try done.
      + intros [-> Hw']. split; [done|]. by exists (products w).
      + by intros ->.
      + by intros ->.
    - intros err w' [->|[completedAt Hw']].
      + left. by exists seenIds.
      + right. by exists completedAt, (products w). }
  induction script as [|r rest IH]; intros storefront e cursor seenIds w He Hup;
    simpl; destruct (paused e || cancelled e) eqn:Hflags;
    try (rewrite keys_of_nil; by apply Hpost).
  - rewrite keys_of_nil.
    repeat fr. done.
  - rewrite He. apply wp_bind.
    eapply wp_mono; [apply fetch_with_retry_frame| |].
    2: { intros err w1 H1. simpl in H1. left. exists seenIds.
         split; [apply union_subseteq_l|]. by rewrite H1. }
    intros [out|response] w1 [H1 Hused]; rewrite <- H1 in Hup.
    { destruct Hused as [-> ->]. apply wp_ret. simpl.
      by rewrite keys_of_nil. }
    rewrite Hused. simpl. apply wp_bind.
    eapply wp_mono; [by apply (apply_page_frame sid before)| |].
    2: { intros err w2 [H2|(pd & Hpd & H2)].
         - left. exists seenIds. split; [apply union_subseteq_l|].
           by rewrite H2.
         - left. exists (seenIds ∪ keys_of sid (nodes pd)). split; [|done].
           rewrite Hpd. simpl. rewrite keys_of_app, (assoc_L (∪)).
           apply union_subseteq_l. }
    intros [out|[[cursor' seenIds'] more]] w2.
    { intros (Hout & -> & H2). apply wp_ret. rewrite <- H2 in Hup.
      rewrite keys_of_nil.
      by destruct Hout as [->|[st ->]]. }
    intros (pd & -> & -> & -> & H2).
    assert (storefrontId (deliver (signals r) e) = sid) as He'
      by (by rewrite deliver_storefrontId).
    destruct (hasNextPage (pageInfo pd)).
    + rewrite keys_of_app, (assoc_L (∪)).
      apply wp_bind, wp_emit. simpl. by apply IH.
    + rewrite app_nil_r.
      by apply Hpost.
Qed.

Lemma run_body_frame e pre script w :
  let sid := storefrontId e in
  let pages := keys_of sid (traversed (deliver pre e) script) in
  wp (run_body time fault blob_size e pre script)
     (λ out w',
        match out with
        | RunComplete seen completedAt =>
            seen = pages
            ∧ ∃ mid, upserted sid (products w) pages mid
                     ∧ products w' = mark_removed sid pages completedAt <$> mid
        | Absorbed _ => False
        | _ => upserted sid (products w) pages (products w')
        end)
     (λ _ w', interrupted sid (products w) pages (products w'))
     w.
Proof.
  intros sid pages.
  assert (∀ ps, ps = products w → interrupted sid (products w) pages ps)
    as Hsame.
  { intros ps ->. left. exists ∅. split; [apply empty_subseteq|apply upserted_start]. }
  assert (∀ storefront cursor w1,
            products w1 = products w →
            wp (loop time fault blob_size storefront (deliver pre e) cursor ∅
                  script)
               (λ out w',
                  match out with
                  | RunComplete seen completedAt =>
                      seen = pages
                      ∧ ∃ mid, upserted sid (products w) pages mid
                               ∧ products w'
                                 = mark_removed sid pages completedAt <$> mid
                  | Absorbed _ => False
                  | _ => upserted sid (products w) pages (products w')
                  end)
               (λ _ w', interrupted sid (products w) pages (products w')) w1)
    as Hloop.
  { intros storefront cursor w1 H1.
    eapply wp_mono;
      [apply (loop_frame sid (products w));
         [apply deliver_storefrontId | rewrite H1; apply upserted_start]
      |intros out w'|intros err w'];
      cbv zeta beta; by rewrite (left_id_L ∅ (∪)). }
  unfold run_body, getStorefront, putStorefront, getBackupCursor, log, addLog,
    putBackupCursor.
  repeat fr_io ltac:(by apply Hsame). cbn [fst snd]. simpl.
  destruct (backup_cursors w !! storefrontId e) as [c|];
    [destruct (bc_cursor c)|];
    repeat fr_io ltac:(by apply Hsame); by apply Hloop.
Qed.

Lemma on_error_frame sid err w :
  wp (on_error time fault sid err)
     (λ out w', out = Absorbed err ∧ products w' = products w) anything w.
Proof.
  unfold on_error, log, addLog, markPartial, getStorefront, putStorefront.
  destruct (bool_decide _); repeat fr; cbn [fst snd]; simpl;
    destruct (storefronts w !! sid); repeat fr; done.
Qed.

(** ** Reconciliation *)

Lemma mark_removed_cases sid seen ts p :
  (p_storefront_id p = sid ∧ (p_id p ∉ seen) ∧ removed_at p = None
   ∧ mark_removed sid seen ts p = set_removed_at (Some ts) p)
  ∨ (¬ (p_storefront_id p = sid ∧ (p_id p ∉ seen) ∧ removed_at p = None)
     ∧ mark_removed sid seen ts p = p).
Proof.
  unfold mark_removed.
  repeat case_bool_decide; simpl; first [by left | right; split; [tauto|done]].
Qed.

Lemma mark_removed_storefront sid seen ts p :
  p_storefront_id (mark_removed sid seen ts p) = p_storefront_id p.
Proof. by destruct (mark_removed_cases sid seen ts p) as [(_&_&_&->)|[_ ->]]. Qed.

(** After reconciliation the entities of the storefront that are not
    soft-deleted are those seen in the run. *)
Lemma active_ids_reconciled sid before seen ts mid :
  map_Forall (λ k p, p_id p = k) before →
  upserted sid before seen mid →
  active_ids sid (mark_removed sid seen ts <$> mid) = seen.
Proof.
  intros Hkeyed Hup. apply set_eq. intros k. unfold active_ids.
  rewrite elem_of_dom. unfold is_Some.
  setoid_rewrite map_lookup_filter_Some. setoid_rewrite lookup_fmap.
  destruct (Hup k) as [Hseen Hunseen]. split.
  - intros (p' & Hlk & Hsid & Hrem). simpl in *.
    destruct (decide (k ∈ seen)) as [|Hk]; [done|]. exfalso.
    rewrite (Hunseen Hk) in Hlk.
    destruct (before !! k) as [p|] eqn:Hp; [|done].
    simpl in Hlk. injection Hlk as <-.
    rewrite mark_removed_storefront in Hsid.
    pose proof (Hkeyed k p Hp) as Hid. simpl in Hid.
    destruct (mark_removed_cases sid seen ts p) as [(_&_&_&Heq)|[Hnot Heq]];
      rewrite Heq in Hrem.
    + done.
    + apply Hnot. by rewrite Hid.
  - intros Hk. destruct (Hseen Hk) as (p & Hp & Hid & Hsid & Hrem).
    exists (mark_removed sid seen ts p). rewrite Hp. split; [done|]. simpl.
    destruct (mark_removed_cases sid seen ts p) as [(_&Hout&_)|[_ ->]]; [|done].
    by rewrite Hid in Hout.
Qed.

(** C1 (amended).  After a call of [run] that begins the traversal at the
    first page and ends by natural completion, the entities of the
    storefront with [removed_at = null] are exactly the ids seen in the
    traversal, which are the keys of the records on the pages fetched: an
    entity of the storefront that was not seen and was not
    soft-deleted gets [removed_at] set to the completion time, which is also
    recorded as [last_backup_at], and a seen entity has [removed_at = null].
    After a call that ends paused, cancelled, or partial through the
    throttling, HTTP-status or missing-data exit (and while a page request
    is outstanding), no entity has been soft-deleted or dropped: at the key
    of a record on a page fetched by the call the store has the record
    upserted from it, with [removed_at = null], and at every other key it
    is as it was before the call.  After a call that ends through the
    [catch] block either the same holds, of the keys of some of those
    pages, or the store is the one that the reconciliation step leaves
    after the upserts of all of them, which is the case of a failure raised
    after that step. *)
Theorem soft_delete_reconciliation e pre script w out w' :
  keyed w →
  run time fault blob_size e pre script w = (Normal out, w') →
  match out with
  | RunComplete seen completedAt =>
      starts_at_first_page (storefrontId e) w →
      seen = keys_of (storefrontId e) (traversed (deliver pre e) script)
      ∧ active_ids (storefrontId e) (products w') = seen
      ∧ (∀ k p, products w !! k = Some p →
                p_storefront_id p = storefrontId e → k ∉ seen →
                removed_at p = None →
                products w' !! k = Some (set_removed_at (Some completedAt) p))
      ∧ (∀ k, k ∈ seen →
              ∃ p, products w' !! k = Some p
                   ∧ p_storefront_id p = storefrontId e
                   ∧ removed_at p = None)
      ∧ (∃ s, storefronts w' !! storefrontId e = Some s
              ∧ backup_status s = Complete
              ∧ last_backup_at s = Some completedAt)
  | RunPaused | RunCancelled | StoppedThrottled | StoppedHttp _
  | StoppedNoData | InFlight =>
      ∀ k,
        (k ∈ keys_of (storefrontId e) (traversed (deliver pre e) script) →
           ∃ p, products w' !! k = Some p ∧ p_id p = k
                ∧ p_storefront_id p = storefrontId e ∧ removed_at p = None)
        ∧ (k ∉ keys_of (storefrontId e) (traversed (deliver pre e) script) →
             products w' !! k = products w !! k)
  | Absorbed _ =>
      interrupted (storefrontId e) (products w)
        (keys_of (storefrontId e) (traversed (deliver pre e) script))
        (products w')
  end.
Proof.
  intros Hkeyed Hrun.
  assert (match out with
          | RunComplete _ _ => True
          | Absorbed _ =>
              interrupted (storefrontId e) (products w)
                (keys_of (storefrontId e) (traversed (deliver pre e) script))
                (products w')
          | _ =>
              upserted (storefrontId e) (products w)
                (keys_of (storefrontId e) (traversed (deliver pre e) script))
                (products w')
          end) as Hframe.
  { pose proof (run_body_frame e pre script w) as Hbody.
    unfold wp in Hbody. unfold run, try_catch in Hrun.
    destruct (run_body time fault blob_size e pre script w) as [[o|err] w1].
    - injection Hrun as -> ->. by destruct out.
    - destruct (wp_returns _ _ _ _ _ _
                  (on_error_frame (storefrontId e) err w1) Hrun)
        as [-> Hprod].
      by rewrite Hprod. }
  destruct out as [seen completedAt| | | | | |err|]; try exact Hframe.
  clear Hframe.
  pose proof (run_spec e pre script w _ w' Hkeyed Hrun) as Hpost;
    simpl in Hpost; destruct Hpost as [Hprod Hrest]; [done|].
  intros _. split; [by eapply run_seen|].
  destruct Hprod as (mid & Hup & Hprod). destruct Hrest as [Hsf _].
  destruct Hkeyed as (_ & Hkp & _). rewrite Hprod.
  split; [by eapply active_ids_reconciled|]. split; [|split; [|done]].
  - intros k p Hp Hsid Hk Hrem. destruct (Hup k) as [_ Hunseen].
    rewrite lookup_fmap, (Hunseen Hk), Hp. simpl. f_equal.
    pose proof (Hkp k p Hp) as Hid. simpl in Hid.
    destruct (mark_removed_cases (storefrontId e) seen completedAt p)
      as [(_&_&_&->)|[Hnot _]]; [done|].
    destruct Hnot. by rewrite Hid.
  - intros k Hk. destruct (Hup k) as [Hseen _].
    destruct (Hseen Hk) as (p & Hp & Hid & Hsid & Hrem).
    exists p. rewrite lookup_fmap, Hp. simpl. split; [|done]. f_equal.
    destruct (mark_removed_cases (storefrontId e) seen completedAt p)
      as [(_&Hout&_)|[_ ->]]; [|done].
    by rewrite Hid in Hout.
Qed.

(** C3 (amended).  When a call of [run] on a keyed store returns, the
    status of the storefront and the presence of its cursor are tied to the
    exit taken: [complete] without a cursor after natural completion,
    [paused] with a cursor after a pause, [partial] without a cursor after a
    cancel, and [partial] with the cursor retained after the throttling,
    HTTP-status or missing-data exit; while a page request is outstanding
    the status is [in-progress] and a cursor is stored. *)
Theorem status_and_cursor_by_exit e pre script w out w' :
  keyed w →
  run time fault blob_size e pre script w = (Normal out, w') →
  match out with
  | RunComplete _ _ =>
      status_of (storefrontId e) w' = Some Complete
      ∧ backup_cursors w' !! storefrontId e = None
  | RunPaused =>
      status_of (storefrontId e) w' = Some Paused
      ∧ is_Some (backup_cursors w' !! storefrontId e)
  | RunCancelled =>
      status_of (storefrontId e) w' = Some Partial
      ∧ backup_cursors w' !! storefrontId e = None
  | StoppedThrottled | StoppedHttp _ | StoppedNoData =>
      status_of (storefrontId e) w' = Some Partial
      ∧ is_Some (backup_cursors w' !! storefrontId e)
  | InFlight =>
      status_of (storefrontId e) w' = Some InProgress
      ∧ is_Some (backup_cursors w' !! storefrontId e)
  | Absorbed _ => True
  end.
Proof.
  intros Hkeyed Hrun.
  destruct out as [seen completedAt| | | | | |err|]; try exact I;
    (pose proof (run_spec e pre script w _ w' Hkeyed Hrun) as Hpost;
     simpl in Hpost; destruct Hpost as (_ & Hst & Hcur); [done|]);
    try done.
  destruct Hst as (s & Hs & Hst & _). unfold status_of.
  by rewrite Hs, <- Hst.
Qed.

(** ** Throttling *)

(** Steps through code whose storage requests succeed from here on. *)
Ltac wp_request_ok H :=
  apply wp_request;
  [ intros ? Hfault; rewrite H in Hfault by (simpl; lia); discriminate Hfault
  | intros _ ].

Ltac wp_ok H :=
  first
    [ wp_step
    | lazymatch goal with
      | |- wp (now _) _ _ _ => apply wp_now
      | |- wp (request _ _) _ _ _ => wp_request_ok H
      end ].

Lemma waitMs_hint st json hint :
  waitMs (response_of st json hint)
  = match hint ≫= parseInt with
    | Some (Finite seconds) => to_double (seconds * 1000)
    | _ => Finite 2000
    end.
Proof. unfold waitMs. simpl. by destruct hint. Qed.

(** C4 (amended).  When the storage requests that the handling makes
    succeed (at most four: the two log entries, and the reading and the
    writing of the storefront record), a page request classified as
    throttled (status 429 or a [THROTTLED] error in the payload) is
    followed by a wait and then by one more request for the same cursor.
    The wait is [parseInt] of the [Retry-After] hint times 1000, as
    doubles, when [parseInt] gives a finite number, else 2000 ms.
    When the retry is throttled too, [run] returns with the storefront
    [partial], nothing further requested, and the stored cursors as they
    were before the page; otherwise the retry's response is the one the
    iteration goes on with. *)
Theorem throttle_backoff storefront e cursor seenIds r rest w st1 json1 hint :
  (∀ k, (requests w ≤ k < requests w + 4)%nat → fault k = None) →
  loop_pre (storefrontId e) storefront cursor w →
  paused e = false → cancelled e = false →
  attempt1 r = Settled st1 json1 hint →
  throttled (response_of st1 json1 hint) = true →
  let sid := storefrontId e in
  let page_request := EFetch (endpoint sid) (bc_cursor cursor) in
  let wait := match hint ≫= parseInt with
              | Some (Finite seconds) => to_double (seconds * 1000)
              | _ => Finite 2000
              end in
  (∀ st2 json2 hint2,
     attempt2 r = Settled st2 json2 hint2 →
     throttled (response_of st2 json2 hint2) = true →
     ∃ w', loop time fault blob_size storefront e cursor seenIds (r :: rest) w
             = (Normal StoppedThrottled, w')
           ∧ events w' = events w ++ [page_request; ESleep wait; page_request]
           ∧ status_of sid w' = Some Partial
           ∧ backup_cursors w' = backup_cursors w
           ∧ products w' = products w)
  ∧ (∀ st2 json2 hint2,
       attempt2 r = Settled st2 json2 hint2 →
       throttled (response_of st2 json2 hint2) = false →
       ∃ w1, fetch_with_retry time fault sid cursor r w
               = (Normal (inr (response_of st2 json2 hint2)), w1)
             ∧ events w1 = events w ++ [page_request; ESleep wait; page_request]
             ∧ stores w1 = stores w).
Proof.
  intros Hok (_ & _ & (s & Hs & Hsid & _) & _) Hp Hc Hfirst Hthrottled sid
    page_request wait.
  assert (wait = waitMs (response_of st1 json1 hint)) as Hwait
    by (by rewrite waitMs_hint).
  split; intros st2 json2 hint2 Hsecond Hretry; apply wp_total_value.
  - cbn [loop]. rewrite Hp, Hc. cbn [orb]. fold sid.
    unfold fetch_with_retry, fetchPage, log, addLog, markPartial,
      getStorefront, putStorefront.
    rewrite Hfirst, Hsecond.
    repeat wp_ok Hok. rewrite Hthrottled. unfold delay.
    repeat wp_ok Hok. rewrite Hretry. repeat wp_ok Hok.
    simpl. unfold sid at 1. rewrite Hs. repeat wp_ok Hok.
    simpl. rewrite <- !app_assoc. simpl. rewrite <- Hwait.
    split_and!; try done.
    unfold status_of. simpl. unfold sid. rewrite <- Hsid.
    by rewrite lookup_insert_eq.
  - unfold fetch_with_retry, fetchPage, log, addLog. fold sid.
    rewrite Hfirst, Hsecond.
    repeat wp_ok Hok. rewrite Hthrottled. unfold delay.
    repeat wp_ok Hok. rewrite Hretry. repeat wp_ok Hok.
    simpl. rewrite <- !app_assoc. simpl. rewrite <- Hwait.
    split_and!; done.
Qed.

(** ** The [catch] block *)

Lemma on_error_effect sid err w :
  (∀ k, (requests w ≤ k)%nat → fault k = None) →
  ∃ w', on_error time fault sid err w = (Normal (Absorbed err), w')
        ∧ storefronts w' = mark_partial_in sid (storefronts w)
        ∧ products w' = products w
        ∧ backup_cursors w' = backup_cursors w
        ∧ logs w'
          = logs w ++ [{| log_storefront_id := sid;
                          log_timestamp := time (ticks w);
                          log_level := error;
                          log_message :=
                            if bool_decide (err_name err = "QuotaExceededError")
                            then "Storage quota exceeded"
                            else "Unexpected error during backup: "
                                   +:+ err_message err;
                          log_detail := None |}]
        ∧ events w'
          = events w ++
            (if bool_decide (err_name err = "QuotaExceededError")
             then [ENotify "Backup stopped"
                     ("Backup stopped: Storage quota exceeded for " +:+ sid
                        +:+ ". Open the extension to review.")]
             else []).
Proof.
  intros Hok. apply wp_total_value.
  unfold on_error, markPartial, log, addLog, getStorefront, putStorefront,
    mark_partial_in.
  destruct (bool_decide (err_name err = "QuotaExceededError"));
    wp_ok Hok; wp_ok Hok; wp_ok Hok; cbn [fst snd];
    destruct (storefronts w !! sid) as [s|];
    repeat wp_ok Hok; simpl; rewrite ?app_nil_r; done.
Qed.

(** C6 (amended).  Whatever fails in the [try] block of [run] (a storage
    request, the network request, the transform), [run] returns without
    throwing, provided the storage requests of its [catch] block succeed:
    the storefront is marked [partial] if it has a record (none is created
    otherwise), products and cursors stay as they were when the failure
    occurred, an [error] entry is logged, and a notification is sent for a
    [QuotaExceededError] only.  Without a failure [run] returns what its
    [try] block returns. *)
Theorem failures_absorbed e pre script w r w1 :
  run_body time fault blob_size e pre script w = (r, w1) →
  (∀ k, (requests w1 ≤ k)%nat → fault k = None) →
  match r with
  | Normal out => run time fault blob_size e pre script w = (Normal out, w1)
  | Thrown err =>
      let sid := storefrontId e in
      let quota := bool_decide (err_name err = "QuotaExceededError") in
      ∃ w2,
        run time fault blob_size e pre script w = (Normal (Absorbed err), w2)
        ∧ storefronts w2 = mark_partial_in sid (storefronts w1)
        ∧ products w2 = products w1
        ∧ backup_cursors w2 = backup_cursors w1
        ∧ logs w2
          = logs w1 ++ [{| log_storefront_id := sid;
                           log_timestamp := time (ticks w1);
                           log_level := error;
                           log_message :=
                             if quota then "Storage quota exceeded"
                             else "Unexpected error during backup: "
                                    +:+ err_message err;
                           log_detail := None |}]
        ∧ events w2
          = events w1 ++
            (if quota
             then [ENotify "Backup stopped"
                     ("Backup stopped: Storage quota exceeded for " +:+ sid
                        +:+ ". Open the extension to review.")]
             else [])
  end.
Proof.
  intros Hbody Hok. unfold run, try_catch. rewrite Hbody.
  destruct r as [out|err]; [done|]. by apply on_error_effect.
Qed.

(** ** The transform as a function of its arguments and the clock *)

(** C7 (amended).  The transform reads the clock once and does nothing
    else: applied to the same storefront id and record in two worlds, it
    throws the same error in both without any effect, or it returns two
    records that agree in every field except [sniffer_updated_at], which
    holds the clock reading of each application; the records are identical
    when the two readings are. *)
Theorem transformProduct_deterministic_up_to_clock sid node w1 w2 :
  match transformProduct time sid node w1, transformProduct time sid node w2 with
  | (Normal p1, w1'), (Normal p2, w2') =>
      set_sniffer_updated_at "" p1 = set_sniffer_updated_at "" p2
      ∧ sniffer_updated_at p1 = time (ticks w1)
      ∧ sniffer_updated_at p2 = time (ticks w2)
      ∧ (time (ticks w1) = time (ticks w2) → p1 = p2)
      ∧ w1' = tick w1 ∧ w2' = tick w2
  | (Thrown e1, w1'), (Thrown e2, w2') => e1 = e2 ∧ w1' = w1 ∧ w2' = w2
  | _, _ => False
  end.
Proof.
  unfold transformProduct.
  destruct (gp_images node) as [imgs|]; [|done].
  destruct (gp_variants node) as [vs|]; [|done].
  cbv [bind ret now].
  pose proof (mapM_transformVariant_pure vs w1 w2) as Hpure.
  destruct (mapM transformVariant vs w1) as [r1 u1] eqn:H1.
  destruct (mapM transformVariant vs w2) as [r2 u2] eqn:H2.
  apply mapM_transformVariant_world in H1 as ->.
  apply mapM_transformVariant_world in H2 as ->.
  simpl in Hpure. subst r2. destruct r1 as [pvs|err]; [|done].
  repeat split; try done. simpl. by intros ->.
Qed.

(** C8 (amended).  On a record that carries its image and variant
    collections and, in each variant, its list of selected options, the
    transform does not fail: it returns an entity whose images and variants
    are those of the record mapped one by one (so an empty collection gives
    an empty collection), with [null] for an absent alt text, an absent
    compare-at price and each of the three options that the variant does
    not have. *)
Theorem transformProduct_total_on_typed_records sid node imgs vs w :
  gp_images node = Some imgs →
  gp_variants node = Some vs →
  Forall (λ v, is_Some (selectedOptions v)) vs →
  ∃ p, transformProduct time sid node w = (Normal p, tick w)
       ∧ p_images p = map transformImage imgs
       ∧ Forall2 (λ img pi, alt pi = altText img) imgs (p_images p)
       ∧ Forall2
           (λ v pv,
              compare_at_price pv = amount <$> compareAtPrice v
              ∧ ∃ opts, selectedOptions v = Some opts
                        ∧ option1 pv = so_value <$> opts !! 0%nat
                        ∧ option2 pv = so_value <$> opts !! 1%nat
                        ∧ option3 pv = so_value <$> opts !! 2%nat)
           vs (p_variants p)
       ∧ removed_at p = None.
Proof.
  intros Himgs Hvs Hopts. unfold transformProduct. rewrite Himgs, Hvs.
  cbv [bind ret now].
  assert (∀ w0, ∃ pvs, mapM transformVariant vs w0 = (Normal pvs, w0)
            ∧ Forall2
                (λ v pv,
                   compare_at_price pv = amount <$> compareAtPrice v
                   ∧ ∃ opts, selectedOptions v = Some opts
                             ∧ option1 pv = so_value <$> opts !! 0%nat
                             ∧ option2 pv = so_value <$> opts !! 1%nat
                             ∧ option3 pv = so_value <$> opts !! 2%nat)
                vs pvs) as Hmap.
  { clear Hvs. induction Hopts as [|v vs' [opts Hv] _ IH]; intros w0; simpl.
    - exists []. by split.
    - destruct (IH w0) as (pvs & Hpvs & Hall).
      unfold bind at 1. unfold transformVariant at 1. rewrite Hv.
      cbv [ret]. unfold bind. rewrite Hpvs.
      eexists. split; [reflexivity|]. constructor; [|done].
      split; [done|]. by exists opts. }
  destruct (Hmap w) as (pvs & -> & Hall).
  eexists. split; [reflexivity|]. simpl. repeat split; try done.
  clear. induction imgs; by constructor.
Qed.

(** C10.  The transform always emits [removed_at = null] under the
    composite key made of the storefront id and the source id, so when a
    page is applied, every record of the page is in the store afterwards
    under that key with [removed_at = null], whatever the store held there
    before, a soft-deleted entity included. *)
Theorem upsert_resurrects sid cursor seenIds response pd w cursor' seenIds'
    more w' node old stamp :
  data (body response) = Some pd →
  node ∈ nodes pd →
  products w !! product_key sid (gp_id node) = Some old →
  removed_at old = Some stamp →
  apply_page time fault sid cursor seenIds response w
    = (Normal (inr (cursor', seenIds', more)), w') →
  ∃ p, products w' !! product_key sid (gp_id node) = Some p
       ∧ p_id p = product_key sid (gp_id node)
       ∧ p_storefront_id p = sid
       ∧ removed_at p = None.
Proof.
  intros Hdata Hnode _ _ Hrun.
  pose proof (wp_returns _ _ _ _ _ _
                (apply_page_spec sid cursor seenIds response w) Hrun) as Hpost.
  simpl in Hpost.
  destruct Hpost as (pd' & ps & Hdata' & Hps & _ & _ & _ & _ & _ & _ & _
                     & Hprod & _).
  rewrite Hdata in Hdata'. injection Hdata' as <-.
  rewrite Hprod. by eapply put_transformed_lookup.
Qed.

End Specs.

(* ===================================================================== *)
(** * Concrete runs *)
(* ===================================================================== *)

Ltac by_computation := apply (bool_decide_unpack _); vm_compute; exact I.

(** The incremental scenario: the store holds A, B and C and the catalog
    now returns A and B. *)
Lemma soft_delete_reconciliation_witness :
  let w' := (run clock0 no_fault size0 shop_engine [] incremental_rounds
               catalog_abc).2 in
  active_ids shop (products w') = {[key_of "A"; key_of "B"]}
  ∧ products w' !! key_of "C"
    = Some (set_removed_at (Some "T4") (stored_product "C" None)).
Proof.
  intros w'.
  destruct (soft_delete_reconciliation clock0 no_fault size0 shop_engine []
              incremental_rounds catalog_abc
              (RunComplete {[key_of "A"; key_of "B"]} "T4") w')
    as (_ & Hactive & Hremoved & _).
  - unfold keyed. by_computation.
  - vm_compute. reflexivity.
  - intros c Hc. by vm_compute in Hc.
  - split; [exact Hactive|]. apply Hremoved.
    + vm_compute. reflexivity.
    + reflexivity.
    + by_computation.
    + reflexivity.
Defined.

(** C1, as stated, fails in its last clause: a run that ends paused has
    changed [removed_at] of an entity that was soft-deleted before and is on
    the page that the run applied. *)
Lemma paused_run_modifies_removed_at :
  let res := run clock0 no_fault size0 shop_engine [] paused_rounds
               removed_before in
  res.1 = Normal RunPaused
  ∧ status_of shop res.2 = Some Paused
  ∧ removed_at <$> products removed_before !! key_of "A"
    = Some (Some "2025-03-01")
  ∧ removed_at <$> products res.2 !! key_of "A" = Some None.
Proof. vm_compute. done. Qed.

(** Outside the amended C1: a call of [run] that resumes builds its set of
    seen ids from the pages it fetches itself, so on completion it
    soft-deletes the entities of the pages fetched before the pause,
    although the catalog still has them. *)
Example resumed_run_soft_deletes_earlier_pages :
  let paused_at := (run clock0 no_fault size0 shop_engine []
                      first_page_then_pause empty_world).2 in
  let res := run clock0 no_fault size0 shop_engine [] second_page paused_at in
  status_of shop paused_at = Some Paused
  ∧ removed_at <$> products paused_at !! key_of "A" = Some None
  ∧ res.1 = Normal (RunComplete {[key_of "B"]} "T7")
  ∧ removed_at <$> products res.2 !! key_of "A" = Some (Some "T7")
  ∧ removed_at <$> products res.2 !! key_of "B" = Some None.
Proof. vm_compute. done. Qed.

(** Outside the amended C1: a storage failure after reconciliation ends the
    run [partial] through the [catch] block, with the soft-deletes made. *)
Example failure_after_reconciliation :
  let res := run clock0 (fault_at 9 QuotaExceeded) size0 shop_engine []
               incremental_rounds catalog_abc in
  res.1 = Normal (Absorbed QuotaExceeded)
  ∧ status_of shop res.2 = Some Partial
  ∧ removed_at <$> products res.2 !! key_of "C" = Some (Some "T4").
Proof. vm_compute. done. Qed.

(** A fresh run whose first page request is answered with status 500. *)
Lemma status_and_cursor_by_exit_witness :
  let w' := (run clock0 no_fault size0 shop_engine [] failing_rounds
               empty_world).2 in
  status_of shop w' = Some Partial ∧ is_Some (backup_cursors w' !! shop).
Proof.
  intros w'.
  apply (status_and_cursor_by_exit clock0 no_fault size0 shop_engine []
           failing_rounds empty_world (StoppedHttp 500) w').
  - unfold keyed. by_computation.
  - vm_compute. reflexivity.
Defined.

(** C3, as stated, fails: a run stopped by an HTTP error leaves the
    storefront [partial] with its cursor stored. *)
Lemma partial_run_keeps_cursor :
  let res := run clock0 no_fault size0 shop_engine [] failing_rounds
               empty_world in
  res.1 = Normal (StoppedHttp 500)
  ∧ status_of shop res.2 = Some Partial
  ∧ backup_cursors res.2 !! shop = Some fresh_cursor
  ∧ ¬ status_matches_cursor shop res.2.
Proof.
  vm_compute. repeat split. discriminate.
Qed.

(** Status 429 with [Retry-After: 3], then a throttled retry. *)
Lemma throttle_backoff_witness :
  ∃ w', loop clock0 no_fault size0 shop_record shop_engine fresh_cursor ∅
          [throttled_round] started_world
          = (Normal StoppedThrottled, w')
        ∧ events w' = [EFetch (endpoint shop) None; ESleep 3000;
                       EFetch (endpoint shop) None]
        ∧ status_of shop w' = Some Partial
        ∧ backup_cursors w' = backup_cursors started_world
        ∧ products w' = products started_world.
Proof.
  destruct (throttle_backoff clock0 no_fault size0 shop_record shop_engine
              fresh_cursor ∅ throttled_round [] started_world 429 None
              (Some "3")) as [Hexhausted _].
  - reflexivity.
  - unfold loop_pre. repeat split; [|by_computation].
    exists shop_record. by vm_compute.
  - reflexivity.
  - reflexivity.
  - reflexivity.
  - reflexivity.
  - apply (Hexhausted 200 (Some throttled_body) None); reflexivity.
Defined.

(** The wait for some hints: [parseInt] reads the leading integer, a hint
    without one gives the default, the arithmetic is that of doubles, and a
    hint that [parseInt] reads as infinite gives the default too. *)
Example waitMs_examples :
  let hinted h := waitMs (response_of 429 None h) in
  hinted (Some "3") = 3000
  ∧ hinted (Some " 12.5") = 12000
  ∧ hinted (Some "-1") = -1000
  ∧ hinted (Some "Wed, 21 Oct 2026 07:28:00 GMT") = 2000
  ∧ hinted (Some "") = 2000
  ∧ hinted None = 2000
  ∧ hinted (Some "9007199254740993") = 9007199254740992000
  ∧ hinted (Some ("1" +:+ String.concat "" (replicate 308 "0")))
    = Infinity false
  ∧ hinted (Some ("1" +:+ String.concat "" (replicate 309 "0"))) = 2000.
Proof. by vm_compute. Qed.

(** C4, as stated, fails.  When the write of the log entry that announces
    the wait fails, the throttled page is followed by no wait and no second
    request: the failure goes to the [catch] block and [run] returns.  And a
    hint of 2^53 + 1 seconds gives a wait of 2^53 times 1000 milliseconds,
    since [parseInt] returns a double. *)
Lemma throttled_page_without_wait_or_retry :
  (let res := run clock0 (fault_at 4 QuotaExceeded) size0 shop_engine []
                [throttled_round] empty_world in
   res.1 = Normal (Absorbed QuotaExceeded)
   ∧ events res.2
     = [EFetch (endpoint shop) None;
        ENotify "Backup stopped"
          ("Backup stopped: Storage quota exceeded for " +:+ shop
             +:+ ". Open the extension to review.")])
  ∧ (let res := loop clock0 no_fault size0 shop_record shop_engine
                  fresh_cursor ∅ [long_hint_round] started_world in
     res.1 = Normal StoppedThrottled
     ∧ events res.2 = [EFetch (endpoint shop) None;
                       ESleep 9007199254740992000;
                       EFetch (endpoint shop) None]
     ∧ 9007199254740992000 ≠ 9007199254740993 * 1000).
Proof. by vm_compute. Qed.

(** C5 (what the code does in the scenario).  A fresh backup over three
    pages of two records each ends [complete] with six products fetched,
    stored and counted, none of them soft-deleted, and the cursor deleted.
    [total_products] is never written: the checkpoint after the first and
    after the second page holds [null], and every progress callback
    receives 0 as the estimate. *)
Theorem fresh_backup_three_pages :
  let res := run clock0 no_fault size0 shop_engine [] three_pages empty_world in
  let after k := (run clock0 no_fault size0 shop_engine [] (take k three_pages)
                    empty_world).2 in
  res.1 = Normal (RunComplete
                    (list_to_set (key_of <$> ["1"; "2"; "3"; "4"; "5"; "6"]))
                    "T8")
  ∧ status_of shop res.2 = Some Complete
  ∧ product_count <$> storefronts res.2 !! shop = Some 6
  ∧ size (products res.2) = 6%nat
  ∧ map_Forall (λ _ p, removed_at p = None) (products res.2)
  ∧ backup_cursors res.2 !! shop = None
  ∧ progress_calls (events res.2) = [(2, 0); (4, 0); (6, 0)]
  ∧ backup_cursors (after 1%nat) !! shop
    = Some {| bc_storefront_id := shop; bc_cursor := Some "c1";
              started_at := "T1"; products_fetched := 2;
              total_products := None |}
  ∧ backup_cursors (after 2%nat) !! shop
    = Some {| bc_storefront_id := shop; bc_cursor := Some "c2";
              started_at := "T1"; products_fetched := 4;
              total_products := None |}.
Proof.
  intros res after. repeat apply conj.
  - vm_compute. reflexivity.
  - vm_compute. reflexivity.
  - vm_compute. reflexivity.
  - vm_compute. reflexivity.
  - by_computation.
  - vm_compute. reflexivity.
  - vm_compute. reflexivity.
  - vm_compute. reflexivity.
  - vm_compute. reflexivity.
Qed.

(** The quota is hit by the upsert of the second page of a fresh backup:
    the first page stays stored. *)
Lemma failures_absorbed_witness :
  let quota_on_second_upsert := fault_at 6 QuotaExceeded in
  ∃ w2, run clock0 quota_on_second_upsert size0 shop_engine [] three_pages
          empty_world
          = (Normal (Absorbed QuotaExceeded), w2)
        ∧ status_of shop w2 = Some Partial
        ∧ dom (products w2) = {[key_of "1"; key_of "2"]}
        ∧ bc_cursor <$> backup_cursors w2 !! shop = Some (Some "c1")
        ∧ events w2
          = [EFetch (endpoint shop) None; EProgress 2 0; ESleep 500;
             EFetch (endpoint shop) (Some "c1");
             ENotify "Backup stopped"
               ("Backup stopped: Storage quota exceeded for " +:+ shop
                  +:+ ". Open the extension to review.")].
Proof.
  intros quota_on_second_upsert.
  pose (w1 := (run_body clock0 quota_on_second_upsert size0 shop_engine []
                 three_pages empty_world).2).
  destruct (failures_absorbed clock0 quota_on_second_upsert size0 shop_engine
              [] three_pages empty_world (Thrown QuotaExceeded) w1)
    as (w2 & Hrun & Hsf & Hprod & Hcur & _ & Hev).
  - by vm_compute.
  - intros k Hk. unfold quota_on_second_upsert, fault_at.
    case_bool_decide; [|done]. subst k. vm_compute in Hk. lia.
  - exists w2. split; [exact Hrun|]. unfold status_of.
    rewrite Hsf, Hprod, Hcur, Hev.
    repeat apply conj; vm_compute; reflexivity.
Defined.

(** C6, as stated, fails: when the first write of a storefront that has no
    record yet hits the quota, [run] returns and the failure is logged and
    notified, but no [backup_status] is persisted, since [markPartial] only
    updates a record that exists. *)
Lemma quota_before_first_record_persists_no_status :
  let res := run clock0 (fault_at 1 QuotaExceeded) size0 shop_engine []
               three_pages empty_world in
  res.1 = Normal (Absorbed QuotaExceeded)
  ∧ storefronts res.2 = ∅
  ∧ status_of shop res.2 = None
  ∧ log_message <$> logs res.2 = ["Storage quota exceeded"].
Proof. by vm_compute. Qed.

(** When the storage requests of the [catch] block fail as well, the
    failure leaves [run] as a rejection. *)
Example run_rejects_when_catch_block_fails :
  (run clock0 (λ _, Some QuotaExceeded) size0 shop_engine [] three_pages
     empty_world).1
  = Thrown QuotaExceeded.
Proof. by vm_compute. Qed.

(** C7, as stated, fails: two successive applications of the transform to
    the same storefront id and record return different entities. *)
Lemma transformProduct_twice_differs :
  ∃ p1 w1 p2 w2,
    transformProduct clock0 shop (sample_node "1") empty_world = (Normal p1, w1)
    ∧ transformProduct clock0 shop (sample_node "1") w1 = (Normal p2, w2)
    ∧ p1 ≠ p2.
Proof.
  eexists _, _, _, _. split; [by vm_compute|]. split; [by vm_compute|].
  intros Heq. apply (f_equal sniffer_updated_at) in Heq. by vm_compute in Heq.
Qed.

(** A record with one image without alt text and one variant without
    compare-at price and with a single option. *)
Lemma transformProduct_total_on_typed_records_witness :
  ∃ p, transformProduct clock0 shop (sample_node "1") empty_world
         = (Normal p, tick empty_world)
       ∧ alt <$> p_images p = [None]
       ∧ compare_at_price <$> p_variants p = [None]
       ∧ option2 <$> p_variants p = [None].
Proof.
  destruct (transformProduct_total_on_typed_records clock0 shop
              (sample_node "1") [sample_image] [sample_variant] empty_world)
    as (p & Hp & Himgs & _ & Hvs & _).
  - reflexivity.
  - reflexivity.
  - repeat constructor. by eexists.
  - exists p. split; [exact Hp|]. rewrite Himgs. split; [reflexivity|].
    apply Forall2_cons_inv_l in Hvs as (pv & pvs & (Hcmp & opts & Hopts & _ & H2 & _)
                                        & ->%Forall2_nil_inv_l & ->).
    injection Hopts as <-. simpl. by rewrite Hcmp, H2.
Defined.

(** C8, as stated, fails: on a record without its [images] collection the
    transform throws instead of substituting an empty collection. *)
Lemma transformProduct_throws_without_images :
  transformProduct clock0 shop node_without_images empty_world
  = (Thrown (TypeError "Cannot read properties of undefined (reading 'nodes')"),
     empty_world).
Proof. reflexivity. Qed.

(** A was soft-deleted by an earlier backup and is on the page applied. *)
Lemma upsert_resurrects_witness :
  let response := response_of 200 (Some (page_of ["A"] false (Some "c1"))) None in
  let w' := (apply_page clock0 no_fault shop fresh_cursor ∅ response
               removed_before).2 in
  removed_at <$> products removed_before !! key_of "A"
    = Some (Some "2025-03-01")
  ∧ ∃ p, products w' !! key_of "A" = Some p ∧ removed_at p = None.
Proof.
  intros response w'. split; [by vm_compute|].
  destruct (upsert_resurrects clock0 no_fault shop fresh_cursor ∅ response
              {| pageInfo := {| hasNextPage := false; endCursor := Some "c1" |};
                 nodes := [sample_node "A"] |}
              removed_before
              {| bc_storefront_id := shop; bc_cursor := Some "c1";
                 started_at := "T1"; products_fetched := 1;
                 total_products := None |}
              {[key_of "A"]} false w' (sample_node "A")
              (stored_product "A" (Some "2025-03-01")) "2025-03-01")
    as (p & Hp & _ & _ & Hrem).
  - reflexivity.
  - apply list_elem_of_here.
  - vm_compute. reflexivity.
  - reflexivity.
  - vm_compute. reflexivity.
  - by exists p.
Defined.

(* ===================================================================== *)
(** * Active backups: start, pause, resume, cancel *)
(* ===================================================================== *)

Lemma alter_idemp (f : Engine → Engine) a (m : gmap nat Engine) :
  (∀ e, f (f e) = f e) → alter f a (alter f a m) = alter f a m.
Proof.
  intros Hf. apply map_eq. intros i.
  destruct (decide (a = i)) as [->|Hne].
  - rewrite !lookup_alter_eq. destruct (m !! i) as [e|]; simpl; [|done].
    by rewrite Hf.
  - by rewrite !lookup_alter_ne.
Qed.

Lemma update_engine_idemp f a rt :
  (∀ e, f (f e) = f e) →
  update_engine f a (update_engine f a rt) = update_engine f a rt.
Proof. intros Hf. unfold update_engine. simpl. by rewrite alter_idemp. Qed.

(** C2 (what the code does).  [startBackup] does not consult
    [activeBackups]: called twice for a storefront, it leaves two started
    calls of [run] on two engine instances, of which the map knows the
    second only; and [resumeBackup], finding an active instance, starts a
    second call of [run] on that instance.  When the first call settles,
    its [finally] removes the entry of the engine that is still running. *)
Theorem start_and_resume_add_loops :
  let once := startBackup shop empty_runtime in
  let twice := startBackup shop once in
  loops_of shop once
    = [{| task_engine := 0; task_storefront := shop; releases := true |}]
  ∧ loops_of shop twice
    = [{| task_engine := 0; task_storefront := shop; releases := true |};
       {| task_engine := 1; task_storefront := shop; releases := true |}]
  ∧ activeBackups twice !! shop = Some 1%nat
  ∧ loops_of shop (resumeBackup shop once)
    = [{| task_engine := 0; task_storefront := shop; releases := true |};
       {| task_engine := 0; task_storefront := shop; releases := false |}]
  ∧ loops_of shop (settle 0 twice)
    = [{| task_engine := 1; task_storefront := shop; releases := true |}]
  ∧ activeBackups (settle 0 twice) !! shop = None.
Proof. by vm_compute. Qed.

(** Whatever the runtime holds, each [startBackup] adds a call of [run]. *)
Lemma startBackup_adds_loop sid rt :
  loops_of sid (startBackup sid rt)
  = loops_of sid rt ++ [{| task_engine := next_engine rt;
                           task_storefront := sid; releases := true |}].
Proof.
  unfold loops_of, startBackup, launch. simpl.
  rewrite filter_app. f_equal. rewrite filter_cons_True by done. done.
Qed.

(** C9 (what the code does).  [resume()] does not look for a call of [run]
    that is still going, which is the check that [startBackup] lacks too
    (C2).  On an engine that was started and paused, one [resume()] leaves
    two started calls of [run] and two leave three, so that calling it
    twice is not calling it once.  Through [resumeBackup], once the paused
    call has returned: the first call starts a call of [run] on a new
    engine, the second starts another one on the same engine. *)
Theorem resume_twice_differs :
  let rt := pauseBackup shop (startBackup shop empty_runtime) in
  let returned := settle 0 rt in
  length (tasks (engine_resume 0 rt)) = 2%nat
  ∧ length (tasks (engine_resume 0 (engine_resume 0 rt))) = 3%nat
  ∧ engine_resume 0 (engine_resume 0 rt) ≠ engine_resume 0 rt
  ∧ loops_of shop returned = []
  ∧ loops_of shop (resumeBackup shop returned)
    = [{| task_engine := 1; task_storefront := shop; releases := true |}]
  ∧ loops_of shop (resumeBackup shop (resumeBackup shop returned))
    = [{| task_engine := 1; task_storefront := shop; releases := true |};
       {| task_engine := 1; task_storefront := shop; releases := false |}].
Proof.
  intros rt returned. split_and!; by vm_compute.
Qed.

(** What does hold of the control calls: [pause()] and [cancel()] are
    idempotent, on an engine and through [pauseBackup] and [cancelBackup].
    Of [resume()] the part that clears the flag is: the engines and
    [activeBackups] are after two calls what they are after one, while the
    started calls are one more on an existing engine, the engine not
    looking for a call of [run] that is still going. *)
Theorem control_calls_idempotence a sid rt :
  engine_pause a (engine_pause a rt) = engine_pause a rt
  ∧ engine_cancel a (engine_cancel a rt) = engine_cancel a rt
  ∧ pauseBackup sid (pauseBackup sid rt) = pauseBackup sid rt
  ∧ cancelBackup sid (cancelBackup sid rt) = cancelBackup sid rt
  ∧ engines (engine_resume a (engine_resume a rt)) = engines (engine_resume a rt)
  ∧ activeBackups (engine_resume a (engine_resume a rt))
    = activeBackups (engine_resume a rt)
  ∧ tasks (engine_resume a (engine_resume a rt))
    = tasks (engine_resume a rt)
      ++ match engines rt !! a with
         | Some e => [{| task_engine := a; task_storefront := storefrontId e;
                         releases := false |}]
         | None => []
         end.
Proof.
  assert (∀ e, pause (pause e) = pause e) as Hpause by done.
  assert (∀ e, cancel (cancel e) = cancel e) as Hcancel by done.
  assert (∀ e, unpause (unpause e) = unpause e) as Hunpause by done.
  repeat apply conj.
  - by apply update_engine_idemp.
  - by apply update_engine_idemp.
  - unfold pauseBackup. destruct (activeBackups rt !! sid) as [b|] eqn:Hb;
      simpl; rewrite Hb; [by apply update_engine_idemp | done].
  - unfold cancelBackup. destruct (activeBackups rt !! sid) as [b|] eqn:Hb;
      simpl; rewrite Hb; [by apply update_engine_idemp | done].
  - unfold engine_resume. destruct (engines rt !! a) as [e|] eqn:He;
      simpl; [|by rewrite He].
    rewrite lookup_alter_eq, He. simpl.
    by rewrite alter_idemp.
  - unfold engine_resume. destruct (engines rt !! a) as [e|] eqn:He;
      simpl; [|by rewrite He].
    by rewrite lookup_alter_eq, He.
  - unfold engine_resume. destruct (engines rt !! a) as [e|] eqn:He;
      simpl; [|by rewrite He, app_nil_r].
    by rewrite lookup_alter_eq, He.
Qed.

(* ===================================================================== *)
(** * What a run never does *)
(* ===================================================================== *)

Section Moves.

Variable R : World → World → Prop.
Variable I : World → Prop.
Hypothesis R_refl : ∀ w, I w → R w w.
Hypothesis R_trans : ∀ w1 w2 w3, R w1 w2 → R w2 w3 → R w1 w3.

Lemma moves_ret {A} (a : A) (P : A → World → Prop) w :
  I w → P a w → moves R (ret a) P w.
Proof. intros. split; auto. Qed.

Lemma moves_throw {A} (e : JsError) (P : A → World → Prop) w :
  I w → moves R (throw e) P w.
Proof. intros. by apply R_refl. Qed.

Lemma moves_seq {A B} (m : M A) (k : A → M B) Pm (P : B → World → Prop) w :
  moves R m Pm w →
  (∀ a w1, R w w1 → Pm a w1 → moves R (k a) P w1) →
  moves R (bind m k) P w.
Proof.
  unfold moves, wp, bind. intros Hm Hk.
  destruct (m w) as [[a|e] w1]; [|done]. destruct Hm as [HR HP].
  specialize (Hk a w1 HR HP).
  destruct (k a w1) as [[b|e] w2]; [|by eauto].
  destruct Hk. split; eauto.
Qed.

Lemma moves_conseq {A} (m : M A) (P P' : A → World → Prop) w :
  moves R m P w → (∀ a w', R w w' → P a w' → P' a w') → moves R m P' w.
Proof.
  unfold moves, wp. intros Hm HP. destruct (m w) as [[a|e] w']; [|done].
  destruct Hm. split; auto.
Qed.

Lemma moves_try_catch {A} (m : M A) (h : JsError → M A)
    (P : A → World → Prop) w :
  moves R m P w →
  (∀ e w1, R w w1 → moves R (h e) P w1) →
  moves R (try_catch m h) P w.
Proof.
  unfold moves, wp, try_catch. intros Hm Hh.
  destruct (m w) as [[a|e] w1]; [done|].
  specialize (Hh e w1 Hm). destruct (h e w1) as [[a|e'] w2].
  - destruct Hh. split; eauto.
  - eauto.
Qed.

Lemma moves_request {A} fault (f : World → A * World)
    (P : A → World → Prop) w :
  R w (count_request w) →
  (fault (requests w) = None →
     R w (count_request (f w).2) ∧ P (f w).1 (count_request (f w).2)) →
  moves R (request fault f) P w.
Proof.
  unfold moves, wp, request. intros Hfail Hok.
  destruct (fault (requests w)); auto.
Qed.

Lemma moves_now time (P : string → World → Prop) w :
  R w (tick w) → P (time (ticks w)) (tick w) → moves R (now time) P w.
Proof. by split. Qed.

Lemma moves_emit ev (P : unit → World → Prop) w :
  R w (emit ev w).2 → P tt (emit ev w).2 → moves R (emit ev) P w.
Proof. by split. Qed.

Lemma moves_world {A} (m : M A) (P : A → World → Prop) w :
  moves R m P w → R w (m w).2.
Proof. unfold moves, wp. by destruct (m w) as [[a|e] w']; [intros []|]. Qed.

End Moves.

Section Evolution.

Variable time : nat → string.
Variable fault : nat → option JsError.
Variable blob_size : gmap string Product → Z.
Variable sid : string.

Lemma logs_grow_same w w' : logs w' = logs w → logs_grow sid w w'.
Proof. intros Heq. exists []. by rewrite app_nil_r. Qed.

Lemma logs_grow_trans w1 w2 w3 :
  logs_grow sid w1 w2 → logs_grow sid w2 w3 → logs_grow sid w1 w3.
Proof.
  intros (new1 & Hl1 & H1) (new2 & Hl2 & H2). exists (new1 ++ new2).
  split; [by rewrite Hl2, Hl1, app_assoc|by apply Forall_app].
Qed.

Lemma events_grow_same w w' : events w' = events w → events_grow sid w w'.
Proof. intros Heq. exists []. by rewrite app_nil_r. Qed.

Lemma events_grow_trans w1 w2 w3 :
  events_grow sid w1 w2 → events_grow sid w2 w3 → events_grow sid w1 w3.
Proof.
  intros (new1 & Hl1 & H1) (new2 & Hl2 & H2). exists (new1 ++ new2).
  split; [by rewrite Hl2, Hl1, app_assoc|by apply Forall_app].
Qed.

Lemma events_grow_prefix w w' :
  events_grow sid w w' → events w `prefix_of` events w'.
Proof. intros (new & -> & _). by apply prefix_app_r. Qed.

Lemma evolves_refl w : keyed w → evolves sid w w.
Proof.
  intros Hk. unfold evolves. split_and!; try done.
  - by apply logs_grow_same.
  - by apply events_grow_same.
Qed.

Lemma evolves_trans w1 w2 w3 :
  evolves sid w1 w2 → evolves sid w2 w3 → evolves sid w1 w3.
Proof.
  intros (_ & Hd1 & Hl1 & He1 & Hs1 & Hp1) (Hk & Hd2 & Hl2 & He2 & Hs2 & Hp2).
  unfold evolves. split_and!; try done.
  - by etrans.
  - by eapply logs_grow_trans.
  - by eapply events_grow_trans.
  - intros other Hne. destruct (Hs1 other Hne), (Hs2 other Hne).
    split; congruence.
  - intros k p Hp Hsid Hkey. apply Hp2; auto.
Qed.

Lemma evolves_keyed w w' : evolves sid w w' → keyed w'.
Proof. by intros []. Qed.

(** Steps that leave the three stores alone. *)
Lemma evolves_frame w w' :
  keyed w → stores w' = stores w →
  logs_grow sid w w' → events_grow sid w w' →
  evolves sid w w'.
Proof.
  intros Hk (Hs & Hp & Hc)%stores_eq Hl He.
  unfold evolves, keyed in *. rewrite Hs, Hp, Hc.
  destruct Hk as (?&?&?). by split_and!.
Qed.

Lemma evolves_put_storefront w s :
  keyed w → sf_id s = sid →
  evolves sid w
    (count_request (set_storefronts (<[sf_id s := s]> (storefronts w)) w)).
Proof.
  intros (Hks & Hkp & Hkc) Hs. unfold evolves, keyed; split_and!; simpl; try done;
    try (by apply logs_grow_same); try (by apply events_grow_same).
  - by apply map_Forall_insert_2.
  - intros other Hne. rewrite Hs. by rewrite lookup_insert_ne.
Qed.

Lemma evolves_put_cursor w c :
  keyed w → bc_storefront_id c = sid →
  evolves sid w
    (count_request
       (set_backup_cursors (<[bc_storefront_id c := c]> (backup_cursors w)) w)).
Proof.
  intros (Hks & Hkp & Hkc) Hc. unfold evolves, keyed; split_and!; simpl; try done;
    try (by apply logs_grow_same); try (by apply events_grow_same).
  - by apply map_Forall_insert_2.
  - intros other Hne. rewrite Hc. by rewrite lookup_insert_ne.
Qed.

Lemma evolves_delete_cursor w :
  keyed w →
  evolves sid w
    (count_request (set_backup_cursors (delete sid (backup_cursors w)) w)).
Proof.
  intros (Hks & Hkp & Hkc). unfold evolves, keyed; split_and!; simpl; try done;
    try (by apply logs_grow_same); try (by apply events_grow_same).
  - by apply map_Forall_delete.
  - intros other Hne. by rewrite lookup_delete_ne.
Qed.

Lemma keyed_put_all (ps : list Product) : ∀ m : gmap string Product,
  map_Forall (λ k p, p_id p = k) m →
  map_Forall (λ k p, p_id p = k) (foldl (λ m p, <[p_id p := p]> m) m ps).
Proof.
  induction ps as [|p ps IH]; intros m Hm; simpl; [done|].
  apply IH. by apply map_Forall_insert_2.
Qed.

Lemma dom_put_all (ps : list Product) : ∀ m : gmap string Product,
  dom m ⊆ dom (foldl (λ m p, <[p_id p := p]> m) m ps).
Proof.
  induction ps as [|p ps IH]; intros m; simpl; [done|].
  etrans; [|apply IH]. rewrite dom_insert. set_solver.
Qed.

Lemma evolves_put_products w ns ps :
  keyed w → Forall2 (transformed sid) ns ps →
  evolves sid w
    (count_request
       (set_products (foldl (λ m p, <[p_id p := p]> m) (products w) ps) w)).
Proof.
  intros (Hks & Hkp & Hkc) Hps. unfold evolves, keyed; split_and!; simpl; try done;
    try (by apply logs_grow_same); try (by apply events_grow_same).
  - by apply keyed_put_all.
  - apply dom_put_all.
  - intros k p Hp Hsid Hkey.
    destruct (lookup_put_all ps (products w) k) as [Hout _].
    rewrite Hout; [done|].
    destruct (Forall2_transformed_ids _ _ _ Hps) as [-> _].
    intros (n & -> & _)%list_elem_of_fmap. by apply (Hkey (gp_id n)).
Qed.

Lemma mark_removed_id activeIds ts p :
  p_id (mark_removed sid activeIds ts p) = p_id p.
Proof. unfold mark_removed. by destruct (_ && _). Qed.

Lemma evolves_mark_removed w activeIds ts :
  keyed w →
  evolves sid w
    (count_request
       (set_products (mark_removed sid activeIds ts <$> products w) w)).
Proof.
  intros (Hks & Hkp & Hkc). unfold evolves, keyed; split_and!; simpl; try done;
    try (by apply logs_grow_same); try (by apply events_grow_same).
  - intros k p. rewrite lookup_fmap.
    destruct (products w !! k) as [q|] eqn:Hq; simpl; [|done].
    intros [= <-]. rewrite mark_removed_id. by apply (Hkp k q).
  - by rewrite dom_fmap.
  - intros k p Hp Hsid _. rewrite lookup_fmap, Hp. simpl. f_equal.
    unfold mark_removed. by rewrite bool_decide_eq_false_2.
Qed.


Local Abbreviation Rv := (evolves sid).

Local Hint Resolve evolves_refl evolves_trans evolves_keyed : core.

Lemma evolves_count_request w : keyed w → Rv w (count_request w).
Proof.
  intros. apply evolves_frame;
    [done..|by apply logs_grow_same|by apply events_grow_same].
Qed.

Lemma evolves_tick w : keyed w → Rv w (tick w).
Proof.
  intros. apply evolves_frame;
    [done..|by apply logs_grow_same|by apply events_grow_same].
Qed.

Lemma evolves_emit ev w : keyed w → own_event sid ev → Rv w (emit ev w).2.
Proof.
  intros Hk Hev. apply evolves_frame; simpl; [done..|by apply logs_grow_same|].
  exists [ev]. split; [done|]. by constructor.
Qed.

Lemma evolves_add_log entry w :
  keyed w → log_storefront_id entry = sid →
  Rv w (count_request (set_logs (logs w ++ [entry]) w)).
Proof.
  intros Hk Hentry. apply evolves_frame; simpl;
    [done|done| |by apply events_grow_same].
  exists [entry]. split; [done|]. by constructor.
Qed.

(** A request that reads. *)
Lemma read_moves {A} (g : World → A) (P : A → Prop) w :
  keyed w → P (g w) →
  moves Rv (request fault (λ w, (g w, w))) (λ a _, P a) w.
Proof.
  intros Hk HP. apply moves_request; [by apply evolves_count_request|].
  intros _. simpl. split; [by apply evolves_count_request|done].
Qed.

Lemma now_moves w : keyed w → moves Rv (now time) (λ _ _, True) w.
Proof. intros. apply moves_now; [by apply evolves_tick|done]. Qed.

Lemma emit_moves ev w :
  keyed w → own_event sid ev → moves Rv (emit ev) (λ _ _, True) w.
Proof. intros. apply moves_emit; [by apply evolves_emit|done]. Qed.

Lemma getStorefront_moves w :
  keyed w →
  moves Rv (getStorefront fault sid) (λ r _, ∀ s, r = Some s → sf_id s = sid) w.
Proof.
  intros Hk. apply (read_moves (λ w, storefronts w !! sid)); [done|].
  intros s Hs. destruct Hk as (Hks & _). by apply (Hks sid s).
Qed.

Lemma getBackupCursor_moves w :
  keyed w →
  moves Rv (getBackupCursor fault sid)
    (λ r _, ∀ c, r = Some c → bc_storefront_id c = sid) w.
Proof.
  intros Hk. apply (read_moves (λ w, backup_cursors w !! sid)); [done|].
  intros c Hc. destruct Hk as (_ & _ & Hkc). by apply (Hkc sid c).
Qed.

Lemma putStorefront_moves s w :
  keyed w → sf_id s = sid → moves Rv (putStorefront fault s) (λ _ _, True) w.
Proof.
  intros Hk Hs. apply moves_request; [by apply evolves_count_request|].
  intros _. simpl. split; [by apply evolves_put_storefront|done].
Qed.

Lemma putBackupCursor_moves c w :
  keyed w → bc_storefront_id c = sid →
  moves Rv (putBackupCursor fault c) (λ _ _, True) w.
Proof.
  intros Hk Hc. apply moves_request; [by apply evolves_count_request|].
  intros _. simpl. split; [by apply evolves_put_cursor|done].
Qed.

Lemma deleteBackupCursor_moves w :
  keyed w → moves Rv (deleteBackupCursor fault sid) (λ _ _, True) w.
Proof.
  intros Hk. apply moves_request; [by apply evolves_count_request|].
  intros _. simpl. split; [by apply evolves_delete_cursor|done].
Qed.

Lemma putProducts_moves ns ps w :
  keyed w → Forall2 (transformed sid) ns ps →
  moves Rv (putProducts fault ps) (λ _ _, True) w.
Proof.
  intros Hk Hps. apply moves_request; [by apply evolves_count_request|].
  intros _. simpl. split; [by eapply evolves_put_products|done].
Qed.

Lemma markProductsRemoved_moves activeIds ts w :
  keyed w →
  moves Rv (markProductsRemoved fault sid activeIds ts) (λ _ _, True) w.
Proof.
  intros Hk. apply moves_request; [by apply evolves_count_request|].
  intros _. simpl. split; [by apply evolves_mark_removed|done].
Qed.

Lemma addLog_moves entry w :
  keyed w → log_storefront_id entry = sid →
  moves Rv (addLog fault entry) (λ _ _, True) w.
Proof.
  intros Hk Hentry. apply moves_request; [by apply evolves_count_request|].
  intros _. simpl. split; [by apply evolves_add_log|done].
Qed.

Ltac mv_seq lem :=
  eapply (moves_seq Rv evolves_trans); [eapply lem; eauto | cbv beta].

Ltac mv_ret := apply (moves_ret Rv keyed evolves_refl); [eauto|].

Ltac mv_emit :=
  eapply (moves_seq Rv evolves_trans);
    [apply emit_moves; [eauto|first [exact I|reflexivity]] | cbv beta].

Lemma log_moves level message detail w :
  keyed w → moves Rv (log time fault sid level message detail) (λ _ _, True) w.
Proof.
  intros Hk. unfold log. mv_seq now_moves. intros stamp w1 H1 _.
  apply addLog_moves; [eauto|done].
Qed.

Lemma markPartial_moves w :
  keyed w → moves Rv (markPartial fault sid) (λ _ _, True) w.
Proof.
  intros Hk. unfold markPartial. mv_seq getStorefront_moves.
  intros [s|] w1 H1 Hs; [|by mv_ret].
  apply putStorefront_moves; [eauto|]. simpl. by apply Hs.
Qed.

Lemma fetchPage_moves cursor o w :
  keyed w → moves Rv (fetchPage sid cursor o) (λ _ _, True) w.
Proof.
  intros Hk. unfold fetchPage. mv_emit. intros _ w1 H1 _.
  destruct o; [by mv_ret|]. apply (moves_throw Rv keyed evolves_refl). eauto.
Qed.

Lemma delay_moves ms w : keyed w → moves Rv (delay ms) (λ _ _, True) w.
Proof. intros. by apply emit_moves. Qed.

Lemma notify_moves title message w :
  keyed w → moves Rv (notify title message) (λ _ _, True) w.
Proof. intros. by apply emit_moves. Qed.

Lemma fetch_with_retry_moves cursor r w :
  keyed w →
  moves Rv (fetch_with_retry time fault sid cursor r) (λ _ _, True) w.
Proof.
  intros Hk. unfold fetch_with_retry.
  mv_seq fetchPage_moves. intros response w1 H1 _.
  destruct (throttled response); [|by mv_ret].
  mv_seq log_moves. intros _ w2 H2 _.
  mv_seq delay_moves. intros _ w3 H3 _.
  mv_seq fetchPage_moves. intros retry w4 H4 _.
  destruct (throttled retry); [|by mv_ret].
  mv_seq log_moves. intros _ w5 H5 _.
  mv_seq markPartial_moves. intros _ w6 H6 _. by mv_ret.
Qed.

Lemma mapM_transformProduct_moves ns : ∀ w,
  keyed w →
  moves Rv (mapM (transformProduct time sid) ns)
    (λ ps _, Forall2 (transformed sid) ns ps) w.
Proof.
  induction ns as [|n ns IH]; intros w Hk; simpl.
  - mv_ret. constructor.
  - eapply (moves_seq Rv evolves_trans _ _ (λ p _, transformed sid n p)).
    + unfold moves, wp.
      destruct (transformProduct_shape time sid n w)
        as [(p & -> & _ & Hp)|[e ->]].
      * split; [by apply evolves_tick|done].
      * by apply evolves_refl.
    + intros p w1 H1 Hp. mv_seq IH. intros ps w2 H2 Hps.
      mv_ret. by constructor.
Qed.

Lemma apply_page_moves cursor seenIds response w :
  keyed w → bc_storefront_id cursor = sid →
  moves Rv (apply_page time fault sid cursor seenIds response)
    (λ res _, match res with
              | inr (cursor', _, _) => bc_storefront_id cursor' = sid
              | inl _ => True
              end) w.
Proof.
  intros Hk Hc. unfold apply_page.
  destruct (bool_decide (status response ≠ 200)).
  { mv_seq log_moves. intros _ w1 H1 _.
    mv_seq markPartial_moves. intros _ w2 H2 _.
    mv_seq notify_moves. intros _ w3 H3 _. by mv_ret. }
  destruct (data (body response)) as [pd|].
  2: { mv_seq log_moves. intros _ w1 H1 _.
       mv_seq markPartial_moves. intros _ w2 H2 _. by mv_ret. }
  mv_seq mapM_transformProduct_moves. intros ps w1 H1 Hps.
  mv_seq putProducts_moves. intros _ w2 H2 _.
  mv_seq putBackupCursor_moves. intros _ w3 H3 _.
  mv_emit. intros _ w4 H4 _. by mv_ret.
Qed.

Lemma post_loop_moves storefront e cursor seenIds w :
  keyed w → storefrontId e = sid → sf_id storefront = sid →
  moves Rv (post_loop time fault blob_size storefront e cursor seenIds)
    (λ _ _, True) w.
Proof.
  intros Hk He Hs. unfold post_loop. rewrite He. destruct (cancelled e).
  { mv_seq markPartial_moves. intros _ w1 H1 _.
    mv_seq deleteBackupCursor_moves. intros _ w2 H2 _.
    mv_seq log_moves. intros _ w3 H3 _. by mv_ret. }
  destruct (paused e).
  { mv_seq putStorefront_moves. intros _ w1 H1 _.
    mv_seq log_moves. intros _ w2 H2 _. by mv_ret. }
  mv_seq now_moves. intros completedAt w1 H1 _.
  mv_seq markProductsRemoved_moves. intros _ w2 H2 _.
  unfold getProductCount, estimateStorefrontSize.
  mv_seq (read_moves (λ w, Z.of_nat (size (of_storefront sid (products w))))
            (λ _, True)).
  intros productCount w3 H3 _.
  eapply (moves_seq Rv evolves_trans _ _ (λ _ _, True)).
  { mv_seq (read_moves (λ w, of_storefront sid (products w)) (λ _, True)).
    intros ps w4 H4 _. by mv_ret. }
  intros sizeBytes w5 H5 _.
  mv_seq putStorefront_moves. intros _ w6 H6 _.
  mv_seq deleteBackupCursor_moves. intros _ w7 H7 _.
  mv_seq addLog_moves. intros _ w8 H8 _.
  mv_seq notify_moves. intros _ w9 H9 _. by mv_ret.
Qed.

Lemma loop_moves storefront script : ∀ e cursor seenIds w,
  keyed w → storefrontId e = sid → sf_id storefront = sid →
  bc_storefront_id cursor = sid →
  moves Rv (loop time fault blob_size storefront e cursor seenIds script)
    (λ _ _, True) w.
Proof.
  induction script as [|r rest IH]; intros e cursor seenIds w Hk He Hs Hc;
    simpl; destruct (paused e || cancelled e);
    try (by apply post_loop_moves).
  - rewrite He. mv_emit. intros _ w1 H1 _. by mv_ret.
  - rewrite He. mv_seq fetch_with_retry_moves.
    intros [out|response] w1 H1 _; [by mv_ret|].
    mv_seq apply_page_moves.
    intros [out|[[cursor' seenIds'] more]] w2 H2 Hc'; [by mv_ret|].
    assert (storefrontId (deliver (signals r) e) = sid) as He'
      by (by rewrite deliver_storefrontId).
    destruct more.
    + mv_seq delay_moves. intros _ w3 H3 _. apply IH; eauto.
    + apply post_loop_moves; eauto.
Qed.

Lemma on_error_moves err w :
  keyed w → moves Rv (on_error time fault sid err) (λ _ _, True) w.
Proof.
  intros Hk. unfold on_error. destruct (bool_decide _).
  - mv_seq markPartial_moves. intros _ w1 H1 _.
    mv_seq notify_moves. intros _ w2 H2 _.
    mv_seq log_moves. intros _ w3 H3 _. by mv_ret.
  - mv_seq markPartial_moves. intros _ w1 H1 _.
    mv_seq log_moves. intros _ w2 H2 _. by mv_ret.
Qed.

End Evolution.

Section RunEvolves.

Variable time : nat → string.
Variable fault : nat → option JsError.
Variable blob_size : gmap string Product → Z.

Lemma run_body_moves e pre script w :
  keyed w →
  moves (evolves (storefrontId e))
    (run_body time fault blob_size e pre script) (λ _ _, True) w.
Proof.
  intros Hk. unfold run_body. set (sid := storefrontId e).
  eapply (moves_seq _ (evolves_trans sid)); [by apply getStorefront_moves|].
  intros found w1 H1 Hfound. cbv beta.
  eapply (moves_seq _ (evolves_trans sid));
    [apply now_moves; by eapply evolves_keyed|].
  intros created w2 H2 _. cbv beta.
  set (storefront := match found with
                     | Some s => set_status InProgress s
                     | None => _
                     end).
  assert (sf_id storefront = sid) as Hs.
  { unfold storefront. destruct found as [s|]; [|done]. simpl. by apply Hfound. }
  clearbody storefront.
  eapply (moves_seq _ (evolves_trans sid));
    [apply putStorefront_moves; [by eapply evolves_keyed|done]|].
  intros _ w3 H3 _. cbv beta.
  eapply (moves_seq _ (evolves_trans sid));
    [apply getBackupCursor_moves; by eapply evolves_keyed|].
  intros stored w4 H4 Hstored. cbv beta.
  eapply (moves_seq _ (evolves_trans sid) _ _ (λ _ _, True)).
  { destruct stored as [c|]; [destruct (bc_cursor c)|].
    - apply log_moves. by eapply evolves_keyed.
    - apply (moves_ret _ keyed (evolves_refl sid)); [by eapply evolves_keyed|done].
    - apply (moves_ret _ keyed (evolves_refl sid)); [by eapply evolves_keyed|done]. }
  intros _ w5 H5 _. cbv beta.
  eapply (moves_seq _ (evolves_trans sid) _ _
            (λ c _, bc_storefront_id c = sid)).
  { destruct stored as [c|].
    - apply (moves_ret _ keyed (evolves_refl sid)); [by eapply evolves_keyed|].
      by apply Hstored.
    - eapply (moves_seq _ (evolves_trans sid));
        [apply now_moves; by eapply evolves_keyed|].
      intros started w6 H6 _. cbv beta.
      eapply (moves_seq _ (evolves_trans sid));
        [apply putBackupCursor_moves; [by eapply evolves_keyed|done]|].
      intros _ w7 H7 _. cbv beta.
      apply (moves_ret _ keyed (evolves_refl sid)); [by eapply evolves_keyed|done]. }
  intros cursor w6 H6 Hc. cbv beta.
  apply loop_moves; [by eapply evolves_keyed| |done|done].
  apply deliver_storefrontId.
Qed.

(** Whatever a call of [run] ends in, it has moved the world along
    [evolves]. *)
Lemma run_evolves e pre script w :
  keyed w →
  evolves (storefrontId e) w (run time fault blob_size e pre script w).2.
Proof.
  intros Hk. apply (moves_world _ _ (λ _ _, True)). unfold run.
  apply (moves_try_catch _ (evolves_trans (storefrontId e))).
  - by apply run_body_moves.
  - intros err w1 H1. apply on_error_moves. by eapply evolves_keyed.
Qed.

End RunEvolves.


Section RunNever.

Variable time : nat → string.
Variable fault : nat → option JsError.
Variable blob_size : gmap string Product → Z.

(** X1.  However a call of [run] ends (a [return], the [catch] block or a
    rejection), every entity that was in the product store is still in it:
    the engine never hard-deletes. *)
Theorem run_never_drops_a_product e pre script w k :
  keyed w →
  is_Some (products w !! k) →
  is_Some (products (run time fault blob_size e pre script w).2 !! k).
Proof.
  intros Hk Hin. destruct (run_evolves time fault blob_size e pre script w Hk)
    as (_ & Hdom & _).
  apply elem_of_dom, Hdom. by apply elem_of_dom.
Qed.

(** X2.  However a call of [run] ends, the log entries that existed are
    unchanged and in place: the call only appends to the log, and every
    entry it appends carries the storefront id of the call. *)
Theorem run_only_appends_to_the_log e pre script w :
  keyed w →
  ∃ new, logs (run time fault blob_size e pre script w).2 = logs w ++ new
         ∧ Forall (λ l, log_storefront_id l = storefrontId e) new.
Proof.
  intros Hk. by destruct (run_evolves time fault blob_size e pre script w Hk)
    as (_ & _ & Hlogs & _).
Qed.

(** X3.  However a call of [run] for a storefront ends, the record and the
    cursor of every other storefront are as they were, and so is every
    product of another storefront whose key is not a composite key of the
    storefront of the run. *)
Theorem run_leaves_other_storefronts_alone e pre script w other :
  keyed w →
  other ≠ storefrontId e →
  let w' := (run time fault blob_size e pre script w).2 in
  storefronts w' !! other = storefronts w !! other
  ∧ backup_cursors w' !! other = backup_cursors w !! other
  ∧ ∀ k p, products w !! k = Some p → p_storefront_id p = other →
           (∀ x, k ≠ product_key (storefrontId e) x) →
           products w' !! k = Some p.
Proof.
  intros Hk Hother w'.
  destruct (run_evolves time fault blob_size e pre script w Hk)
    as (_ & _ & _ & _ & Hiso & Hprod).
  destruct (Hiso other Hother). split_and!; [done..|].
  intros k p Hp Hsid Hkey. apply Hprod; [done| |done]. by rewrite Hsid.
Qed.

(** X22.  However a call of [run] for a storefront ends, every page
    request it has sent went to the GraphQL endpoint of that storefront:
    the call contacts no other host. *)
Theorem run_requests_only_its_own_endpoint e pre script w :
  keyed w →
  ∃ new, events (run time fault blob_size e pre script w).2 = events w ++ new
         ∧ ∀ url cursor, EFetch url cursor ∈ new →
                         url = endpoint (storefrontId e).
Proof.
  intros Hk.
  destruct (run_evolves time fault blob_size e pre script w Hk)
    as (_ & _ & _ & (new & Hnew & Hown) & _).
  exists new. split; [done|]. intros url cursor Hin.
  rewrite Forall_forall in Hown. by apply (Hown _ Hin).
Qed.

End RunNever.


(* ===================================================================== *)
(** * What a run records *)
(* ===================================================================== *)

Ltac xp_io :=
  first
    [ wp_step
    | lazymatch goal with
      | |- wp (request _ _) _ anything _ =>
          apply wp_request; [intros; exact I | intros _]
      | H : faults_meet _ ?E |- wp (request _ _) _ ?E _ =>
          apply wp_request; [intros; by apply H | intros _]
      | |- wp (now _) _ _ _ => apply wp_now
      end ].

Ltac xp_apply lem :=
  repeat (lazymatch goal with |- wp (bind _ _) _ _ _ => apply wp_bind end);
  eapply wp_conseq; [apply lem | cbv beta].

Lemma keyed_stores w w' : stores w' = stores w → keyed w → keyed w'.
Proof.
  intros (Hs & Hp & Hc)%stores_eq. unfold keyed. by rewrite Hs, Hp, Hc.
Qed.

Section Records.

Variable time : nat → string.
Variable fault : nat → option JsError.
Variable blob_size : gmap string Product → Z.

(** A property of the exits of the loop holds of the loop when it holds
    after step 4 and of the [return]s inside the loop. *)
Lemma loop_exit (Q : Outcome → World → Prop) sid storefront script :
  (∀ out w, match out with
            | RunComplete _ _ | RunPaused | RunCancelled => True
            | _ => Q out w
            end) →
  (∀ e cursor seenIds w,
     storefrontId e = sid →
     wp (post_loop time fault blob_size storefront e cursor seenIds)
        Q anything w) →
  ∀ e cursor seenIds w,
    storefrontId e = sid →
    wp (loop time fault blob_size storefront e cursor seenIds script)
       Q anything w.
Proof.
  intros Hin Hpost.
  induction script as [|r rest IH]; intros e cursor seenIds w He; simpl;
    destruct (paused e || cancelled e); try by apply Hpost.
  - repeat xp_io. apply (Hin InFlight).
  - xp_apply fetch_with_retry_spec. intros [out|response] w1 H1.
    { destruct H1 as (-> & _). repeat xp_io. apply (Hin StoppedThrottled). }
    xp_apply apply_page_spec.
    intros [out|[[cursor' seenIds'] more]] w2 H2.
    { destruct H2 as ([->|[st ->]] & _); repeat xp_io;
        [apply (Hin StoppedNoData)|apply (Hin (StoppedHttp st))]. }
    destruct more;
      [|apply Hpost; by rewrite deliver_storefrontId]. repeat xp_io. apply IH.
    by rewrite deliver_storefrontId.
Qed.

(** Steps 1 and 2 hand the loop the storefront record, which carries the
    id and is the stored one, and the start checkpoint, which is then the
    stored one; they fetch nothing and leave the products alone. *)
Lemma run_body_exit (Q : Outcome → World → Prop) E e pre script w :
  faults_meet fault E →
  keyed w →
  (∀ storefront w1,
     keyed w1 →
     sf_id storefront = storefrontId e →
     storefronts w1 !! storefrontId e = Some storefront →
     backup_cursors w1 !! storefrontId e
       = Some (start_cursor time (storefrontId e) w) →
     products w1 = products w → events w1 = events w →
     wp (loop time fault blob_size storefront (deliver pre e)
           (start_cursor time (storefrontId e) w) ∅ script)
        Q E w1) →
  wp (run_body time fault blob_size e pre script) Q E w.
Proof.
  intros HE (Hks & Hkp & Hkc) Hloop.
  unfold run_body, getStorefront, putStorefront, getBackupCursor.
  do 8 xp_io. cbn [fst snd].
  set (storefront := match storefronts w !! storefrontId e with
                     | Some s => set_status InProgress s
                     | None => _
                     end).
  assert (sf_id storefront = storefrontId e) as Hid.
  { unfold storefront.
    destruct (storefronts w !! storefrontId e) as [s|] eqn:Hs; [|done].
    simpl. by apply (Hks (storefrontId e) s). }
  clearbody storefront. simpl.
  assert (map_Forall (λ k s, sf_id s = k)
            (<[sf_id storefront := storefront]> (storefronts w))) as Hks'.
  { by apply map_Forall_insert_2. }
  unfold start_cursor in Hloop.
  destruct (backup_cursors w !! storefrontId e) as [c|] eqn:Hc;
    simpl in Hloop |- *.
  - destruct (bc_cursor c).
    + xp_apply log_effect; [done|].
      intros _ w2 (H2 & H2e & _).
      assert (keyed w2) as Hk2 by (by eapply keyed_stores).
      injection H2 as H2s H2p H2c.
      xp_io. xp_io. apply Hloop; try done.
      * by rewrite H2s, Hid, lookup_insert_eq.
      * by rewrite H2c.
    + do 4 xp_io. apply Hloop; try done.
      simpl. by rewrite Hid, lookup_insert_eq.
  - xp_io. xp_io. unfold putBackupCursor. do 6 xp_io.
    apply Hloop; try done; simpl.
    + split_and!; try done. simpl. by apply map_Forall_insert_2.
    + by rewrite Hid, lookup_insert_eq.
    + by rewrite lookup_insert_eq.
Qed.

(** X4.  On natural completion the storefront record counts every entity
    of the storefront that is in the store, the soft-deleted ones included,
    and its size is that of the same set; the count is the one the
    completion notification announces. *)
Theorem completion_counts_every_stored_entity e pre script w seen completedAt w' :
  keyed w →
  run time fault blob_size e pre script w
    = (Normal (RunComplete seen completedAt), w') →
  let sid := storefrontId e in
  let stored := of_storefront sid (products w') in
  ∃ s, storefronts w' !! sid = Some s
       ∧ product_count s = Z.of_nat (size stored)
       ∧ size_bytes s = blob_size stored
       ∧ last (events w')
         = Some (ENotify "Backup complete"
                   ("Backup complete: " +:+ sid +:+ " â€” "
                      +:+ pretty (Z.of_nat (size stored))
                      +:+ " products backed up.")).
Proof.
  intros Hk Hrun sid stored. apply run_returned in Hrun; [|done].
  set (Q := λ (out : Outcome) (w' : World),
         match out with
         | RunComplete _ _ =>
             ∃ s, storefronts w' !! sid = Some s
                  ∧ product_count s
                    = Z.of_nat (size (of_storefront sid (products w')))
                  ∧ size_bytes s = blob_size (of_storefront sid (products w'))
                  ∧ last (events w')
                    = Some (ENotify "Backup complete"
                              ("Backup complete: " +:+ sid +:+ " â€” "
                                 +:+ pretty (Z.of_nat
                                      (size (of_storefront sid (products w'))))
                                 +:+ " products backed up."))
         | _ => True
         end).
  assert (wp (run_body time fault blob_size e pre script) Q anything w) as Hwp.
  { apply run_body_exit; [apply faults_meet_anything|done|].
    intros storefront w1 _ Hs _ _ _ _.
    apply (loop_exit Q sid); [by intros []| |apply deliver_storefrontId].
    clear w1.
    intros e1 cursor seenIds w1 He1. unfold post_loop. rewrite He1.
    destruct (cancelled e1).
    { xp_apply markPartial_spec. intros _ w2 _.
      unfold deleteBackupCursor. xp_io. xp_io.
      xp_apply log_spec. intros _ w3 _. by xp_io. }
    destruct (paused e1).
    { unfold putStorefront. xp_io. xp_io.
      xp_apply log_spec. intros _ w3 _. by xp_io. }
    unfold markProductsRemoved, getProductCount, estimateStorefrontSize,
      putStorefront, deleteBackupCursor, addLog.
    repeat xp_io. cbn. rewrite Hs. fold sid.
    eexists. rewrite lookup_insert_eq. split; [done|]. simpl.
    split_and!; try done. apply last_snoc. }
  exact (wp_returns _ _ _ _ _ _ Hwp Hrun).
Qed.

Lemma fetch_with_retry_round sid cursor r w :
  wp (fetch_with_retry time fault sid cursor r)
     (λ res w', used_response r = match res with
                                  | inr response => Some response
                                  | inl _ => None
                                  end
                ∧ backup_cursors w' = backup_cursors w)
     anything w.
Proof.
  apply wp_and.
  - unfold fetch_with_retry, used_response.
    destruct (attempt1 r) as [st1 json1 hint1|err1];
      [|unfold fetchPage; by repeat xp_io].
    xp_apply fetchPage_settled. intros response w1 (-> & _).
    destruct (throttled (response_of st1 json1 hint1)); [|by xp_io].
    xp_apply log_spec. intros _ w2 _. xp_io. xp_io.
    destruct (attempt2 r) as [st2 json2 hint2|err2];
      [|unfold fetchPage; by repeat xp_io].
    xp_apply fetchPage_settled. intros retry w3 (-> & _).
    destruct (throttled (response_of st2 json2 hint2)); [|by xp_io].
    xp_apply log_spec. intros _ w4 _.
    xp_apply markPartial_spec. intros _ w5 _. by xp_io.
  - eapply wp_conseq; [apply fetch_with_retry_spec|].
    intros [out|response] w' H; [by destruct H as (_&_&_&?)|].
    by apply stores_eq in H as (_&_&?).
Qed.

Lemma apply_page_checkpoint sid cursor seenIds response w :
  wp (apply_page time fault sid cursor seenIds response)
     (λ res w',
        match res with
        | inl _ =>
            response_page response = None
            ∧ backup_cursors w' = backup_cursors w
        | inr (cursor', _, more) =>
            ∃ pd, response_page response = Some pd
                  ∧ cursor' = advance pd cursor
                  ∧ more = hasNextPage (pageInfo pd)
                  ∧ backup_cursors w'
                    = <[bc_storefront_id cursor := cursor']> (backup_cursors w)
        end)
     anything w.
Proof.
  unfold apply_page, response_page.
  case_bool_decide as Hstatus.
  { rewrite bool_decide_eq_false_2 by done.
    xp_apply log_spec. intros _ w1 H1.
    xp_apply markPartial_spec. intros _ w2 (_ & _ & H2c).
    repeat xp_io. apply stores_eq in H1 as (_&_&?). simpl.
    split; [done|congruence]. }
  rewrite bool_decide_eq_true_2 by done.
  destruct (data (body response)) as [pd|].
  2: { xp_apply log_spec. intros _ w1 H1.
       xp_apply markPartial_spec. intros _ w2 (_ & _ & H2c).
       xp_io. apply stores_eq in H1 as (_&_&?). split; [done|congruence]. }
  xp_apply mapM_transformProduct_spec. intros ps w1 [_ (_&_&H1c&_)].
  unfold putProducts, putBackupCursor. repeat xp_io. simpl.
  exists pd. by rewrite H1c.
Qed.

Lemma post_loop_cursor storefront e cursor seenIds w :
  wp (post_loop time fault blob_size storefront e cursor seenIds)
     (λ out w', match out with
                | RunPaused => backup_cursors w' = backup_cursors w
                | RunCancelled | RunComplete _ _ => True
                | _ => False
                end)
     anything w.
Proof.
  unfold post_loop. destruct (cancelled e).
  { xp_apply markPartial_spec. intros _ w1 _.
    unfold deleteBackupCursor. xp_io. xp_io.
    xp_apply log_spec. intros _ w2 _. by xp_io. }
  destruct (paused e).
  { unfold putStorefront. xp_io. xp_io.
    xp_apply log_spec. intros _ w2 H2. xp_io.
    by apply stores_eq in H2 as (_&_&?). }
  unfold markProductsRemoved, getProductCount, estimateStorefrontSize,
    putStorefront, deleteBackupCursor, addLog.
  by repeat xp_io.
Qed.

Lemma loop_checkpoint sid storefront script : ∀ e cursor seenIds w,
  bc_storefront_id cursor = sid →
  backup_cursors w !! sid = Some cursor →
  wp (loop time fault blob_size storefront e cursor seenIds script)
     (λ out w', resumable out →
                backup_cursors w' !! sid
                  = Some (checkpoint cursor (applied_pages e script)))
     anything w.
Proof.
  assert (∀ e cursor seenIds w,
            backup_cursors w !! sid = Some cursor →
            wp (post_loop time fault blob_size storefront e cursor seenIds)
               (λ out w', resumable out →
                          backup_cursors w' !! sid = Some cursor)
               anything w) as Hpost.
  { intros e cursor seenIds w Hc.
    eapply wp_conseq; [apply post_loop_cursor|].
    intros [] w' Hout Hres; try done. by rewrite Hout. }
  induction script as [|r rest IH]; intros e cursor seenIds w Hid Hc; simpl;
    destruct (paused e || cancelled e); try by apply Hpost.
  - by repeat xp_io.
  - xp_apply fetch_with_retry_round. intros [out|response] w1 [H1 H1c].
    { xp_io. intros _. rewrite H1. simpl. by rewrite H1c. }
    rewrite H1. simpl.
    xp_apply apply_page_checkpoint.
    intros [out|[[cursor' seenIds'] more]] w2 H2.
    { destruct H2 as [-> H2c]. xp_io. intros _. simpl. by rewrite H2c, H1c. }
    destruct H2 as (pd & -> & -> & -> & H2c). simpl.
    assert (backup_cursors w2 !! sid = Some (advance pd cursor)) as Hc'.
    { by rewrite H2c, Hid, lookup_insert_eq. }
    destruct (hasNextPage (pageInfo pd)).
    + repeat xp_io. by apply IH.
    + by apply Hpost.
Qed.

Lemma traversed_applied_pages script : ∀ e,
  traversed e script = concat (map nodes (applied_pages e script)).
Proof.
  induction script as [|r rest IH]; intros e; simpl;
    destruct (paused e || cancelled e); try done.
  destruct (used_response r ≫= response_page) as [pd|]; [|done]. simpl.
  destruct (hasNextPage (pageInfo pd)); [by rewrite IH|].
  by rewrite !app_nil_r.
Qed.

Lemma checkpoint_fields pages : ∀ c,
  bc_storefront_id (checkpoint c pages) = bc_storefront_id c
  ∧ bc_cursor (checkpoint c pages)
    = from_option (λ pd, endCursor (pageInfo pd)) (bc_cursor c) (last pages)
  ∧ started_at (checkpoint c pages) = started_at c
  ∧ products_fetched (checkpoint c pages)
    = products_fetched c + Z.of_nat (length (concat (map nodes pages)))
  ∧ total_products (checkpoint c pages) = total_products c.
Proof.
  induction pages as [|pd pages IH]; intros c.
  - simpl. split_and!; try done. lia.
  - destruct (IH (advance pd c)) as (H1 & H2 & H3 & H4 & H5).
    change (checkpoint c (pd :: pages)) with (checkpoint (advance pd c) pages).
    rewrite H1, H2, H3, H4, H5. simpl. split_and!; try done.
    + rewrite last_cons. by destruct (last pages).
    + rewrite length_app. lia.
Qed.

(** X5.  When a call of [run] returns without finishing or being
    cancelled, the stored checkpoint is the start checkpoint moved past
    the pages that were applied: its position is the end of the last of
    them, its count has grown by their records, and the start time and the
    estimated total are the ones it began with. *)
Theorem checkpoint_is_past_the_applied_pages e pre script w out w' :
  keyed w →
  run time fault blob_size e pre script w = (Normal out, w') →
  resumable out →
  let sid := storefrontId e in
  let c0 := start_cursor time sid w in
  ∃ c, backup_cursors w' !! sid = Some c
       ∧ bc_storefront_id c = sid
       ∧ bc_cursor c
         = from_option (λ pd, endCursor (pageInfo pd)) (bc_cursor c0)
             (last (applied_pages (deliver pre e) script))
       ∧ started_at c = started_at c0
       ∧ products_fetched c
         = products_fetched c0
           + Z.of_nat (length (traversed (deliver pre e) script))
       ∧ total_products c = total_products c0.
Proof.
  intros Hk Hrun Hout sid c0.
  apply run_returned in Hrun; [|by destruct out].
  assert (bc_storefront_id c0 = sid) as Hid.
  { unfold c0, start_cursor.
    destruct (backup_cursors w !! sid) as [c|] eqn:Hc; [|done].
    destruct Hk as (_ & _ & Hkc). by apply (Hkc sid c). }
  assert (wp (run_body time fault blob_size e pre script)
            (λ out w', resumable out →
               backup_cursors w' !! sid
                 = Some (checkpoint c0 (applied_pages (deliver pre e) script)))
            anything w) as Hwp.
  { apply run_body_exit; [apply faults_meet_anything|done|].
    intros storefront w1 _ _ _ Hc _ _. by apply loop_checkpoint. }
  apply (wp_returns _ _ _ _ _ _ Hwp) in Hrun; [|done].
  eexists. split; [done|].
  destruct (checkpoint_fields (applied_pages (deliver pre e) script) c0)
    as (H1 & H2 & H3 & H4 & H5).
  rewrite traversed_applied_pages. split_and!; congruence.
Qed.

(** X6.  [pause()] or [cancel()] called before the first flag check: with
    the store working, the call requests no page and touches no product;
    a cancel wins over a pause.  The cancelled call leaves the storefront
    [partial] without a checkpoint, the paused one leaves it [paused] with
    the start checkpoint stored. *)
Theorem signal_before_the_first_page e pre script w :
  (∀ k, fault k = None) →
  keyed w →
  paused (deliver pre e) || cancelled (deliver pre e) = true →
  let sid := storefrontId e in
  let stop := cancelled (deliver pre e) in
  ∃ w', run time fault blob_size e pre script w
          = (Normal (if stop then RunCancelled else RunPaused), w')
        ∧ events w' = events w
        ∧ products w' = products w
        ∧ status_of sid w' = Some (if stop then Partial else Paused)
        ∧ backup_cursors w' !! sid
          = (if stop then None else Some (start_cursor time sid w)).
Proof.
  intros Hok Hk Hflags sid stop.
  pose proof (faults_meet_nothing fault Hok) as HE.
  assert (∃ w', run_body time fault blob_size e pre script w
                  = (Normal (if stop then RunCancelled else RunPaused), w')
                ∧ events w' = events w
                ∧ products w' = products w
                ∧ status_of sid w' = Some (if stop then Partial else Paused)
                ∧ backup_cursors w' !! sid
                  = (if stop then None else Some (start_cursor time sid w)))
    as (w' & Hrun & H).
  { apply wp_total_value. apply run_body_exit; [done..|].
    intros storefront w1 _ Hid Hs Hc Hp Hev.
    fold sid in Hid, Hs, Hc |- *.
    assert (loop time fault blob_size storefront (deliver pre e)
              (start_cursor time sid w) ∅ script
            = post_loop time fault blob_size storefront (deliver pre e)
                (start_cursor time sid w) ∅) as ->.
    { destruct script; simpl; by rewrite Hflags. }
    unfold post_loop. rewrite deliver_storefrontId. fold sid. subst stop.
    destruct (cancelled (deliver pre e)).
    - xp_apply markPartial_effect; [done|].
      intros _ w2 (H2s & H2p & H2c & H2e & _).
      unfold deleteBackupCursor. xp_io. xp_io.
      xp_apply log_effect; [done|].
      intros _ w3 (H3 & H3e & _). apply stores_eq in H3 as (H3s & H3p & H3c).
      xp_io. split; [done|]. unfold status_of.
      rewrite H3e, H3p, H3s, H3c. simpl.
      rewrite H2e, H2p, H2s, lookup_delete_eq. unfold mark_partial_in.
      split_and!; try done. by rewrite Hs, Hid, lookup_insert_eq.
    - rewrite orb_false_r in Hflags. rewrite Hflags.
      unfold putStorefront. xp_io. xp_io.
      xp_apply log_effect; [done|].
      intros _ w3 (H3 & H3e & _). apply stores_eq in H3 as (H3s & H3p & H3c).
      xp_io. split; [done|]. unfold status_of.
      rewrite H3e, H3p, H3s, H3c. simpl.
      rewrite Hid. by rewrite lookup_insert_eq. }
  exists w'. split; [|done]. unfold run, try_catch. by rewrite Hrun.
Qed.

End Records.


(* ===================================================================== *)
(** * Where a run starts fetching *)
(* ===================================================================== *)

Lemma bind_bind {A B C} (m : M A) (k : A → M B) (k' : B → M C) w :
  bind (bind m k) k' w = bind m (λ a, bind (k a) k') w.
Proof. unfold bind. by destruct (m w) as [[a|e] w1]. Qed.

Section FirstRequest.

Variable time : nat → string.
Variable fault : nat → option JsError.
Variable blob_size : gmap string Product → Z.

Local Hint Resolve evolves_refl evolves_trans evolves_keyed : core.

(** With the flags clear, the loop first sends the request for the page at
    its cursor; what follows only adds to the events. *)
Lemma loop_first_fetch sid storefront script e cursor seenIds w :
  keyed w → storefrontId e = sid → sf_id storefront = sid →
  bc_storefront_id cursor = sid →
  paused e || cancelled e = false →
  evolves sid (emit (EFetch (endpoint sid) (bc_cursor cursor)) w).2
    (loop time fault blob_size storefront e cursor seenIds script w).2.
Proof.
  intros Hk He Hs Hc Hflags.
  assert (keyed (emit (EFetch (endpoint sid) (bc_cursor cursor)) w).2) as Hk'
    by done.
  destruct script as [|r rest]; simpl; rewrite Hflags, He.
  { by apply evolves_refl. }
  unfold fetch_with_retry, fetchPage. rewrite !bind_bind.
  set (rest_of_iteration := λ _ : unit, bind _ _).
  change (evolves sid (emit (EFetch (endpoint sid) (bc_cursor cursor)) w).2
            (rest_of_iteration tt
               (emit (EFetch (endpoint sid) (bc_cursor cursor)) w).2).2).
  set (w0 := (emit (EFetch (endpoint sid) (bc_cursor cursor)) w).2) in *.
  clearbody w0. unfold rest_of_iteration. clear rest_of_iteration.
  apply (moves_world _ _ (λ _ _, True)).
  eapply (moves_seq _ (evolves_trans sid) _ _ (λ _ _, True)).
  { destruct (attempt1 r).
    - by apply (moves_ret _ keyed (evolves_refl sid)).
    - by apply (moves_throw _ keyed (evolves_refl sid)). }
  intros response w1 H1 _. cbv beta.
  eapply (moves_seq _ (evolves_trans sid) _ _ (λ _ _, True)).
  { destruct (throttled response);
      [|apply (moves_ret _ keyed (evolves_refl sid)); eauto].
    eapply (moves_seq _ (evolves_trans sid));
      [eapply log_moves; eauto|]. intros _ w2 H2 _. cbv beta.
    eapply (moves_seq _ (evolves_trans sid));
      [eapply delay_moves; eauto|]. intros _ w3 H3 _. cbv beta.
    eapply (moves_seq _ (evolves_trans sid));
      [eapply fetchPage_moves; eauto|]. intros retry w4 H4 _. cbv beta.
    destruct (throttled retry);
      [|apply (moves_ret _ keyed (evolves_refl sid)); eauto].
    eapply (moves_seq _ (evolves_trans sid));
      [eapply log_moves; eauto|]. intros _ w5 H5 _. cbv beta.
    eapply (moves_seq _ (evolves_trans sid));
      [eapply markPartial_moves; eauto|]. intros _ w6 H6 _. cbv beta.
    apply (moves_ret _ keyed (evolves_refl sid)); eauto. }
  intros [out|response'] w2 H2 _; cbv beta.
  { apply (moves_ret _ keyed (evolves_refl sid)); eauto. }
  eapply (moves_seq _ (evolves_trans sid));
    [eapply apply_page_moves; eauto|].
  intros [out|[[cursor' seenIds'] more]] w3 H3 Hc'; cbv beta.
  { apply (moves_ret _ keyed (evolves_refl sid)); eauto. }
  assert (storefrontId (deliver (signals r) e) = sid) as He'
    by (by rewrite deliver_storefrontId).
  destruct more.
  - eapply (moves_seq _ (evolves_trans sid));
      [eapply delay_moves; eauto|]. intros _ w4 H4 _. cbv beta.
    apply loop_moves; eauto.
  - apply post_loop_moves; eauto.
Qed.

(** X7.  With the store working and no [pause()] or [cancel()] before the
    first flag check, the first thing a call of [run] sends is the request
    for the page at its start checkpoint: the stored position when it
    resumes, the first page otherwise. *)
Theorem first_request_is_at_the_start_checkpoint e pre script w :
  (∀ k, fault k = None) →
  keyed w →
  paused (deliver pre e) || cancelled (deliver pre e) = false →
  let sid := storefrontId e in
  events w ++ [EFetch (endpoint sid) (bc_cursor (start_cursor time sid w))]
    `prefix_of` events (run time fault blob_size e pre script w).2.
Proof.
  intros Hok Hk Hflags sid.
  set (ev := EFetch (endpoint sid) (bc_cursor (start_cursor time sid w))).
  set (G := λ w' : World, keyed w' ∧ events w ++ [ev] `prefix_of` events w').
  assert (faults_meet fault (λ _, G)) as HE.
  { intros w1 err Herr. by rewrite Hok in Herr. }
  assert (bc_storefront_id (start_cursor time sid w) = sid) as Hid.
  { unfold start_cursor.
    destruct (backup_cursors w !! sid) as [c|] eqn:Hc; [|done].
    destruct Hk as (_ & _ & Hkc). by apply (Hkc sid c). }
  assert (wp (run_body time fault blob_size e pre script)
            (λ _, G) (λ _, G) w) as Hbody.
  { apply run_body_exit; [done..|].
    intros storefront w1 Hk1 Hs _ _ _ Hev. fold sid in Hs |- *.
    pose proof (loop_first_fetch sid storefront script (deliver pre e)
                  (start_cursor time sid w) ∅ w1 Hk1
                  (deliver_storefrontId _ _) Hs Hid Hflags) as Hloop.
    fold ev in Hloop.
    assert (G (loop time fault blob_size storefront (deliver pre e)
                 (start_cursor time sid w) ∅ script w1).2) as HG.
    { split; [by eapply evolves_keyed|].
      destruct Hloop as (_ & _ & _ & Hevs & _).
      apply events_grow_prefix in Hevs. simpl in Hevs.
      by rewrite Hev in Hevs. }
    unfold wp. by destruct (loop _ _ _ _ _ _ _ _ _) as [[out|err] w2]. }
  unfold run, try_catch. unfold wp in Hbody.
  destruct (run_body time fault blob_size e pre script w) as [[out|err] w1];
    [by destruct Hbody|].
  destruct Hbody as [Hk1 Hevs].
  pose proof (moves_world _ _ _ _
                (on_error_moves time fault sid err w1 Hk1)) as Herr.
  destruct Herr as (_ & _ & _ & Hevs' & _).
  apply events_grow_prefix in Hevs'. by etrans.
Qed.

End FirstRequest.


(* ===================================================================== *)
(** * The properties above on concrete runs *)
(* ===================================================================== *)

(** The incremental run keeps C, which the catalog no longer returns. *)
Lemma run_never_drops_a_product_witness :
  is_Some (products (run clock0 no_fault size0 shop_engine []
                       incremental_rounds catalog_abc).2 !! key_of "C").
Proof.
  apply (run_never_drops_a_product clock0 no_fault size0 shop_engine []
           incremental_rounds catalog_abc (key_of "C")).
  - unfold keyed. by_computation.
  - by_computation.
Defined.

Lemma run_only_appends_to_the_log_witness :
  ∃ new, logs (run clock0 no_fault size0 shop_engine [] failing_rounds
                 two_shops).2
         = logs two_shops ++ new
         ∧ Forall (λ l, log_storefront_id l = shop) new.
Proof.
  apply (run_only_appends_to_the_log clock0 no_fault size0 shop_engine []
           failing_rounds two_shops).
  unfold keyed. by_computation.
Defined.

(** A backup of [shop] next to the paused backup of [other_shop]. *)
Lemma run_leaves_other_storefronts_alone_witness :
  let w' := (run clock0 no_fault size0 shop_engine [] incremental_rounds
               two_shops).2 in
  storefronts w' !! other_shop = storefronts two_shops !! other_shop
  ∧ backup_cursors w' !! other_shop = backup_cursors two_shops !! other_shop
  ∧ products w' !! p_id other_product = Some other_product.
Proof.
  intros w'.
  destruct (run_leaves_other_storefronts_alone clock0 no_fault size0
              shop_engine [] incremental_rounds two_shops other_shop)
    as (Hs & Hc & Hp).
  - unfold keyed. by_computation.
  - discriminate.
  - split; [exact Hs|]. split; [exact Hc|].
    apply Hp.
    + vm_compute. reflexivity.
    + reflexivity.
    + intros x. discriminate.
Defined.

Lemma completion_counts_every_stored_entity_witness :
  let w' := (run clock0 no_fault size0 shop_engine [] incremental_rounds
               catalog_abc).2 in
  ∃ s, storefronts w' !! shop = Some s
       ∧ product_count s = 3
       ∧ size (active_ids shop (products w')) = 2%nat.
Proof.
  intros w'.
  destruct (completion_counts_every_stored_entity clock0 no_fault size0
              shop_engine [] incremental_rounds catalog_abc
              {[key_of "A"; key_of "B"]} "T4" w')
    as (s & Hs & Hcount & _).
  - unfold keyed. by_computation.
  - vm_compute. reflexivity.
  - exists s. split; [exact Hs|]. split.
    + rewrite Hcount. vm_compute. reflexivity.
    + vm_compute. reflexivity.
Defined.

(** Paused after the first of two pages. *)
Lemma checkpoint_is_past_the_applied_pages_witness :
  ∃ c, backup_cursors paused_world !! shop = Some c
       ∧ bc_cursor c = Some "c1" ∧ products_fetched c = 1.
Proof.
  destruct (checkpoint_is_past_the_applied_pages clock0 no_fault size0
              shop_engine [] first_page_then_pause empty_world RunPaused
              paused_world)
    as (c & Hc & _ & Htok & _ & Hn & _).
  - unfold keyed. by_computation.
  - vm_compute. reflexivity.
  - exact I.
  - exists c. split; [exact Hc|]. split.
    + rewrite Htok. reflexivity.
    + rewrite Hn. reflexivity.
Defined.

(** [cancel()] and [pause()] both arrive before the first flag check. *)
Lemma signal_before_the_first_page_witness :
  ∃ w', run clock0 no_fault size0 shop_engine [CPause; CCancel] three_pages
          catalog_abc
          = (Normal RunCancelled, w')
        ∧ events w' = [] ∧ products w' = products catalog_abc
        ∧ status_of shop w' = Some Partial
        ∧ backup_cursors w' !! shop = None.
Proof.
  apply (signal_before_the_first_page clock0 no_fault size0 shop_engine
           [CPause; CCancel] three_pages catalog_abc).
  - reflexivity.
  - unfold keyed. by_computation.
  - reflexivity.
Defined.

(** The call that resumes the paused backup asks for the page at [c1]. *)
Lemma first_request_is_at_the_start_checkpoint_witness :
  events paused_world ++ [EFetch (endpoint shop) (Some "c1")]
    `prefix_of` events (run clock0 no_fault size0 shop_engine [] second_page
                          paused_world).2.
Proof.
  apply (first_request_is_at_the_start_checkpoint clock0 no_fault size0
           shop_engine [] second_page paused_world).
  - reflexivity.
  - unfold keyed. by_computation.
  - reflexivity.
Defined.


(* ===================================================================== *)
(** * The storage adapter *)
(* ===================================================================== *)

Lemma filter_filter_out {A} (P Q : A → Prop) `{∀ x, Decision (P x)}
    `{∀ x, Decision (Q x)} (l : list A) :
  (∀ x, P x → Q x → False) → filter P (filter Q l) = [].
Proof.
  intros HPQ. induction l as [|x l IH]; [done|].
  rewrite (filter_cons Q). destruct (decide (Q x)); [|done].
  rewrite filter_cons. destruct (decide (P x)); [|done]. by destruct (HPQ x).
Qed.

Lemma filter_filter_keep {A} (P Q : A → Prop) `{∀ x, Decision (P x)}
    `{∀ x, Decision (Q x)} (l : list A) :
  (∀ x, P x → Q x) → filter P (filter Q l) = filter P l.
Proof.
  intros HPQ. induction l as [|x l IH]; [done|].
  rewrite (filter_cons Q), (filter_cons P).
  destruct (decide (Q x)) as [HQ|HQ], (decide (P x)) as [HP|HP].
  - rewrite filter_cons, decide_True by done. by rewrite IH.
  - rewrite filter_cons, decide_False by done. done.
  - destruct HQ. by apply HPQ.
  - done.
Qed.

Lemma length_filter_split {A} (P : A → Prop) `{∀ x, Decision (P x)}
    (l : list A) :
  (length (filter P l) + length (filter (λ x, ¬ P x) l) = length l)%nat.
Proof.
  induction l as [|x l IH]; [done|].
  rewrite !filter_cons. destruct (decide (P x)).
  - rewrite decide_False by tauto. simpl. lia.
  - rewrite decide_True by done. simpl. lia.
Qed.

Lemma ltb_irrefl s : String.ltb s s = false.
Proof.
  unfold String.ltb. pose proof (String.compare_antisym s s) as Hs.
  by destruct (String.compare s s).
Qed.

(** What a batch of puts leaves under a key: the last record of the batch
    with that id, or what the store held. *)
Lemma lookup_put_all_last (ps : list Product) : ∀ (m : gmap string Product) k,
  foldl (λ m p, <[p_id p := p]> m) m ps !! k
  = match last (filter (λ p, p_id p = k) ps) with
    | Some p => Some p
    | None => m !! k
    end.
Proof.
  induction ps as [|p ps IH]; intros m k; simpl; [done|].
  rewrite IH, filter_cons. destruct (decide (p_id p = k)) as [<-|Hne].
  - rewrite last_cons, lookup_insert_eq.
    by destruct (last (filter _ ps)).
  - by rewrite lookup_insert_ne.
Qed.

Section Adapter.

Variable fault : nat → option JsError.

(** X8.  [deleteStorefront] purges one storefront and nothing else: its
    record, its checkpoint, its products and its log entries are gone, and
    what the store holds for any other storefront is what it held. *)
Theorem deleteStorefront_purges_exactly id w :
  fault (requests w) = None →
  ∃ w', deleteStorefront fault id w = (Normal tt, w')
        ∧ storefronts w' !! id = None
        ∧ backup_cursors w' !! id = None
        ∧ of_storefront id (products w') = ∅
        ∧ logs_of id (logs w') = []
        ∧ ∀ other, other ≠ id →
            storefronts w' !! other = storefronts w !! other
            ∧ backup_cursors w' !! other = backup_cursors w !! other
            ∧ of_storefront other (products w')
              = of_storefront other (products w)
            ∧ logs_of other (logs w') = logs_of other (logs w).
Proof.
  intros Hok. unfold deleteStorefront, request, logs_of. rewrite Hok.
  eexists. split; [done|]. simpl. split_and!.
  - apply lookup_delete_eq.
  - apply lookup_delete_eq.
  - unfold of_storefront. apply map_empty. intros k.
    apply map_lookup_filter_None. right.
    intros p [Hp Hne]%map_lookup_filter_Some Heq. by destruct Hne.
  - by apply filter_filter_out.
  - intros other Hne. split_and!.
    + by apply lookup_delete_ne.
    + by apply lookup_delete_ne.
    + unfold of_storefront. apply map_eq. intros k. apply option_eq. intros p.
      rewrite !map_lookup_filter_Some. simpl. split.
      * by intros [[Hp _] Hq].
      * intros [Hp Hq]. split_and!; try done. congruence.
    + apply filter_filter_keep. by intros l ->.
Qed.

Lemma mark_removed_again sid activeIds t1 t2 p :
  mark_removed sid activeIds t2 (mark_removed sid activeIds t1 p)
  = mark_removed sid activeIds t1 p.
Proof.
  destruct (mark_removed_cases sid activeIds t1 p)
    as [(_ & _ & _ & ->)|[Hnot ->]].
  - by destruct (mark_removed_cases sid activeIds t2
                   (set_removed_at (Some t1) p))
      as [(_ & _ & ? & _)|[_ ->]].
  - by destruct (mark_removed_cases sid activeIds t2 p)
      as [(? & ? & ? & _)|[_ ->]]; [destruct Hnot|].
Qed.

(** X9.  The first removal time wins: [markProductsRemoved] never changes
    a record that already has a removal time, whatever set of active ids
    it is given, and called again with the same set, at any later time, it
    changes nothing at all. *)
Theorem markProductsRemoved_first_time_wins sid activeIds activeIds' t1 t2 w :
  fault (requests w) = None →
  fault (S (requests w)) = None →
  let w1 := (markProductsRemoved fault sid activeIds t1 w).2 in
  let w2 := (markProductsRemoved fault sid activeIds' t2 w1).2 in
  (∀ k p, products w1 !! k = Some p → is_Some (removed_at p) →
          products w2 !! k = Some p)
  ∧ (activeIds' = activeIds → products w2 = products w1).
Proof.
  intros Hok1 Hok2 w1 w2. unfold w2, w1, markProductsRemoved, request.
  rewrite Hok1. simpl. rewrite Hok2. simpl. split.
  - intros k p Hp [t Ht]. rewrite lookup_fmap, Hp. simpl. f_equal.
    destruct (mark_removed_cases sid activeIds' t2 p)
      as [(_ & _ & Hnone & _)|[_ ->]]; [congruence|done].
  - intros ->. rewrite <- map_fmap_compose. apply map_fmap_ext.
    intros k p _. apply mark_removed_again.
Qed.

(** X10.  [putProducts] is an upsert by id in which the last record of
    the batch wins: under each id the store then holds the last record of
    the batch with that id, or what it held before.  Writing the same
    batch a second time changes nothing. *)
Theorem putProducts_last_wins ps w :
  fault (requests w) = None →
  fault (S (requests w)) = None →
  let w1 := (putProducts fault ps w).2 in
  let w2 := (putProducts fault ps w1).2 in
  (∀ k, products w1 !! k
        = match last (filter (λ p, p_id p = k) ps) with
          | Some p => Some p
          | None => products w !! k
          end)
  ∧ products w2 = products w1.
Proof.
  intros Hok1 Hok2 w1 w2. unfold w2, w1, putProducts, request.
  rewrite Hok1. simpl. rewrite Hok2. simpl. split.
  - intros k. apply lookup_put_all_last.
  - apply map_eq. intros k. rewrite !lookup_put_all_last.
    by destruct (last (filter _ ps)).
Qed.

(** X11.  [clearLogs]: with a storefront id it removes the entries of
    that storefront and leaves every other entry where it was; without
    one it empties the log. *)
Theorem clearLogs_removes_exactly storefrontId w :
  fault (requests w) = None →
  ∃ w', clearLogs fault storefrontId w = (Normal tt, w')
        ∧ stores w' = stores w
        ∧ match storefrontId with
          | None => logs w' = []
          | Some sid =>
              logs_of sid (logs w') = []
              ∧ logs w' `sublist_of` logs w
              ∧ ∀ other, other ≠ sid →
                  logs_of other (logs w') = logs_of other (logs w)
          end.
Proof.
  intros Hok.
  destruct storefrontId as [sid|]; unfold clearLogs, request, logs_of;
    rewrite Hok; (eexists; split; [done|]); simpl; (split; [done|]);
    [|done].
  split_and!.
  - by apply filter_filter_out.
  - apply sublist_filter.
  - intros other Hne. apply filter_filter_keep. by intros l ->.
Qed.

End Adapter.

Section Pruning.

Variable fault : nat → option JsError.
Variable date_now : nat → Z.
Variable toISOString : Z → string.

(** X12.  [pruneOldLogs] returns the number of entries it removed.  It
    removes the entries stamped before the cutoff and no other: an entry
    stamped exactly at the cutoff stays, and the entries that stay keep
    their order. *)
Theorem pruneOldLogs_counts_what_it_removes daysOld w :
  fault (requests w) = None →
  let cutoff :=
    toISOString (date_now (ticks w) - daysOld * 24 * 60 * 60 * 1000) in
  ∃ deleted w',
    pruneOldLogs fault date_now toISOString daysOld w = (Normal deleted, w')
    ∧ deleted = Z.of_nat (length (logs w)) - Z.of_nat (length (logs w'))
    ∧ stores w' = stores w
    ∧ logs w' `sublist_of` logs w
    ∧ (∀ l, l ∈ logs w' ↔
            l ∈ logs w ∧ String.ltb (log_timestamp l) cutoff = false)
    ∧ (∀ l, l ∈ logs w → log_timestamp l = cutoff → l ∈ logs w').
Proof.
  intros Hok cutoff. unfold pruneOldLogs, now_ms, bind, request. simpl.
  rewrite Hok. fold cutoff. eexists _, _. split; [done|]. simpl.
  assert (∀ l, l ∈ filter (λ l, ¬ String.ltb (log_timestamp l) cutoff)
                     (logs w)
               ↔ l ∈ logs w ∧ String.ltb (log_timestamp l) cutoff = false)
    as Hkept.
  { intros l. rewrite list_elem_of_filter.
    destruct (String.ltb (log_timestamp l) cutoff); simpl;
      intuition congruence. }
  split_and!.
  - pose proof (length_filter_split
                  (λ l, String.ltb (log_timestamp l) cutoff) (logs w)). lia.
  - done.
  - apply sublist_filter.
  - done.
  - intros l Hl Heq. apply Hkept. split; [done|].
    rewrite Heq. apply ltb_irrefl.
Qed.

End Pruning.


(* ===================================================================== *)
(** * Identifiers and keys *)
(* ===================================================================== *)

Lemma split_on_nonempty sep s : split_on sep s ≠ [].
Proof.
  destruct s as [|c rest]; simpl; [done|].
  destruct (decide (c = sep)); [done|]. by destruct (split_on sep rest).
Qed.

Lemma split_on_app sep pre n :
  split_on sep (pre +:+ String sep n) = split_on sep pre ++ split_on sep n.
Proof.
  induction pre as [|c rest IH]; simpl.
  - by rewrite decide_True.
  - destruct (decide (c = sep)); [by rewrite IH|].
    rewrite IH. pose proof (split_on_nonempty sep rest).
    by destruct (split_on sep rest).
Qed.

Lemma split_on_absent sep s : has_char sep s = false → split_on sep s = [s].
Proof.
  induction s as [|c rest IH]; simpl; [done|].
  intros [Hc Hrest]%orb_false_elim. apply bool_decide_eq_false in Hc.
  rewrite decide_False by done. by rewrite IH.
Qed.

Lemma split_on_parts sep s :
  Forall (λ part, has_char sep part = false) (split_on sep s).
Proof.
  induction s as [|c rest IH]; simpl; [by constructor|].
  destruct (decide (c = sep)); [by constructor|].
  destruct (split_on sep rest) as [|part parts].
  - constructor; [|constructor]. simpl. by rewrite bool_decide_eq_false_2.
  - inversion_clear IH as [|?? Hpart Hparts]. constructor; [|done].
    simpl. by rewrite bool_decide_eq_false_2.
Qed.

Lemma last_default_app {A} (l1 l2 : list A) d :
  l2 ≠ [] → List.last (l1 ++ l2) d = List.last l2 d.
Proof.
  intros Hl2. induction l1 as [|x l1 IH]; [done|].
  simpl. rewrite IH. destruct (l1 ++ l2) eqn:Happ; [|done].
  by apply app_eq_nil in Happ as [_ ->].
Qed.

(** X13.  [extractShopifyId] returns the text after the last slash: the
    final segment of a global id is read back whatever precedes it, and an
    id without a slash is returned as it is.  The result never contains a
    slash. *)
Theorem extractShopifyId_is_the_last_segment :
  (∀ pre n, has_char "/" n = false →
            extractShopifyId (pre +:+ "/" +:+ n) = n)
  ∧ (∀ gid, has_char "/" gid = false → extractShopifyId gid = gid)
  ∧ (∀ gid, has_char "/" (extractShopifyId gid) = false).
Proof.
  unfold extractShopifyId. split_and!.
  - intros pre n Hn. change ("/" +:+ n) with (String "/" n).
    rewrite split_on_app, last_default_app by apply split_on_nonempty.
    by rewrite split_on_absent.
  - intros gid Hgid. by rewrite split_on_absent.
  - intros gid. pose proof (split_on_parts "/" gid) as Hparts.
    pose proof (split_on_nonempty "/" gid) as Hne.
    induction (split_on "/" gid) as [|part parts IH]; [done|].
    inversion_clear Hparts as [|?? Hpart Hrest].
    destruct parts as [|part' parts]; [done|]. by apply IH.
Qed.

Lemma product_key_prefix sid1 : ∀ sid2 x y,
  has_char ":" sid1 = false → has_char ":" sid2 = false →
  sid1 +:+ String ":" x = sid2 +:+ String ":" y → sid1 = sid2 ∧ x = y.
Proof.
  induction sid1 as [|c1 rest1 IH]; intros [|c2 rest2] x y; simpl.
  - intros _ _ [= ->]. done.
  - intros _ [Hc _]%orb_false_elim [= <- _].
    by apply bool_decide_eq_false in Hc.
  - intros [Hc _]%orb_false_elim _ [= -> _].
    by apply bool_decide_eq_false in Hc.
  - intros [_ H1]%orb_false_elim [_ H2]%orb_false_elim [= -> Heq].
    by destruct (IH rest2 x y H1 H2 Heq) as [-> ->].
Qed.

(** X14.  The composite key determines the storefront and the source id,
    for storefront ids without a colon, as host names are: records of
    different storefronts, or of different source ids, never share a
    key. *)
Theorem product_key_determines_its_parts sid1 sid2 x y :
  has_char ":" sid1 = false → has_char ":" sid2 = false →
  product_key sid1 x = product_key sid2 y → sid1 = sid2 ∧ x = y.
Proof.
  unfold product_key. intros H1 H2 Heq.
  change ("::" +:+ x) with (String ":" (String ":" x)) in Heq.
  change ("::" +:+ y) with (String ":" (String ":" y)) in Heq.
  destruct (product_key_prefix sid1 sid2 _ _ H1 H2 Heq) as [-> [= ->]]. done.
Qed.


(* ===================================================================== *)
(** * Escaping attribute values *)
(* ===================================================================== *)

Lemma escapeAttr_cons c rest :
  escapeAttr (String c rest) = escape_char c +:+ escapeAttr rest.
Proof.
  unfold escapeAttr, escape_char. simpl.
  destruct (decide (c = "&"%char)) as [->|?]; [done|]. simpl.
  destruct (decide (c = dquote)) as [->|?]; [done|]. simpl.
  destruct (decide (c = "'"%char)) as [->|?]; [done|]. simpl.
  destruct (decide (c = "<"%char)) as [->|?]; [done|]. simpl.
  destruct (decide (c = ">"%char)) as [->|?]; done.
Qed.

Lemma has_char_app c s1 s2 :
  has_char c (s1 +:+ s2) = has_char c s1 || has_char c s2.
Proof.
  induction s1 as [|d s1 IH]; simpl; [done|]. by rewrite IH, orb_assoc.
Qed.

Lemma escapeAttr_each s : escapeAttr s = escape_each s.
Proof.
  induction s as [|c rest IH]; [done|].
  rewrite escapeAttr_cons, IH. done.
Qed.

Lemma append_assoc s1 s2 s3 : (s1 +:+ s2) +:+ s3 = s1 +:+ (s2 +:+ s3).
Proof.
  induction s1 as [|c s1 IH]; [done|].
  change (String c ((s1 +:+ s2) +:+ s3) = String c (s1 +:+ (s2 +:+ s3))).
  by rewrite IH.
Qed.

Lemma escape_each_app s1 s2 :
  escape_each (s1 +:+ s2) = escape_each s1 +:+ escape_each s2.
Proof.
  induction s1 as [|c s1 IH]; [done|].
  change (escape_char c +:+ escape_each (s1 +:+ s2)
          = (escape_char c +:+ escape_each s1) +:+ escape_each s2).
  rewrite IH. symmetry. apply append_assoc.
Qed.

(** X15.  The five replacements of [escapeAttr], in their order, amount to
    one pass that escapes each character of the input once: an ampersand
    that a later replacement writes is not escaped again, and one that the
    input has is.  So escaping goes through concatenation. *)
Theorem escapeAttr_is_one_pass s1 s2 :
  escapeAttr s1 = escape_each s1
  ∧ escapeAttr (s1 +:+ s2) = escapeAttr s1 +:+ escapeAttr s2.
Proof.
  split; [apply escapeAttr_each|].
  rewrite !escapeAttr_each. apply escape_each_app.
Qed.

(** X16.  The result of [escapeAttr] contains no double quote, no single
    quote and no angle bracket, whatever the input. *)
Theorem escapeAttr_leaves_no_delimiter s :
  has_char dquote (escapeAttr s) = false
  ∧ has_char "'" (escapeAttr s) = false
  ∧ has_char "<" (escapeAttr s) = false
  ∧ has_char ">" (escapeAttr s) = false.
Proof.
  rewrite escapeAttr_each.
  induction s as [|c rest (IH1 & IH2 & IH3 & IH4)]; [done|].
  simpl. rewrite !has_char_app, IH1, IH2, IH3, IH4, !orb_false_r.
  unfold escape_char.
  repeat (destruct (decide _) as [->|?]; [done|]).
  simpl. rewrite !orb_false_r. by rewrite !bool_decide_eq_false_2.
Qed.

(* ===================================================================== *)
(** * Pages of the product table *)
(* ===================================================================== *)

Lemma ceil_div_bounds a b :
  0 < b → (ceil_div a b - 1) * b < a ≤ ceil_div a b * b.
Proof.
  intros Hb. unfold ceil_div.
  pose proof (Z.div_mod (- a) b ltac:(lia)) as Hdm.
  pose proof (Z.mod_pos_bound (- a) b Hb) as Hmod. nia.
Qed.

Lemma length_slice {A} (from to : Z) (xs : list A) :
  0 ≤ from ≤ to →
  Z.of_nat (length (slice from to xs))
  = Z.max 0 (Z.min to (Z.of_nat (length xs)) - from).
Proof.
  intros Hft. unfold slice. rewrite length_take, length_drop. lia.
Qed.

(** X17.  For a list that is not empty and a positive page size,
    [renderTable] always shows a page that exists and is not empty,
    whatever [currentPage] was: a page number past the end is brought back
    to the last page and one below 1 to the first, a number in range is
    kept.  The label counts the rows shown, and the next button is
    disabled exactly when the rows shown reach the end of the list. *)
Theorem renderTable_shows_an_existing_page {A} (sorted : list A)
    (pageSize currentPage : Z) :
  0 < pageSize → sorted ≠ [] →
  let len := Z.of_nat (length sorted) in
  let v := renderTable sorted pageSize currentPage in
  1 ≤ view_currentPage v ≤ view_totalPages v
  ∧ (1 ≤ currentPage ≤ view_totalPages v → view_currentPage v = currentPage)
  ∧ (currentPage > view_totalPages v →
       view_currentPage v = view_totalPages v)
  ∧ 0 ≤ view_start v < view_end v
  ∧ view_end v ≤ len
  ∧ Z.of_nat (length (view_pageItems v)) = view_end v - view_start v
  ∧ view_end v - view_start v ≤ pageSize
  ∧ (view_prev_disabled v = true ↔ view_start v = 0)
  ∧ (view_next_disabled v = true ↔ view_end v = len).
Proof.
  intros Hps Hne len v.
  assert (1 ≤ len) as Hlen.
  { unfold len. destruct sorted; [done|]. simpl. lia. }
  pose proof (ceil_div_bounds len pageSize Hps) as Hceil.
  unfold v, renderTable. fold len. cbn [view_currentPage view_totalPages
    view_start view_end view_pageItems view_prev_disabled view_next_disabled].
  set (totalPages := ceil_div len pageSize) in *.
  assert (1 ≤ totalPages) as Htotal by nia.
  rewrite length_slice.
  2: { repeat case_bool_decide; nia. }
  fold len.
  split_and!; repeat case_bool_decide; try (split; intros); try done; try nia.
Qed.

Lemma concat_chunks {A} (l : list A) (n k : nat) :
  concat (map (λ i, take n (drop ((i - 1) * n) l)) (seq 1 k))
  = take (k * n) l.
Proof.
  induction k as [|k IH]; [done|].
  rewrite seq_S, map_app, concat_app, IH. simpl.
  rewrite app_nil_r, Nat.sub_0_r, take_take_drop. f_equal. lia.
Qed.

(** X18.  The pages of [renderTable] cover the list: for a positive page
    size, the rows shown on page 1, page 2 and so on up to the last page
    are, one after the other, the rows of the sorted list, each once. *)
Theorem pages_cover_the_list {A} (sorted : list A) (pageSize : Z) :
  0 < pageSize → sorted ≠ [] →
  let totalPages := view_totalPages (renderTable sorted pageSize 1) in
  concat (map (λ i, view_pageItems (renderTable sorted pageSize (Z.of_nat i)))
            (seq 1 (Z.to_nat totalPages)))
  = sorted.
Proof.
  intros Hps Hne totalPages.
  assert (1 ≤ Z.of_nat (length sorted)) as Hlen.
  { destruct sorted; [done|]. simpl. lia. }
  pose proof (ceil_div_bounds (Z.of_nat (length sorted)) pageSize Hps) as Hceil.
  assert (totalPages = ceil_div (Z.of_nat (length sorted)) pageSize) as Htotal
    by done.
  rewrite <- Htotal in Hceil. clearbody totalPages.
  rewrite (map_ext_in _ (λ i, take (Z.to_nat pageSize)
                                (drop ((i - 1) * Z.to_nat pageSize) sorted))).
  - rewrite concat_chunks. apply take_ge.
    assert (1 ≤ totalPages) by nia.
    apply Nat2Z.inj_le. rewrite Nat2Z.inj_mul, !Z2Nat.id by lia.
    apply Hceil.
  - intros i [Hi1 Hi2]%in_seq. unfold renderTable, slice. simpl.
    rewrite <- Htotal.
    assert (1 ≤ totalPages) by nia.
    assert (1 ≤ Z.of_nat i ≤ totalPages) as Hi by lia.
    rewrite (bool_decide_eq_false_2 (Z.of_nat i > totalPages)) by lia.
    rewrite (bool_decide_eq_false_2 (Z.of_nat i < 1)) by lia.
    f_equal; [lia|]. f_equal.
    apply Nat2Z.inj. rewrite Nat2Z.inj_mul, Nat2Z.inj_sub, !Z2Nat.id by nia.
    lia.
Qed.

(* ===================================================================== *)
(** * Relative times *)
(* ===================================================================== *)

(** X19.  [formatRelativeTime] never shows a count below 1: a difference
    under a minute, a negative one included, reads [just now], and from
    one minute on the text is a count within the range of its unit, in
    the singular exactly for a count of 1. *)
Theorem formatRelativeTime_counts_from_one diffMs :
  (diffMs < 60000 → formatRelativeTime (Some diffMs) = "just now")
  ∧ (60000 ≤ diffMs →
       ∃ n unit,
         formatRelativeTime (Some diffMs) = ago n unit
         ∧ 1 ≤ n
         ∧ ((unit = "minute" ∧ n < 60) ∨ (unit = "hour" ∧ n < 24)
            ∨ (unit = "day" ∧ n < 30) ∨ (unit = "month" ∧ n < 12)
            ∨ unit = "year")).
Proof.
  unfold formatRelativeTime.
  pose proof (Z.div_mod diffMs 1000 ltac:(lia)) as H1.
  pose proof (Z.mod_pos_bound diffMs 1000 ltac:(lia)) as H1'.
  set (diffSec := diffMs / 1000) in *.
  pose proof (Z.div_mod diffSec 60 ltac:(lia)) as H2.
  pose proof (Z.mod_pos_bound diffSec 60 ltac:(lia)) as H2'.
  set (diffMin := diffSec / 60) in *.
  pose proof (Z.div_mod diffMin 60 ltac:(lia)) as H3.
  pose proof (Z.mod_pos_bound diffMin 60 ltac:(lia)) as H3'.
  set (diffHour := diffMin / 60) in *.
  pose proof (Z.div_mod diffHour 24 ltac:(lia)) as H4.
  pose proof (Z.mod_pos_bound diffHour 24 ltac:(lia)) as H4'.
  set (diffDay := diffHour / 24) in *.
  pose proof (Z.div_mod diffDay 30 ltac:(lia)) as H5.
  pose proof (Z.mod_pos_bound diffDay 30 ltac:(lia)) as H5'.
  set (diffMonth := diffDay / 30) in *.
  pose proof (Z.div_mod diffMonth 12 ltac:(lia)) as H6.
  pose proof (Z.mod_pos_bound diffMonth 12 ltac:(lia)) as H6'.
  set (diffYear := diffMonth / 12) in *.
  split.
  - intros Hd. by rewrite bool_decide_eq_true_2 by lia.
  - intros Hd. rewrite bool_decide_eq_false_2 by lia.
    case_bool_decide; [exists diffMin, "minute"; split_and!; [done|lia|auto]|].
    case_bool_decide; [exists diffHour, "hour"; split_and!; [done|lia|auto]|].
    case_bool_decide; [exists diffDay, "day"; split_and!; [done|lia|auto]|].
    case_bool_decide;
      [exists diffMonth, "month"; split_and!; [done|lia|auto 6]|].
    exists diffYear, "year". split_and!; [done|lia|auto 6].
Qed.

(* ===================================================================== *)
(** * Offline retry alarms *)
(* ===================================================================== *)

Lemma prefix_slice_from p : ∀ s,
  String.prefix p s = true → s = p +:+ slice_from (String.length p) s.
Proof.
  induction p as [|c p IH]; intros [|d s]; simpl; try done.
  destruct (Ascii.ascii_dec c d) as [->|]; [|done].
  intros Hp. change (String d s = String d (p +:+ slice_from (String.length p) s)).
  by rewrite <- IH.
Qed.

Lemma prefix_append p s : String.prefix p (p +:+ s) = true.
Proof.
  induction p as [|c p IH]; [by destruct s|].
  change (String.prefix (String c p) (String c (p +:+ s)) = true). simpl.
  by destruct (Ascii.ascii_dec c c).
Qed.

Lemma slice_from_append p s : slice_from (String.length p) (p +:+ s) = s.
Proof. induction p as [|c p IH]; [by destruct s|done]. Qed.

(** X20.  The name of an offline-retry alarm carries the storefront id and
    the listener reads it back: the alarm that [scheduleOfflineRetry]
    creates for a storefront is taken by the listener to be for that
    storefront, and the listener takes no other name to be for it. *)
Theorem alarm_name_round_trip storefrontId name :
  alarm_storefront (scheduleOfflineRetry storefrontId) = Some storefrontId
  ∧ (alarm_storefront name = Some storefrontId →
       name = scheduleOfflineRetry storefrontId).
Proof.
  unfold alarm_storefront, scheduleOfflineRetry. split.
  { by rewrite prefix_append, slice_from_append. }
  destruct (String.prefix OFFLINE_ALARM_PREFIX name) eqn:Hp; [|done].
  intros [= <-]. by apply prefix_slice_from.
Qed.


(* ===================================================================== *)
(** * The adapter and the pages on concrete inputs *)
(* ===================================================================== *)

(** The paused backup of [other_shop] is deleted next to the catalog of
    [shop]. *)
Lemma deleteStorefront_purges_exactly_witness :
  ∃ w', deleteStorefront no_fault other_shop two_shops = (Normal tt, w')
        ∧ storefronts w' !! other_shop = None
        ∧ of_storefront other_shop (products w') = ∅
        ∧ of_storefront shop (products w')
          = of_storefront shop (products two_shops).
Proof.
  destruct (deleteStorefront_purges_exactly no_fault other_shop two_shops)
    as (w' & Hrun & Hs & _ & Hp & _ & Hother).
  - reflexivity.
  - exists w'. split; [exact Hrun|]. split; [exact Hs|]. split; [exact Hp|].
    apply (Hother shop). discriminate.
Defined.

Lemma markProductsRemoved_first_time_wins_witness :
  let w1 := (markProductsRemoved no_fault shop {[key_of "A"]} "T1"
               catalog_abc).2 in
  let w2 := (markProductsRemoved no_fault shop {[key_of "A"]} "T2" w1).2 in
  products w2 = products w1.
Proof.
  intros w1 w2.
  apply (markProductsRemoved_first_time_wins no_fault shop {[key_of "A"]}
           {[key_of "A"]} "T1" "T2" catalog_abc); reflexivity.
Defined.

Lemma putProducts_last_wins_witness :
  let batch := [stored_product "A" None; stored_product "A" (Some "T9")] in
  let w1 := (putProducts no_fault batch empty_world).2 in
  products w1 !! key_of "A" = Some (stored_product "A" (Some "T9"))
  ∧ products (putProducts no_fault batch w1).2 = products w1.
Proof.
  intros batch w1.
  destruct (putProducts_last_wins no_fault batch empty_world)
    as [Hlast Htwice]; [reflexivity..|].
  split; [|exact Htwice].
  etrans; [exact (Hlast (key_of "A"))|]. vm_compute. reflexivity.
Defined.

Lemma clearLogs_removes_exactly_witness :
  ∃ w', clearLogs no_fault (Some shop) failed_world = (Normal tt, w')
        ∧ logs_of shop (logs w') = [].
Proof.
  destruct (clearLogs_removes_exactly no_fault (Some shop) failed_world)
    as (w' & Hrun & _ & Hnone & _).
  - reflexivity.
  - exists w'. by split.
Defined.

(** Pruning with no retention, at the third clock reading. *)
Lemma pruneOldLogs_counts_what_it_removes_witness :
  ∃ w', pruneOldLogs no_fault ms_clock stamp 0 failed_world = (Normal 1, w')
        ∧ logs w' = [].
Proof.
  destruct (pruneOldLogs_counts_what_it_removes no_fault ms_clock stamp 0
              failed_world)
    as (deleted & w' & Hrun & Hn & _).
  - reflexivity.
  - exists w'.
    assert (pruneOldLogs no_fault ms_clock stamp 0 failed_world
            = (Normal 1, set_logs [] (count_request (tick failed_world))))
      as Hval by (vm_compute; reflexivity).
    rewrite Hval in Hrun. injection Hrun as <- <-. split; [exact Hval|done].
Defined.

Lemma extractShopifyId_is_the_last_segment_witness :
  extractShopifyId "gid://shopify/Product/8001" = "8001".
Proof.
  apply (proj1 extractShopifyId_is_the_last_segment
           "gid://shopify/Product" "8001").
  reflexivity.
Defined.

Lemma product_key_determines_its_parts_witness :
  shop = shop ∧ "gid://shopify/Product/1" = "gid://shopify/Product/1".
Proof.
  apply (product_key_determines_its_parts shop shop
           "gid://shopify/Product/1" "gid://shopify/Product/1");
    reflexivity.
Defined.

(** Five rows, two to a page; the page asked for is the ninth. *)
Lemma renderTable_shows_an_existing_page_witness :
  let v := renderTable ["a"; "b"; "c"; "d"; "e"] 2 9 in
  view_currentPage v = 3 ∧ view_pageItems v = ["e"]
  ∧ view_next_disabled v = true.
Proof.
  intros v.
  destruct (renderTable_shows_an_existing_page ["a"; "b"; "c"; "d"; "e"] 2 9)
    as (_ & _ & Hlast & _); [lia|discriminate|].
  split; [apply Hlast; reflexivity|]. split; reflexivity.
Defined.

Lemma pages_cover_the_list_witness :
  concat (map (λ i, view_pageItems (renderTable ["a"; "b"; "c"; "d"; "e"] 2
                                     (Z.of_nat i)))
            (seq 1 3))
  = ["a"; "b"; "c"; "d"; "e"].
Proof.
  apply (pages_cover_the_list ["a"; "b"; "c"; "d"; "e"] 2);
    [lia|discriminate].
Defined.

Lemma formatRelativeTime_counts_from_one_witness :
  ∃ n unit, formatRelativeTime (Some 119999) = ago n unit ∧ 1 ≤ n.
Proof.
  destruct (proj2 (formatRelativeTime_counts_from_one 119999))
    as (n & unit & Heq & Hn & _); [lia|].
  by exists n, unit.
Defined.

Lemma alarm_name_round_trip_witness :
  "offline-retry-shop.myshopify.com" = scheduleOfflineRetry shop.
Proof.
  apply (proj2 (alarm_name_round_trip shop
                  "offline-retry-shop.myshopify.com")).
  vm_compute. reflexivity.
Defined.


(* ===================================================================== *)
(** * What a run reports *)
(* ===================================================================== *)

Lemma progress_calls_app evs1 evs2 :
  progress_calls (evs1 ++ evs2) = progress_calls evs1 ++ progress_calls evs2.
Proof. apply omap_app. Qed.

Section Progress.

Variable time : nat → string.
Variable fault : nat → option JsError.
Variable blob_size : gmap string Product → Z.

Lemma fetchPage_progress sid cursor o w :
  wp (fetchPage sid cursor o)
     (λ _ w', progress_calls (events w') = progress_calls (events w))
     anything w.
Proof.
  unfold fetchPage. xp_io. xp_io. destruct o; xp_io.
  simpl. by rewrite progress_calls_app, app_nil_r.
Qed.

Lemma log_progress sid level message detail w :
  wp (log time fault sid level message detail)
     (λ _ w', progress_calls (events w') = progress_calls (events w))
     anything w.
Proof.
  eapply wp_conseq; [apply log_effect, faults_meet_anything|].
  by intros _ w' (_ & -> & _).
Qed.

Lemma markPartial_progress sid w :
  wp (markPartial fault sid)
     (λ _ w', progress_calls (events w') = progress_calls (events w))
     anything w.
Proof.
  eapply wp_conseq; [apply markPartial_effect, faults_meet_anything|].
  by intros _ w' (_ & _ & _ & -> & _).
Qed.

Lemma fetch_with_retry_progress sid cursor r w :
  wp (fetch_with_retry time fault sid cursor r)
     (λ _ w', progress_calls (events w') = progress_calls (events w))
     anything w.
Proof.
  unfold fetch_with_retry.
  xp_apply fetchPage_progress. intros response w1 H1.
  destruct (throttled response); [|by xp_io].
  xp_apply log_progress. intros _ w2 H2. xp_io. xp_io.
  xp_apply fetchPage_progress. intros retry w3 H3.
  simpl in H3. rewrite progress_calls_app, app_nil_r in H3.
  destruct (throttled retry); [|xp_io; congruence].
  xp_apply log_progress. intros _ w4 H4.
  xp_apply markPartial_progress. intros _ w5 H5. xp_io. congruence.
Qed.

Lemma apply_page_progress sid cursor seenIds response w :
  wp (apply_page time fault sid cursor seenIds response)
     (λ res w',
        progress_calls (events w')
        = progress_calls (events w)
            ++ match res with
               | inl _ => []
               | inr (cursor', _, _) => [reported cursor']
               end)
     anything w.
Proof.
  unfold apply_page. case_bool_decide.
  { xp_apply log_progress. intros _ w1 H1.
    xp_apply markPartial_progress. intros _ w2 H2. repeat xp_io. simpl.
    rewrite progress_calls_app, !app_nil_r. congruence. }
  destruct (data (body response)) as [pd|].
  2: { xp_apply log_progress. intros _ w1 H1.
       xp_apply markPartial_progress. intros _ w2 H2. xp_io.
       rewrite app_nil_r. congruence. }
  xp_apply mapM_transformProduct_spec. intros ps w1 [_ (_&_&_&_&H1e&_)].
  unfold putProducts, putBackupCursor. repeat xp_io. simpl.
  by rewrite progress_calls_app, H1e.
Qed.

Lemma post_loop_progress storefront e cursor seenIds w :
  wp (post_loop time fault blob_size storefront e cursor seenIds)
     (λ _ w', progress_calls (events w') = progress_calls (events w))
     anything w.
Proof.
  unfold post_loop. destruct (cancelled e).
  { xp_apply markPartial_progress. intros _ w1 H1.
    unfold deleteBackupCursor. xp_io. xp_io.
    xp_apply log_progress. intros _ w2 H2. xp_io. simpl in H2. congruence. }
  destruct (paused e).
  { unfold putStorefront. xp_io. xp_io.
    xp_apply log_progress. intros _ w2 H2. by xp_io. }
  unfold markProductsRemoved, getProductCount, estimateStorefrontSize,
    putStorefront, deleteBackupCursor, addLog.
  repeat xp_io. simpl. by rewrite progress_calls_app, app_nil_r.
Qed.

Lemma loop_progress storefront script : ∀ e cursor seenIds w,
  wp (loop time fault blob_size storefront e cursor seenIds script)
     (λ _ w',
        progress_calls (events w')
        = progress_calls (events w)
            ++ map reported (checkpoints cursor (applied_pages e script)))
     anything w.
Proof.
  assert (∀ e cursor seenIds w,
            wp (post_loop time fault blob_size storefront e cursor seenIds)
               (λ _ w', progress_calls (events w')
                        = progress_calls (events w) ++ [])
               anything w) as Hpost.
  { intros. eapply wp_conseq; [apply post_loop_progress|].
    intros _ w' ->. by rewrite app_nil_r. }
  induction script as [|r rest IH]; intros e cursor seenIds w; simpl;
    destruct (paused e || cancelled e); try by apply Hpost.
  - repeat xp_io. simpl. by rewrite progress_calls_app.
  - apply wp_bind. eapply wp_conseq.
    { apply wp_and; [apply fetch_with_retry_round
                    |apply fetch_with_retry_progress]. }
    intros [out|response] w1 [[Hused _] H1]; cbv beta.
    { xp_io. rewrite Hused. simpl. by rewrite app_nil_r. }
    rewrite Hused. simpl.
    apply wp_bind. eapply wp_conseq.
    { apply wp_and; [apply apply_page_checkpoint|apply apply_page_progress]. }
    intros [out|[[cursor' seenIds'] more]] w2 [Hpage H2]; cbv beta.
    { destruct Hpage as [-> _]. xp_io. simpl. rewrite H2, H1.
      by rewrite !app_nil_r. }
    destruct Hpage as (pd & -> & -> & -> & _). simpl.
    destruct (hasNextPage (pageInfo pd)).
    + xp_io. xp_io. eapply wp_conseq; [apply IH|].
      intros _ w3 ->. simpl. rewrite progress_calls_app, app_nil_r, H2, H1.
      by rewrite <- app_assoc.
    + eapply wp_conseq; [apply post_loop_progress|].
      intros _ w3 ->. by rewrite H2, H1.
Qed.

(** X21.  When a call of [run] returns from its [try] block, the progress
    callback has been called once for each page applied, in order, each
    time with the count of the checkpoint stored for that page and with
    its estimated total, 0 when it has none. *)
Theorem progress_reports_each_checkpoint e pre script w out w' :
  keyed w →
  run time fault blob_size e pre script w = (Normal out, w') →
  (∀ err, out ≠ Absorbed err) →
  let sid := storefrontId e in
  progress_calls (events w')
  = progress_calls (events w)
      ++ map reported
           (checkpoints (start_cursor time sid w)
              (applied_pages (deliver pre e) script)).
Proof.
  intros Hk Hrun Hout sid. apply run_returned in Hrun; [|done].
  assert (wp (run_body time fault blob_size e pre script)
            (λ _ w',
               progress_calls (events w')
               = progress_calls (events w)
                   ++ map reported
                        (checkpoints (start_cursor time sid w)
                           (applied_pages (deliver pre e) script)))
            anything w) as Hwp.
  { apply run_body_exit; [apply faults_meet_anything|done|].
    intros storefront w1 _ _ _ _ _ Hev.
    eapply wp_conseq; [apply loop_progress|].
    intros _ w2 ->. by rewrite Hev. }
  exact (wp_returns _ _ _ _ _ _ Hwp Hrun).
Qed.

End Progress.


(** The run that is paused after the first of two pages reports once. *)
Lemma progress_reports_each_checkpoint_witness :
  progress_calls (events paused_world) = [(1, 0)].
Proof.
  apply (progress_reports_each_checkpoint clock0 no_fault size0 shop_engine
           [] first_page_then_pause empty_world RunPaused paused_world).
  - unfold keyed. by_computation.
  - vm_compute. reflexivity.
  - intros err. discriminate.
Defined.

(** A fresh backup of three pages is stopped by the quota at the second
    upsert: both page requests went to the endpoint of [shop]. *)
Lemma run_requests_only_its_own_endpoint_witness :
  ∃ new, events (run clock0 (fault_at 6 QuotaExceeded) size0 shop_engine []
                   three_pages empty_world).2
         = events empty_world ++ new
         ∧ ∀ url cursor, EFetch url cursor ∈ new → url = endpoint shop.
Proof.
  apply (run_requests_only_its_own_endpoint clock0 (fault_at 6 QuotaExceeded)
           size0 shop_engine [] three_pages empty_world).
  unfold keyed. by_computation.
Defined.


(* ===================================================================== *)
(** * When a run notifies *)
(* ===================================================================== *)

Lemma notifications_app evs1 evs2 :
  notifications (evs1 ++ evs2) = notifications evs1 ++ notifications evs2.
Proof. apply omap_app. Qed.

Lemma notified_from out before before' after :
  notifications before' = notifications before →
  notified out before' after → notified out before after.
Proof. intros Heq. unfold notified. by rewrite Heq. Qed.

Section Notifications.

Variable time : nat → string.
Variable fault : nat → option JsError.
Variable blob_size : gmap string Product → Z.

Lemma fetchPage_silent sid cursor o w :
  wp (fetchPage sid cursor o)
     (λ _ w', notifications (events w') = notifications (events w))
     anything w.
Proof.
  unfold fetchPage. xp_io. xp_io. destruct o; xp_io.
  simpl. by rewrite notifications_app, app_nil_r.
Qed.

Lemma log_silent sid level message detail w :
  wp (log time fault sid level message detail)
     (λ _ w', notifications (events w') = notifications (events w))
     anything w.
Proof.
  eapply wp_conseq; [apply log_effect, faults_meet_anything|].
  by intros _ w' (_ & -> & _).
Qed.

Lemma markPartial_silent sid w :
  wp (markPartial fault sid)
     (λ _ w', notifications (events w') = notifications (events w))
     anything w.
Proof.
  eapply wp_conseq; [apply markPartial_effect, faults_meet_anything|].
  by intros _ w' (_ & _ & _ & -> & _).
Qed.

Lemma fetch_with_retry_notifies sid cursor r w :
  wp (fetch_with_retry time fault sid cursor r)
     (λ res w', match res with
                | inl out => notified out (events w) (events w')
                | inr _ => notifications (events w') = notifications (events w)
                end)
     anything w.
Proof.
  unfold fetch_with_retry.
  xp_apply fetchPage_silent. intros response w1 H1.
  destruct (throttled response); [|by xp_io].
  xp_apply log_silent. intros _ w2 H2. xp_io. xp_io.
  xp_apply fetchPage_silent. intros retry w3 H3.
  simpl in H3. rewrite notifications_app, app_nil_r in H3.
  destruct (throttled retry); [|xp_io; congruence].
  xp_apply log_silent. intros _ w4 H4.
  xp_apply markPartial_silent. intros _ w5 H5. xp_io. simpl. congruence.
Qed.

Lemma apply_page_notifies sid cursor seenIds response w :
  wp (apply_page time fault sid cursor seenIds response)
     (λ res w', match res with
                | inl out => notified out (events w) (events w')
                | inr _ => notifications (events w') = notifications (events w)
                end)
     anything w.
Proof.
  unfold apply_page. case_bool_decide.
  { xp_apply log_silent. intros _ w1 H1.
    xp_apply markPartial_silent. intros _ w2 H2. repeat xp_io. simpl.
    eexists. rewrite notifications_app. simpl. by rewrite H2, H1. }
  destruct (data (body response)) as [pd|].
  2: { xp_apply log_silent. intros _ w1 H1.
       xp_apply markPartial_silent. intros _ w2 H2. xp_io. simpl.
       congruence. }
  xp_apply mapM_transformProduct_spec. intros ps w1 [_ (_&_&_&_&H1e&_)].
  unfold putProducts, putBackupCursor. repeat xp_io. simpl.
  by rewrite notifications_app, H1e, !app_nil_r.
Qed.

Lemma post_loop_notifies storefront e cursor seenIds w :
  wp (post_loop time fault blob_size storefront e cursor seenIds)
     (λ out w', notified out (events w) (events w')) anything w.
Proof.
  unfold post_loop. destruct (cancelled e).
  { xp_apply markPartial_silent. intros _ w1 H1.
    unfold deleteBackupCursor. xp_io. xp_io.
    xp_apply log_silent. intros _ w2 H2. xp_io. simpl in *. congruence. }
  destruct (paused e).
  { unfold putStorefront. xp_io. xp_io.
    xp_apply log_silent. intros _ w2 H2. xp_io. simpl in *. congruence. }
  unfold markProductsRemoved, getProductCount, estimateStorefrontSize,
    putStorefront, deleteBackupCursor, addLog.
  repeat xp_io. simpl. eexists. by rewrite notifications_app.
Qed.

Lemma loop_notifies storefront script : ∀ e cursor seenIds w,
  wp (loop time fault blob_size storefront e cursor seenIds script)
     (λ out w', notified out (events w) (events w')) anything w.
Proof.
  induction script as [|r rest IH]; intros e cursor seenIds w; simpl;
    destruct (paused e || cancelled e); try apply post_loop_notifies.
  - repeat xp_io. simpl. by rewrite notifications_app, app_nil_r.
  - xp_apply fetch_with_retry_notifies. intros [out|response] w1 H1.
    { by xp_io. }
    xp_apply apply_page_notifies.
    intros [out|[[cursor' seenIds'] more]] w2 H2.
    { xp_io. by eapply notified_from. }
    destruct more.
    + xp_io. xp_io. eapply wp_conseq; [apply IH|].
      intros out w3 H3. eapply notified_from; [|exact H3].
      simpl. rewrite notifications_app, app_nil_r. congruence.
    + eapply wp_conseq; [apply post_loop_notifies|].
      intros out w3 H3. eapply notified_from; [|exact H3]. congruence.
Qed.

(** X23.  A call of [run] that returns from its [try] block has sent one
    notification if it completed, titled [Backup complete], one if it
    stopped on an HTTP error, titled [Backup failed], and none otherwise:
    a call that is paused, cancelled, stopped by throttling or by a
    payload without data ends without a notification. *)
Theorem run_notifies_on_completion_and_http_error e pre script w out w' :
  keyed w →
  run time fault blob_size e pre script w = (Normal out, w') →
  (∀ err, out ≠ Absorbed err) →
  notified out (events w) (events w').
Proof.
  intros Hk Hrun Hout. apply run_returned in Hrun; [|done].
  assert (wp (run_body time fault blob_size e pre script)
            (λ out w', notified out (events w) (events w')) anything w)
    as Hwp.
  { apply run_body_exit; [apply faults_meet_anything|done|].
    intros storefront w1 _ _ _ _ _ Hev.
    eapply wp_conseq; [apply loop_notifies|].
    intros out' w2 H2. eapply notified_from; [|exact H2]. by rewrite Hev. }
  exact (wp_returns _ _ _ _ _ _ Hwp Hrun).
Qed.

End Notifications.

(** The run stopped by status 500 has notified once. *)
Lemma run_notifies_on_completion_and_http_error_witness :
  ∃ message, notifications (events failed_world)
             = [("Backup failed", message)].
Proof.
  apply (run_notifies_on_completion_and_http_error clock0 no_fault size0
           shop_engine [] failing_rounds empty_world (StoppedHttp 500)
           failed_world).
  - unfold keyed. by_computation.
  - vm_compute. reflexivity.
  - intros err. discriminate.
Defined.
